(** * A shallow embedding of the STARK prover core (apguerrera/starks)

    The development follows the Python sources:

    - [starks/poly_utils.py] : [multi_inv], [zpoly], [lagrange_interp],
      [lagrange_interp_2], [lagrange_interp_4], [multi_interp_4],
      [is_monic], [construct_affine_vanishing_polynomial];
    - [starks/air.py]        : [get_computational_trace], the methods
      [generate_witness], [generate_boundary_constraints] and
      [generate_monotone_circuit] of the class [AIR];
    - [starks/stark.py]      : [get_computational_trace],
      [construct_constraint_polynomial],
      [compute_pseudorandom_linear_combination] (challenge derivation),
      [compute_merkle_spot_checks], [Computation], [mk_proof],
      [verify_proof_at_position], [verify_proof].

    Python integers are [Z]; a list is a [list]; indexing is stdpp's
    lookup, with the [IndexError] Python raises out of range written out;
    an exception is a value of [exn] in the error monad [result]. *)

From Stdlib Require Import ZArith Lia List Zdivisibility Zcong Znumtheory Zpow_facts.
From Stdlib Require Import Strings.Byte.
From stdpp Require Import base list.
Import ListNotations.

Local Open Scope Z_scope.

(** ** Python exceptions and the error monad *)

Module Py.

(** The exceptions the embedded code can raise. [DivisionByZero] is the
    error kind the specification names for the inverse of zero. *)
Inductive exn : Type :=
| AssertionError
| TypeError
| IndexError
| NameError
| ZeroDivisionError
| DivisionByZero.

Inductive result (A : Type) : Type :=
| Ok (a : A)
| Raise (e : exn).

Arguments Ok {A} a.
Arguments Raise {A} e.

Definition bind {A B : Type} (m : result A) (k : A -> result B) : result B :=
  match m with
  | Ok a => k a
  | Raise e => Raise e
  end.

(** [assert c] *)
Definition assert (c : bool) : result unit :=
  if c then Ok tt else Raise AssertionError.

(** [l[i]] for a non-negative index. *)
Definition getitem {A : Type} (l : list A) (i : nat) : result A :=
  match l !! i with
  | Some a => Ok a
  | None => Raise IndexError
  end.

(** [l[-1]] *)
Definition getlast {A : Type} (l : list A) : result A :=
  match last l with
  | Some a => Ok a
  | None => Raise IndexError
  end.

(** [for x in xs: st = body(x, st)], stopping at the first exception. *)
Fixpoint for_each {A St : Type} (xs : list A) (body : A -> St -> result St) (st : St)
  : result St :=
  match xs with
  | [] => Ok st
  | x :: xs' => bind (body x st) (for_each xs' body)
  end.

(** [[f(x) for x in xs]], stopping at the first exception. *)
Fixpoint list_comp {A B : Type} (f : A -> result B) (xs : list A) : result (list B) :=
  match xs with
  | [] => Ok []
  | x :: xs' => bind (f x) (fun y => bind (list_comp f xs') (fun ys => Ok (y :: ys)))
  end.

(** [l[i]] for an integer index; a negative index counts from the end. *)
Definition index {A : Type} (l : list A) (i : Z) : result A :=
  if 0 <=? i then getitem l (Z.to_nat i)
  else if 0 <=? Z.of_nat (length l) + i
       then getitem l (Z.to_nat (Z.of_nat (length l) + i))
       else Raise IndexError.

(** [a // b] on integers *)
Definition floordiv (a b : Z) : result Z :=
  if b =? 0 then Raise ZeroDivisionError else Ok (a / b).

(** [a % b] on integers *)
Definition pymod (a b : Z) : result Z :=
  if b =? 0 then Raise ZeroDivisionError else Ok (a mod b).

(** [int.from_bytes(bs, 'big')] *)
Definition int_from_bytes (bs : list byte) : Z :=
  fold_left (fun acc b => acc * 256 + Z.of_N (Byte.to_N b)) bs 0.

(** [range(n)] *)
Definition range (n : nat) : list nat := seq 0 n.

(** [range(n, 0, -1)] *)
Definition range_down (n : nat) : list nat := rev (seq 1 n).

End Py.

Export Py.

Notation "'let*' x ':=' m 'in' k" := (bind m (fun x => k))
  (at level 10, x pattern, m at level 200, k at level 200).
Notation "m ';;' k" := (bind m (fun _ => k))
  (at level 100, k at level 200, right associativity).

(** ** The prime field

    [starks/modp.py] ([IntegersModP]) is not among the sources; the field
    is taken from the specification (sections 3 and 4.1). *)

Module Field.
Section Field.

(** The modulus of the field. *)
Variable p : Z.

(** Modelled from the spec: the field element type of the absent
    [starks/modp.py]. "A field element is an integer in [0, p)"; [felt n]
    is the constructor call [field(n)]. *)
Definition felt (n : Z) : Z := n mod p.

(** Modelled from the spec: field addition of the absent [starks/modp.py];
    "every arithmetic operation reduces modulo p". *)
Definition fadd (a b : Z) : Z := (a + b) mod p.

(** Modelled from the spec: field subtraction of the absent
    [starks/modp.py]. *)
Definition fsub (a b : Z) : Z := (a - b) mod p.

(** Modelled from the spec: field multiplication of the absent
    [starks/modp.py]. *)
Definition fmul (a b : Z) : Z := (a * b) mod p.

(** Modelled from the spec: field negation of the absent
    [starks/modp.py]. *)
Definition fneg (a : Z) : Z := (- a) mod p.

(** Modelled from the spec: the modular inverse of the absent
    [starks/modp.py], "modular inverse (extended Euclidean)"; "inverse of
    zero is undefined and must be rejected with a distinct error kind". *)
Definition finv (a : Z) : result Z :=
  let '(u, _, d) := Z.extgcd a p in
  if d =? 1 then Ok (u mod p) else Raise DivisionByZero.

(** Modelled from the spec: field division [a / b] of the absent
    [starks/modp.py], multiplication by the inverse. *)
Definition fdiv (a b : Z) : result Z :=
  let* i := finv b in Ok (fmul a i).

(** Modelled from the spec: the truth value of a field element, the one of
    the integer in [[0, p)] it is: zero is false. *)
Definition truthy (a : Z) : bool := negb (a =? 0).

(** The elements of the field. *)
Definition is_felt (a : Z) : Prop := 0 <= a < p.

End Field.
End Field.

Export Field.

(** ** Univariate polynomials

    [starks/polynomial.py] ([polynomials_over]) is not among the sources;
    the operations [poly_utils.py] uses are taken from the specification
    (section 4.2): "represented by a coefficient sequence in ascending
    degree", "evaluation (Horner)", "long division (quotient +
    remainder)". *)

Module Poly.
Section Poly.

Variable p : Z.

(** Modelled from the spec: the constructor [polysOver(coefficients)] of the
    absent [starks/polynomial.py]: a coefficient sequence in ascending
    degree, each coefficient a field element. *)
Definition polysOver (cs : list Z) : list Z := map (felt p) cs.

(** Modelled from the spec: the call [poly(x)] of the absent
    [starks/polynomial.py], "evaluation (Horner)". *)
Definition poly_eval (cs : list Z) (x : Z) : Z :=
  fold_right (fun c acc => fadd p c (fmul p acc x)) 0 cs.

(** Modelled from the spec: [divmod] of the absent [starks/polynomial.py],
    "long division (quotient + remainder)". The coefficients of the
    dividend are brought down from the leading one; whenever the running
    remainder reaches the length of the divisor, its leading coefficient
    divided by the divisor's is the next coefficient of the quotient, and
    that multiple of the divisor is subtracted. *)
Fixpoint poly_divmod (n d : list Z) : result (list Z * list Z) :=
  match n with
  | [] => Ok ([], [])
  | c :: n' =>
      let* qr := poly_divmod n' d in
      let r' := c :: snd qr in
      if (length r' <? length d)%nat then Ok (fst qr, r')
      else
        let* lr := getlast r' in
        let* ld := getlast d in
        let* t := fdiv p lr ld in
        Ok (t :: fst qr,
            removelast (zip_with (fun a b => fsub p a (fmul p t b)) r' d))
  end.

(** Modelled from the spec: the quotient [n / d] of the absent
    [starks/polynomial.py]. *)
Definition poly_div (n d : list Z) : result (list Z) :=
  let* qr := poly_divmod n d in Ok (fst qr).

End Poly.
End Poly.

Export Poly.

(** ** [starks/poly_utils.py] *)

Module PolyUtils.
Section PolyUtils.

Variable p : Z.

(** [l[i] = v] *)
Definition setitem {A : Type} (l : list A) (i : nat) (v : A) : result (list A) :=
  if (i <? length l)%nat then Ok (<[i := v]> l) else Raise IndexError.

(** The first loop of [multi_inv]: the running products, a zero entry
    counted as [1]. *)
Definition multi_inv_partials (values : list Z) : result (list Z) :=
  for_each values
    (fun val partials =>
       let mul_value := if val =? 0 then 1 else val in
       let* lst := getlast partials in
       Ok (partials ++ [fmul p lst mul_value]))
    [felt p 1].

(** One round of the backward sweep of [multi_inv], at index [i]. *)
Definition multi_inv_sweep (values partials : list Z) (i : nat)
    (st : list Z * Z) : result (list Z * Z) :=
  let '(outputs, inv) := st in
  let* v := getitem values (i - 1) in
  let* out :=
    (if truthy v
     then let* pi := getitem partials (i - 1) in Ok (fmul p pi inv)
     else Ok 0) in
  let* outputs := setitem outputs (i - 1) out in
  let* v' := getitem values (i - 1) in
  if negb (v' =? 0) then Ok (outputs, fmul p inv v') else Ok (outputs, inv).

(** [multi_inv(field, values)] *)
Definition multi_inv (values : list Z) : result (list Z) :=
  let* partials := multi_inv_partials values in
  assert (length partials =? length values + 1)%nat ;;
  let* lst := getlast partials in
  let* inv := fdiv p (felt p 1) lst in
  let outputs := replicate (length values) 0 in
  let* st := for_each (range_down (length values))
               (multi_inv_sweep values partials) (outputs, inv) in
  Ok (fst st).


(** One round of the inner loop of [zpoly]: [root[j] -= root[j + 1] * x]. *)
Definition zpoly_inner (x : Z) (j : nat) (root : list Z) : result (list Z) :=
  let* rj := getitem root j in
  let* rj1 := getitem root (j + 1) in
  setitem root j (fsub p rj (fmul p rj1 x)).

(** One round of the outer loop of [zpoly]: the product with [X - x]. *)
Definition zpoly_outer (x : Z) (root : list Z) : result (list Z) :=
  let root := felt p 0 :: root in
  for_each (range (length root - 1)) (zpoly_inner x) root.

(** [zpoly(field, roots)] *)
Definition zpoly (roots : list Z) : result (list Z) :=
  let* root := for_each roots zpoly_outer [felt p 1] in
  Ok (polysOver p root).

(** The inner loop of [lagrange_interp], at [j]:
    [if num_coefficients[j] and ys[i]: b[j] += num_coefficients[j] * yslice]. *)
Definition lagrange_interp_inner (num_coefficients : list Z) (yi yslice : Z)
    (j : nat) (b : list Z) : result (list Z) :=
  let* nj := getitem num_coefficients j in
  if truthy nj && truthy yi
  then let* bj := getitem b j in
       setitem b j (fadd p bj (fmul p nj yslice))
  else Ok b.

(** The outer loop of [lagrange_interp], at [i]. *)
Definition lagrange_interp_outer (ys invdenoms : list Z) (nums : list (list Z))
    (i : nat) (b : list Z) : result (list Z) :=
  let* yi := getitem ys i in
  let* di := getitem invdenoms i in
  let yslice := fmul p yi di in
  let* num_coefficients := getitem nums i in
  for_each (range (length ys)) (lagrange_interp_inner num_coefficients yi yslice) b.

(** [lagrange_interp(field, xs, ys)] *)
Definition lagrange_interp (xs ys : list Z) : result (list Z) :=
  let* root := zpoly xs in
  assert (length root =? length ys + 1)%nat ;;
  let* nums := list_comp (fun x => poly_div p root (polysOver p [fneg p x; 1])) xs in
  let* denoms :=
    list_comp (fun i => let* num := getitem nums i in
                        let* x := getitem xs i in
                        Ok (poly_eval p num x))
              (range (length xs)) in
  let* invdenoms := multi_inv denoms in
  let b := map (fun _ => 0) ys in
  let* b := for_each (range (length xs)) (lagrange_interp_outer ys invdenoms nums) b in
  Ok (polysOver p b).

(** [lagrange_interp_4(field, xs, ys)]. The four nodes are read first; any
    of them missing raises the same [IndexError]. *)
Definition lagrange_interp_4 (xs ys : list Z) : result (list Z) :=
  let* xs0 := getitem xs 0 in
  let* xs1 := getitem xs 1 in
  let* xs2 := getitem xs 2 in
  let* xs3 := getitem xs 3 in
  let x01 := fmul p xs0 xs1 in
  let x02 := fmul p xs0 xs2 in
  let x03 := fmul p xs0 xs3 in
  let x12 := fmul p xs1 xs2 in
  let x13 := fmul p xs1 xs3 in
  let x23 := fmul p xs2 xs3 in
  let eq0 := polysOver p [fmul p (fneg p x12) xs3; fadd p (fadd p x12 x13) x23;
                          fsub p (fsub p (fneg p xs1) xs2) xs3; 1] in
  let eq1 := polysOver p [fmul p (fneg p x02) xs3; fadd p (fadd p x02 x03) x23;
                          fsub p (fsub p (fneg p xs0) xs2) xs3; 1] in
  let eq2 := polysOver p [fmul p (fneg p x01) xs3; fadd p (fadd p x01 x03) x13;
                          fsub p (fsub p (fneg p xs0) xs1) xs3; 1] in
  let eq3 := polysOver p [fmul p (fneg p x01) xs2; fadd p (fadd p x01 x02) x12;
                          fsub p (fsub p (fneg p xs0) xs1) xs2; 1] in
  let e0 := poly_eval p eq0 xs0 in
  let e1 := poly_eval p eq1 xs1 in
  let e2 := poly_eval p eq2 xs2 in
  let e3 := poly_eval p eq3 xs3 in
  let e01 := fmul p e0 e1 in
  let e23 := fmul p e2 e3 in
  let* invall := fdiv p (felt p 1) (fmul p e01 e23) in
  let* ys0 := getitem ys 0 in
  let inv_y0 := fmul p (fmul p (fmul p ys0 invall) e1) e23 in
  let* ys1 := getitem ys 1 in
  let inv_y1 := fmul p (fmul p (fmul p ys1 invall) e0) e23 in
  let* ys2 := getitem ys 2 in
  let inv_y2 := fmul p (fmul p (fmul p ys2 invall) e01) e3 in
  let* ys3 := getitem ys 3 in
  let inv_y3 := fmul p (fmul p (fmul p ys3 invall) e01) e2 in
  let* cs :=
    list_comp
      (fun i =>
         let* c0 := getitem eq0 i in
         let* c1 := getitem eq1 i in
         let* c2 := getitem eq2 i in
         let* c3 := getitem eq3 i in
         Ok (fadd p (fadd p (fadd p (fmul p c0 inv_y0) (fmul p c1 inv_y1))
                            (fmul p c2 inv_y2))
                    (fmul p c3 inv_y3)))
      (range 4) in
  Ok (polysOver p cs).

(** [lagrange_interp_2(field, xs, ys)], on lists [xs] and [ys]. *)
Definition lagrange_interp_2 (xs ys : list Z) : result (list Z) :=
  let* xs1 := getitem xs 1 in
  let eq0 := polysOver p [fneg p xs1; 1] in
  let* xs0 := getitem xs 0 in
  let eq1 := polysOver p [fneg p xs0; 1] in
  let e0 := poly_eval p eq0 xs0 in
  let e1 := poly_eval p eq1 xs1 in
  let* invall := fdiv p (felt p 1) (fmul p e0 e1) in
  let* ys0 := getitem ys 0 in
  let inv_y0 := fmul p (fmul p ys0 invall) e1 in
  let* ys1 := getitem ys 1 in
  let inv_y1 := fmul p (fmul p ys1 invall) e0 in
  let* cs :=
    list_comp
      (fun i =>
         let* c0 := getitem eq0 i in
         let* c1 := getitem eq1 i in
         Ok (fadd p (fmul p c0 inv_y0) (fmul p c1 inv_y1)))
      (range 2) in
  Ok (polysOver p cs).

End PolyUtils.

(** *** The other polynomial utilities *)

Section Utilities.

Variable p : Z.

(** [construct_affine_vanishing_polynomial(field, aff)]; the affine space
    [aff] is taken with the sequence of elements iterating over it gives. *)
Definition construct_affine_vanishing_polynomial (aff : list Z) : result (list Z) :=
  let aff_elts := map (felt p) aff in
  zpoly p aff_elts.

(** [is_monic(poly)], on the coefficients of [poly]; the comparison with
    [1] is the one of field elements. *)
Definition is_monic (coefficients : list Z) : result bool :=
  let* lead := getlast coefficients in
  Ok (lead =? felt p 1).

(** The numerator polynomials [eq0 .. eq3] of four nodes and their values
    [e0 .. e3] at the nodes, as the body of the first loop of
    [multi_interp_4] computes them. *)
Definition interp_4_eqs (xs0 xs1 xs2 xs3 : Z)
  : list Z * list Z * list Z * list Z * (Z * Z * Z * Z) :=
  let x01 := fmul p xs0 xs1 in
  let x02 := fmul p xs0 xs2 in
  let x03 := fmul p xs0 xs3 in
  let x12 := fmul p xs1 xs2 in
  let x13 := fmul p xs1 xs3 in
  let x23 := fmul p xs2 xs3 in
  let eq0 := polysOver p [fmul p (fneg p x12) xs3; fadd p (fadd p x12 x13) x23;
                          fsub p (fsub p (fneg p xs1) xs2) xs3; 1] in
  let eq1 := polysOver p [fmul p (fneg p x02) xs3; fadd p (fadd p x02 x03) x23;
                          fsub p (fsub p (fneg p xs0) xs2) xs3; 1] in
  let eq2 := polysOver p [fmul p (fneg p x01) xs3; fadd p (fadd p x01 x03) x13;
                          fsub p (fsub p (fneg p xs0) xs1) xs3; 1] in
  let eq3 := polysOver p [fmul p (fneg p x01) xs2; fadd p (fadd p x01 x02) x12;
                          fsub p (fsub p (fneg p xs0) xs1) xs2; 1] in
  let e0 := poly_eval p eq0 xs0 in
  let e1 := poly_eval p eq1 xs1 in
  let e2 := poly_eval p eq2 xs2 in
  let e3 := poly_eval p eq3 xs3 in
  (eq0, eq1, eq2, eq3, (e0, e1, e2, e3)).

(** The polynomial with coefficients
    [eq0[i] * inv_y0 + eq1[i] * inv_y1 + eq2[i] * inv_y2 + eq3[i] * inv_y3],
    [i] in [range(4)]. *)
Definition interp_4_combination (eq0 eq1 eq2 eq3 : list Z)
    (inv_y0 inv_y1 inv_y2 inv_y3 : Z) : result (list Z) :=
  let* cs :=
    list_comp
      (fun i =>
         let* c0 := getitem eq0 i in
         let* c1 := getitem eq1 i in
         let* c2 := getitem eq2 i in
         let* c3 := getitem eq3 i in
         Ok (fadd p (fadd p (fadd p (fmul p c0 inv_y0) (fmul p c1 inv_y1))
                            (fmul p c2 inv_y2))
                    (fmul p c3 inv_y3)))
      (range 4) in
  Ok (polysOver p cs).

(** An entry [[ys, eq0, eq1, eq2, eq3]] of the list [data] of
    [multi_interp_4]. *)
Definition interp_data : Type := list Z * list Z * list Z * list Z * list Z.

(** One round of the first loop of [multi_interp_4]; the four nodes are
    read first, any of them missing raises the same [IndexError]. *)
Definition multi_interp_4_collect (xy : list Z * list Z)
    (st : list interp_data * list Z) : result (list interp_data * list Z) :=
  let '(xs, ys) := xy in
  let '(data, invtargets) := st in
  let* xs0 := getitem xs 0 in
  let* xs1 := getitem xs 1 in
  let* xs2 := getitem xs 2 in
  let* xs3 := getitem xs 3 in
  let '(eq0, eq1, eq2, eq3, (e0, e1, e2, e3)) := interp_4_eqs xs0 xs1 xs2 xs3 in
  Ok (data ++ [(ys, eq0, eq1, eq2, eq3)], invtargets ++ [e0; e1; e2; e3]).

(** One round of the second loop of [multi_interp_4]: the polynomial
    appended to [o]. *)
Definition multi_interp_4_poly (invalls : list Z) (idata : nat * interp_data)
  : result (list Z) :=
  let '(i, (ys, eq0, eq1, eq2, eq3)) := idata in
  let invallz := take 4 (drop (i * 4) invalls) in
  let* ys0 := getitem ys 0 in
  let* iz0 := getitem invallz 0 in
  let inv_y0 := fmul p ys0 iz0 in
  let* ys1 := getitem ys 1 in
  let* iz1 := getitem invallz 1 in
  let inv_y1 := fmul p ys1 iz1 in
  let* ys2 := getitem ys 2 in
  let* iz2 := getitem invallz 2 in
  let inv_y2 := fmul p ys2 iz2 in
  let* ys3 := getitem ys 3 in
  let* iz3 := getitem invallz 3 in
  let inv_y3 := fmul p ys3 iz3 in
  interp_4_combination eq0 eq1 eq2 eq3 inv_y0 inv_y1 inv_y2 inv_y3.

(** [multi_interp_4(field, xsets, ysets)] *)
Definition multi_interp_4 (xsets ysets : list (list Z)) : result (list (list Z)) :=
  let* (data, invtargets) :=
    for_each (zip xsets ysets) multi_interp_4_collect ([], []) in
  let* invalls := multi_inv p invtargets in
  for_each (zip (seq 0 (length data)) data)
    (fun idata o => let* f := multi_interp_4_poly invalls idata in Ok (o ++ [f]))
    [].

End Utilities.

End PolyUtils.

Export PolyUtils.

(** ** [starks/air.py] *)

Module Air.

(** A step polynomial, an element of [F[X_1..X_w]] of the absent
    [multivariates_over] class, is taken with its evaluation at a state:
    the call [step_polys[i](state)]. *)
Definition StepPoly : Type := list Z -> Z.

(** One round of the loop of [get_computational_trace]:
    [next_state = [step_polys[i](computational_trace[-1]) for i in range(width)]]. *)
Definition trace_round (width : Z) (step_polys : list StepPoly)
    (computational_trace : list (list Z)) : result (list (list Z)) :=
  let* next_state :=
    list_comp (fun i => let* poly := getitem step_polys i in
                        let* state := getlast computational_trace in
                        Ok (poly state))
              (range (Z.to_nat width)) in
  Ok (computational_trace ++ [next_state]).

(** [get_computational_trace(inp, steps, width, step_polys)] *)
Definition get_computational_trace (inp : list Z) (steps width : Z)
    (step_polys : list StepPoly) : result (list (list Z) * list Z) :=
  let* computational_trace :=
    for_each (range (Z.to_nat (steps - 1)))
             (fun _ => trace_round width step_polys) [inp] in
  let* output := getlast computational_trace in
  Ok (computational_trace, output).

(** *** The class [AIR] *)

(** The fields of an object of class [AIR] that its methods read; [polys],
    [C], [d] and [B] are what the methods below compute. *)
Record AIR : Type := {
  air_width : Z;
  air_t : Z;
  air_inp : list Z;
  air_T : Z;
  air_step_polys : list StepPoly;
  air_computational_trace : list (list Z);
  air_output : list Z;
  air_w : Z
}.

(** [AIR.generate_witness(self)] *)
Definition generate_witness (self : AIR) : result (list (list Z)) :=
  list_comp
    (fun j =>
       list_comp (fun i => let* state := getitem (air_computational_trace self) i in
                           getitem state j)
                 (range (Z.to_nat (air_T self))))
    (range (Z.to_nat (air_w self))).

(** [AIR.generate_boundary_constraints(self)]; a constraint is the tuple
    [(i, j, alpha)]. *)
Definition generate_boundary_constraints (self : AIR) : result (list (nat * nat * Z)) :=
  for_each (range (Z.to_nat (air_w self)))
    (fun ind boundary_constraints =>
       let* alpha := getitem (air_inp self) ind in
       Ok (boundary_constraints ++ [(0%nat, ind, alpha)]))
    [].

(** The body of the first loop of [generate_monotone_circuit], at step [i]:
    the list [step_consistencies]. *)
Definition step_consistencies (self : AIR) (W : list (list Z)) (polys : list StepPoly)
    (i : nat) : result (list bool) :=
  let* Xs := list_comp (fun j => let* Wj := getitem W j in getitem Wj i)
                       (range (Z.to_nat (air_width self))) in
  let* Ys := list_comp (fun j => let* Wj := getitem W j in getitem Wj (i + 1))
                       (range (Z.to_nat (air_width self))) in
  let inputs := Xs ++ Ys in
  for_each (range (Z.to_nat (air_width self)))
    (fun j step_consistencies =>
       let* poly := getitem polys j in
       let constraint := poly inputs in
       Ok (step_consistencies ++ [constraint =? 0]))
    [].

(** The body of the second loop of [generate_monotone_circuit], at step
    [i]: the conjunction [temp_bool]. In [temp_bool and output_eval[i][j]]
    the right operand is evaluated only when [temp_bool] holds. *)
Definition step_conjunction (self : AIR) (output_eval : list (list bool)) (i : nat)
  : result bool :=
  let* row := getitem output_eval i in
  let* temp_bool := getlast row in
  for_each (range (Z.to_nat (air_width self - 1)))
    (fun j temp_bool =>
       if temp_bool : bool
       then let* row := getitem output_eval i in getitem row j
       else Ok temp_bool)
    temp_bool.

(** The third loop of [generate_monotone_circuit]:
    [for i in ...: if not output[i]: return False], then [return True]. *)
Fixpoint all_steps_hold (output : list bool) (steps : list nat) : result bool :=
  match steps with
  | [] => Ok true
  | i :: steps' =>
      let* o := getitem output i in
      if negb o then Ok false else all_steps_hold output steps'
  end.

(** [AIR.generate_monotone_circuit(self, polys)]; a constraint polynomial
    is taken with its evaluation at the list [inputs]. *)
Definition generate_monotone_circuit (self : AIR) (polys : list StepPoly)
  : result bool :=
  let* W := generate_witness self in
  let* output_eval :=
    for_each (range (Z.to_nat (air_T self - 1)))
      (fun i output_eval =>
         let* sc := step_consistencies self W polys i in
         Ok (output_eval ++ [sc]))
      [] in
  let* output :=
    for_each (range (Z.to_nat (air_T self - 1)))
      (fun i output =>
         let* temp_bool := step_conjunction self output_eval i in
         Ok (output ++ [temp_bool]))
      [] in
  all_steps_hold output (range (Z.to_nat (air_T self - 1))).

End Air.

(** ** [starks/stark.py] *)

Module Stark.

Definition bytes : Type := list byte.

(** A Merkle tree as [merkelize] returns it (a flat list of nodes, the root
    at index 1) and a branch as [mk_branch] returns it. *)
Definition mtree : Type := list bytes.
Definition branch : Type := list bytes.

(** [modulus = 2**256 - 2**32 * 351 + 1] *)
Definition modulus : Z := 2 ^ 256 - 2 ^ 32 * 351 + 1.

(** [spot_check_security_factor = 80] *)
Definition spot_check_security_factor : Z := 80.

(** A state as the code passes it around: "either a single int or a list
    of integers of length dims". *)
Inductive pyval : Type :=
| PInt (z : Z)
| PList (l : list Z).

(** [step_fn(f, state, poly_constants)] *)
Definition StepFn : Type := pyval -> list Z -> pyval.

(** The values [mk_proof] and [verify_proof] pass to the constructor of
    [Computation]. *)
Inductive pyobj : Type :=
| ObjInt (z : Z)
| ObjList (l : list Z)
| ObjTable (t : list (list Z))
| ObjFn (fn : StepFn).

(** The objects of class [Computation]. *)
Record Computation : Type := {
  comp_dims : Z;
  comp_inp : list Z;
  comp_steps : Z;
  comp_constants : list (list Z);
  comp_step_fn : StepFn;
  comp_computational_trace : list (list Z);
  comp_output : list Z
}.

(** The objects of class [StarkParams]. *)
Record StarkParams : Type := {
  params_modulus : Z;
  params_extension_factor : Z;
  params_precision : Z;
  params_G2 : Z;
  params_G1 : Z;
  params_xs : list Z;
  params_last_step_position : Z
}.

(** The functions [stark.py] imports from modules that are not among the
    sources, and the methods of [f = PrimeField(modulus)], whose class
    [poly_utils.py] does not define: they are parameters of the
    development. [fft_states] is [fft] on a sequence of states, [fft_ints]
    on a sequence of integers; [verify_branch_int] is [verify_branch] with
    [output_as_int=True]. *)
Record Imports (FriProof : Type) : Type := {
  blake : bytes -> bytes;
  merkelize : list bytes -> mtree;
  mk_branch : mtree -> Z -> branch;
  verify_branch : bytes -> Z -> branch -> result bytes;
  verify_branch_int : bytes -> Z -> branch -> result Z;
  fft_states : list (list Z) -> Z -> Z -> bool -> Z -> result (list (list Z));
  fft_ints : list Z -> Z -> Z -> bool -> result (list Z);
  prove_low_degree : list (list Z) -> Z -> Z -> Z -> Z -> result FriProof;
  verify_low_degree_proof : bytes -> Z -> FriProof -> Z -> Z -> Z -> result bool;
  get_power_cycle : Z -> Z -> list Z;
  get_pseudorandom_indices : bytes -> Z -> Z -> Z -> list Z;
  is_a_power_of_2 : Z -> bool;
  f_exp : Z -> Z -> Z;
  f_div : Z -> Z -> result Z;
  f_eval_poly_at : list Z -> Z -> Z;
  f_mul_polys : list Z -> list Z -> list Z;
  f_lagrange_interp_2 : list Z -> list (list Z) -> result (list Z)
}.

Arguments blake {FriProof} _ _.
Arguments merkelize {FriProof} _ _.
Arguments mk_branch {FriProof} _ _ _.
Arguments verify_branch {FriProof} _ _ _ _.
Arguments verify_branch_int {FriProof} _ _ _ _.
Arguments fft_states {FriProof} _ _ _ _ _ _.
Arguments fft_ints {FriProof} _ _ _ _ _.
Arguments prove_low_degree {FriProof} _ _ _ _ _ _.
Arguments verify_low_degree_proof {FriProof} _ _ _ _ _ _ _.
Arguments get_power_cycle {FriProof} _ _ _.
Arguments get_pseudorandom_indices {FriProof} _ _ _ _ _.
Arguments is_a_power_of_2 {FriProof} _ _.
Arguments f_exp {FriProof} _ _ _.
Arguments f_div {FriProof} _ _ _.
Arguments f_eval_poly_at {FriProof} _ _ _.
Arguments f_mul_polys {FriProof} _ _ _.
Arguments f_lagrange_interp_2 {FriProof} _ _ _.

Section Stark.

Context {FriProof : Type} (E : Imports FriProof).

(** The proof object [(m_root, l_root, branches, fri_proof)]. *)
Definition Proof : Type := bytes * bytes * list branch * FriProof.

(** One round of the loop of [get_computational_trace], at step [i]. *)
Definition trace_round (constants : list (list Z)) (step_fn : StepFn) (i : nat)
    (computational_trace : list (list Z)) : result (list (list Z)) :=
  let deg := length constants in
  let* poly_constants :=
    list_comp (fun d => let* cd := getitem constants d in getitem cd i) (range deg) in
  let* state := getlast computational_trace in
  let next_state :=
    match step_fn (PList state) poly_constants with
    | PInt z => [z]
    | PList l => l
    end in
  Ok (computational_trace ++ [next_state]).

(** [get_computational_trace(inp, steps, constants, step_fn)] *)
Definition get_computational_trace (inp : list Z) (steps : Z)
    (constants : list (list Z)) (step_fn : StepFn)
  : result (list (list Z) * list Z) :=
  let* computational_trace :=
    for_each (range (Z.to_nat (steps - 1))) (trace_round constants step_fn) [inp] in
  let* output := getlast computational_trace in
  Ok (computational_trace, output).

(** The body of [Computation.__init__(self, dims, inp, steps, constants,
    step_fn)], on arguments of the kinds the class documents. *)
Definition Computation_init (dims : Z) (inp : pyval) (steps : Z)
    (constants : list (list Z)) (step_fn : StepFn) : result Computation :=
  let inp := match inp with PInt z => [z] | PList l => l end in
  let* tr := get_computational_trace inp steps constants step_fn in
  Ok {| comp_dims := dims; comp_inp := inp; comp_steps := steps;
        comp_constants := constants; comp_step_fn := step_fn;
        comp_computational_trace := fst tr; comp_output := snd tr |}.

(** The positional arguments of a call of the constructor: the four that
    [mk_proof] and [verify_proof] pass, whatever their kinds, or the five
    of the signature, of the kinds the class documents. *)
Inductive Computation_args : Type :=
| Args4 (a1 a2 a3 a4 : pyobj)
| Args5 (dims : Z) (inp : pyval) (steps : Z) (constants : list (list Z))
        (step_fn : StepFn).

(** The call [Computation(args...)] with positional arguments only. The
    constructor has five parameters after [self], none with a default:
    with four arguments the parameter [step_fn] is left without a value,
    which is a [TypeError], raised before the body runs whatever the
    arguments are; with five arguments the body runs. *)
Definition Computation_new (args : Computation_args) : result Computation :=
  match args with
  | Args4 _ _ _ _ => Raise TypeError
  | Args5 dims inp steps constants step_fn =>
      Computation_init dims inp steps constants step_fn
  end.

(** [StarkParams(comp, modulus, extension_factor)] *)
Definition StarkParams_new (comp : Computation) (modulus' extension_factor : Z)
  : result StarkParams :=
  let precision := comp_steps comp * extension_factor in
  let* e := floordiv (modulus' - 1) precision in
  let G2 := f_exp E 7 e in
  let G1 := f_exp E G2 extension_factor in
  let xs := get_power_cycle E G2 modulus' in
  let* last_step_position := index xs ((comp_steps comp - 1) * extension_factor) in
  Ok {| params_modulus := modulus'; params_extension_factor := extension_factor;
        params_precision := precision; params_G2 := G2; params_G1 := G1;
        params_xs := xs; params_last_step_position := last_step_position |}.

(** One round of the first loop of [construct_constraint_polynomial]; the
    state is [constants_extensions] and the variable [skips2], unbound
    before the first round. *)
Definition constants_extension_round (comp : Computation) (params : StarkParams)
    (d : nat) (st : list (list (list Z)) * option Z)
  : result (list (list (list Z)) * option Z) :=
  let* cd := getitem (comp_constants comp) d in
  let deg_constants := map (fun constant => [constant]) cd in
  let* skips2 := floordiv (comp_steps comp) (Z.of_nat (length deg_constants)) in
  let* constants_mini_polynomial :=
    fft_states E deg_constants modulus (f_exp E (params_G1 params) skips2) true 1 in
  let* constants_mini_extension :=
    fft_states E constants_mini_polynomial modulus
               (f_exp E (params_G2 params) skips2) false 1 in
  let* q := floordiv (params_precision params) skips2 in
  assert (Z.of_nat (length constants_mini_extension) =? q) ;;
  Ok (fst st ++ [constants_mini_extension], Some skips2).

(** [step_p[dim] % params.modulus] for [step_p] an entry of [step_p_evals]:
    when [comp.dims == 1] the value [val] the step function returned was
    wrapped into [[val]]; otherwise it is indexed as it is. *)
Definition step_p_entry (comp : Computation) (params : StarkParams)
    (val : pyval) (dim : nat) : result Z :=
  let* entry :=
    (if comp_dims comp =? 1
     then getitem [val] dim
     else match val with
          | PList l => let* z := getitem l dim in Ok (PInt z)
          | PInt _ => Raise TypeError
          end) in
  match entry with
  | PInt z => pymod z (params_modulus params)
  | PList _ => Raise TypeError
  end.

(** [construct_constraint_polynomial(comp, params, p_evaluations)] *)
Definition construct_constraint_polynomial (comp : Computation)
    (params : StarkParams) (p_evaluations : list (list Z))
  : result (list (list Z)) :=
  let deg := length (comp_constants comp) in
  let* st := for_each (range deg) (constants_extension_round comp params) ([], None) in
  let constants_extensions := fst st in
  assert (length constants_extensions =? deg)%nat ;;
  for_each constants_extensions
    (fun extension _ =>
       match snd st with
       | Some skips2 =>
           let* q := floordiv (params_precision params) skips2 in
           assert (Z.of_nat (length extension) =? q)
       | None => Raise NameError
       end) tt ;;
  let* p_next_step_evals :=
    list_comp (fun i => let* j := pymod (Z.of_nat i + params_extension_factor params)
                                        (params_precision params) in
                        index p_evaluations j)
              (range (Z.to_nat (params_precision params))) in
  let* step_p_evals :=
    list_comp (fun i =>
                 let* state := getitem p_evaluations i in
                 let* ks :=
                   list_comp (fun d => let* ext := getitem constants_extensions d in
                                       let* ei := getitem ext i in
                                       getitem ei 0)
                             (range deg) in
                 Ok (comp_step_fn comp (PList state) ks))
              (range (Z.to_nat (params_precision params))) in
  list_comp (fun pq : list Z * pyval =>
               let '(p_next, step_p) := pq in
               list_comp (fun dim => let* a := getitem p_next dim in
                                     let* b := step_p_entry comp params step_p dim in
                                     Ok (a - b))
                         (range (Z.to_nat (comp_dims comp))))
            (zip p_next_step_evals step_p_evals).

(** The Fiat-Shamir challenge [int.from_bytes(blake(root + tag), 'big')]. *)
Definition challenge (root : bytes) (tag : byte) : Z :=
  int_from_bytes (blake E (root ++ [tag])).

(** The four challenges [k1, k2, k3, k4], as
    [compute_pseudorandom_linear_combination] derives them from [mtree[1]]
    and [verify_proof] from [m_root]. *)
Definition challenges (root : bytes) : Z * Z * Z * Z :=
  (challenge root x01, challenge root x02, challenge root x03, challenge root x04).


(** [compute_merkle_spot_checks(mtree, l_mtree, comp, params)] *)
Definition compute_merkle_spot_checks (tree l_mtree : mtree) (comp : Computation)
    (params : StarkParams) : result (list branch) :=
  let samples := spot_check_security_factor in
  let* l_root := getitem l_mtree 1 in
  let positions :=
    get_pseudorandom_indices E l_root (params_precision params) samples
                             (params_extension_factor params) in
  for_each positions
    (fun pos branches =>
       let branches := branches ++ [mk_branch E tree pos] in
       let* pos' := pymod (pos + params_extension_factor params)
                          (params_precision params) in
       let branches := branches ++ [mk_branch E tree pos'] in
       let branches := branches ++ [mk_branch E l_mtree pos] in
       Ok branches)
    [].

(** The part of [mk_proof] up to the construction of [comp] and [params];
    [pipeline] stands for the statements that follow (the evaluations, the
    Merkle trees, the spot checks and the FRI proof). *)
Definition mk_proof (pipeline : Computation -> StarkParams -> result Proof)
    (inp : pyobj) (steps : Z) (constants : list (list Z)) (step_fn : StepFn)
    (constraint_degree dims extension_factor : Z) : result Proof :=
  let* q := floordiv (2 ^ 32) extension_factor in
  assert (steps <=? q) ;;
  assert (is_a_power_of_2 E steps) ;;
  for_each constants
    (fun poly_constants _ => assert (Z.of_nat (length poly_constants) <=? steps)) tt ;;
  let* comp :=
    Computation_new (Args4 inp (ObjInt steps) (ObjTable constants) (ObjFn step_fn)) in
  let* params := StarkParams_new comp modulus extension_factor in
  pipeline comp params.

(** [verify_proof_at_position(comp, params, proof, ks, i, pos,
    constants_polynomials)]; it returns [None]. *)
Definition verify_proof_at_position (comp : Computation) (params : StarkParams)
    (proof : Proof) (ks : Z * Z * Z * Z) (i : nat) (pos : Z)
    (constants_polynomials : list (list Z)) : result unit :=
  let '(k1, k2, k3, k4) := ks in
  let '(m_root, l_root, branches, fri_proof) := proof in
  let x := f_exp E (params_G2 params) pos in
  let x_to_the_steps := f_exp E x (comp_steps comp) in
  let* branch1 := getitem branches (i * 3) in
  let* mbranch1 := verify_branch E m_root pos branch1 in
  let* pos' := pymod (pos + params_extension_factor params) (params_precision params) in
  let* branch2 := getitem branches (i * 3 + 1) in
  let* mbranch2 := verify_branch E m_root pos' branch2 in
  let* branch3 := getitem branches (i * 3 + 2) in
  let* l_of_x := verify_branch_int E l_root pos branch3 in
  let p_of_x := int_from_bytes (take 32 mbranch1) in
  let p_of_g1x := int_from_bytes (take 32 mbranch2) in
  let d_of_x := int_from_bytes (take 32 (drop 32 mbranch1)) in
  let b_of_x := int_from_bytes (drop 64 mbranch1) in
  let* zvalue := f_div E (f_exp E x (comp_steps comp) - 1)
                         (x - params_last_step_position params) in
  let k_of_xs :=
    map (fun constants_mini_polynomial => f_eval_poly_at E constants_mini_polynomial x)
        constants_polynomials in
  let* step :=
    match comp_step_fn comp (PInt p_of_x) k_of_xs with
    | PInt z => Ok z
    | PList _ => Raise TypeError
    end in
  assert ((p_of_g1x - step - zvalue * d_of_x) mod modulus =? 0) ;;
  let* interpolant :=
    f_lagrange_interp_2 E [1; params_last_step_position params]
                        [comp_inp comp; comp_output comp] in
  let zeropoly2 := f_mul_polys E [-1; 1] [- params_last_step_position params; 1] in
  assert ((p_of_x - b_of_x * f_eval_poly_at E zeropoly2 x
           - f_eval_poly_at E interpolant x) mod modulus =? 0) ;;
  assert ((l_of_x - d_of_x - k1 * p_of_x - k2 * p_of_x * x_to_the_steps
           - k3 * b_of_x - k4 * b_of_x * x_to_the_steps) mod modulus =? 0).

(** One round of the loop of [verify_proof] over the constants. *)
Definition verify_constants_round (params : StarkParams) (constants : list (list Z))
    (d : nat) (st : list (list Z) * list (list Z))
  : result (list (list Z) * list (list Z)) :=
  let* deg_constants := getitem constants d in
  let* constants_mini_polynomial :=
    fft_ints E deg_constants modulus
             (f_exp E (params_G2 params) (params_extension_factor params)) true in
  let* constants_mini_extension :=
    fft_ints E constants_mini_polynomial modulus (params_G2 params) false in
  assert (Z.of_nat (length constants_mini_extension) =? params_precision params) ;;
  Ok (fst st ++ [constants_mini_polynomial], snd st ++ [constants_mini_extension]).

(** [enumerate(l)] *)
Definition enumerate {A : Type} (l : list A) : list (nat * A) :=
  zip (seq 0 (length l)) l.

(** [verify_proof(inp, steps, constants, output, proof, step_fn,
    constraint_degree, extension_factor)]. The argument [output] is not
    used by the body. *)
Definition verify_proof (inp : pyobj) (steps : Z) (constants : list (list Z))
    (output : pyobj) (proof : Proof) (step_fn : StepFn)
    (constraint_degree extension_factor : Z) : result bool :=
  let* q := floordiv (2 ^ 32) extension_factor in
  assert (steps <=? q) ;;
  let '(m_root, l_root, branches, fri_proof) := proof in
  let* comp :=
    Computation_new (Args4 inp (ObjInt steps) (ObjTable constants) (ObjFn step_fn)) in
  let* params := StarkParams_new comp modulus extension_factor in
  assert (is_a_power_of_2 E steps) ;;
  let* constants0 := getitem constants 0 in
  assert (Z.of_nat (length constants0) <=? steps) ;;
  let deg := length constants in
  let* st := for_each (range deg) (verify_constants_round params constants) ([], []) in
  let constants_polynomials := fst st in
  let* low_degree :=
    verify_low_degree_proof E l_root (params_G2 params) fri_proof
                            (steps * constraint_degree) modulus extension_factor in
  assert low_degree ;;
  let ks := challenges m_root in
  let samples := spot_check_security_factor in
  let positions :=
    get_pseudorandom_indices E l_root (params_precision params) samples
                             (params_extension_factor params) in
  for_each (enumerate positions)
    (fun ip _ => verify_proof_at_position comp params proof ks (fst ip) (snd ip)
                                          constants_polynomials) tt ;;
  Ok true.

End Stark.
End Stark.

(** ** Concrete instances

    A small computation and stand-ins for the imported functions, used to
    state closed instances of the properties below. *)

Module Sample.

Import Stark.

(** The step polynomials [X_2] and [X_1 + X_2] of the Fibonacci
    computation, as evaluation functions. *)
Definition fibonacci : list Air.StepPoly :=
  [fun state => nth 1 state 0; fun state => nth 0 state 0 + nth 1 state 0].

(** A primitive fourth root of unity modulo [modulus]:
    [f.exp(7, (modulus - 1) // 4)]. *)
Definition g4 : Z := Zpow_mod 7 ((modulus - 1) / 4) modulus.

(** The MiMC-like step [x -> x**3] on a one-dimensional state. *)
Definition cube : StepFn :=
  fun state _ =>
    match state with
    | PInt x => PInt (x ^ 3 mod modulus)
    | PList [x] => PInt (x ^ 3 mod modulus)
    | PList l => PList l
    end.

(** [Computation(1, 2, 2, [], cube)]: two steps from the input [2]. *)
Definition comp : Computation :=
  {| comp_dims := 1; comp_inp := [2]; comp_steps := 2; comp_constants := [];
     comp_step_fn := cube; comp_computational_trace := [[2]; [8]];
     comp_output := [8] |}.

(** [StarkParams(comp, modulus, 2)]: an evaluation domain of four points. *)
Definition params : StarkParams :=
  {| params_modulus := modulus; params_extension_factor := 2; params_precision := 4;
     params_G2 := g4; params_G1 := modulus - 1;
     params_xs := [1; g4; modulus - 1; modulus - g4];
     params_last_step_position := modulus - 1 |}.

(** The low-degree extension of the trace [[2], [8]]: the values of
    [P(x) = 5 - 3x] at [1, g4, -1, -g4]. *)
Definition p_evaluations : list (list Z) :=
  [[2]; [(5 - 3 * g4) mod modulus]; [8]; [(5 + 3 * g4) mod modulus]].

(** A digest of 32 bytes [0xff]. *)
Definition digest_ff : bytes := repeat xff 32.

(** The product of two polynomials modulo [modulus], coefficients in
    ascending degree. *)
Fixpoint mul_polys (a b : list Z) : list Z :=
  match a with
  | [] => []
  | a0 :: a' =>
      let low := map (fun c => (a0 * c) mod modulus) b in
      let high := 0 :: mul_polys a' b in
      map (fun i => (nth i low 0 + nth i high 0) mod modulus)
          (seq 0 (Nat.max (length low) (length high)))
  end.

(** [n.to_bytes(len, 'big')] *)
Fixpoint to_bytes_little (n : Z) (len : nat) : bytes :=
  match len with
  | O => []
  | S len' => default x00 (Byte.of_N (Z.to_N (n mod 256)))
              :: to_bytes_little (n / 256) len'
  end.

Definition to_bytes (n : Z) (len : nat) : bytes := rev (to_bytes_little n len).

(** Stand-ins for the imported functions. The Merkle functions keep the
    leaf as the whole branch and check nothing; the hash is constant; the
    transforms are the identity; the field methods work modulo [modulus],
    the interpolation on the single dimension of the states. *)
Definition imports : Imports unit :=
  {| blake := fun _ => digest_ff;
     merkelize := fun leaves => leaves;
     mk_branch := fun tree pos => match tree !! Z.to_nat pos with
                                  | Some leaf => [leaf]
                                  | None => []
                                  end;
     verify_branch := fun _ _ br => match br with
                                    | leaf :: _ => Ok leaf
                                    | [] => Raise AssertionError
                                    end;
     verify_branch_int := fun _ _ br => match br with
                                        | leaf :: _ => Ok (int_from_bytes leaf)
                                        | [] => Raise AssertionError
                                        end;
     fft_states := fun vals _ _ _ _ => Ok vals;
     fft_ints := fun vals _ _ _ => Ok vals;
     prove_low_degree := fun _ _ _ _ _ => Ok tt;
     verify_low_degree_proof := fun _ _ _ _ _ _ => Ok true;
     get_power_cycle := fun _ _ => [1; g4; modulus - 1; modulus - g4];
     get_pseudorandom_indices :=
       fun _ _ count _ => map Z.of_nat (seq 1 (Z.to_nat count));
     is_a_power_of_2 := fun n => (0 <? n) && (Z.land n (n - 1) =? 0);
     f_exp := fun x n => Zpow_mod x n modulus;
     f_div := fun a b => Ok ((a * Z.invmod b modulus) mod modulus);
     f_eval_poly_at := poly_eval modulus;
     f_mul_polys := mul_polys;
     f_lagrange_interp_2 :=
       fun xs ys => lagrange_interp_2 modulus (map (fun x => x mod modulus) xs)
                                      (map (fun y => nth 0 y 0 mod modulus) ys) |}.

(** A tree of three one-byte nodes; its root, at index 1, is [[x02]]. *)
Definition tree : mtree := [[x01]; [x02]; [x03]].

(** A leaf of the main tree holding [P(x) = 0], [D(x) = 0], [B(x) = 0], and
    one whose first 32 bytes hold [P(g1 x) = 1]. *)
Definition leaf_zero : bytes := repeat x00 96.
Definition leaf_one : bytes := repeat x00 31 ++ [x01] ++ repeat x00 64.

(** A proof object whose first opening breaks the transition identity. *)
Definition bad_proof : @Proof unit :=
  (digest_ff, digest_ff, [[leaf_zero]; [leaf_one]; [repeat x00 32]], tt).

(** The openings of an honest prover at position [1], where [x = g4]:
    [P(x)], [P(g1 x)], [D(x) = (P(g1 x) - P(x)**3) / Z(x)], [B(x) = 0] and
    the combination [L(x)]. *)
Definition p_of_x : Z := (5 - 3 * g4) mod modulus.
Definition p_of_g1x : Z := (5 + 3 * g4) mod modulus.
Definition z_of_x : Z := ((g4 * g4 - 1) * Z.invmod (g4 + 1) modulus) mod modulus.
Definition d_of_x : Z :=
  ((p_of_g1x - p_of_x ^ 3) * Z.invmod z_of_x modulus) mod modulus.
Definition k : Z := 2 ^ 256 - 1.
Definition l_of_x : Z :=
  (d_of_x + p_of_x * k + p_of_x * k * (g4 * g4 mod modulus)) mod modulus.

Definition good_proof : @Proof unit :=
  (digest_ff, digest_ff,
   [[to_bytes p_of_x 32 ++ to_bytes d_of_x 32 ++ to_bytes 0 32];
    [to_bytes p_of_g1x 32 ++ to_bytes 0 32 ++ to_bytes 0 32];
    [to_bytes l_of_x 32]],
   tt).

(** The fields of [AIR(field, 2, [0, 1], 3, fibonacci)] that the methods
    read: seven states of the Fibonacci computation. *)
Definition fibonacci_air : Air.AIR :=
  {| Air.air_width := 2; Air.air_t := 3; Air.air_inp := [0; 1]; Air.air_T := 7;
     Air.air_step_polys := Sample.fibonacci;
     Air.air_computational_trace :=
       [[0; 1]; [1; 1]; [1; 2]; [2; 3]; [3; 5]; [5; 8]; [8; 13]];
     Air.air_output := [8; 13]; Air.air_w := 2 |}.

(** The constraints [Y_1 - X_2] and [Y_2 - (X_1 + X_2)] of the Fibonacci
    computation, as evaluation functions at [X_1, X_2, Y_1, Y_2]. *)
Definition fibonacci_constraints : list Air.StepPoly :=
  [fun inputs => nth 2 inputs 0 - nth 1 inputs 0;
   fun inputs => nth 3 inputs 0 - (nth 0 inputs 0 + nth 1 inputs 0)].

End Sample.

(** ** Specification-level functions

    Closed forms the loops of the code are compared with. *)

Module Spec.
Section Spec.

Variable p : Z.

(** The factor [multi_inv] multiplies in for an entry: [1] for a zero. *)
Definition mul_value (v : Z) : Z := if v =? 0 then 1 else v.

(** [a, a*v0, a*v0*v1, ...]: the list [partials] of [multi_inv]. *)
Fixpoint running_products (a : Z) (vs : list Z) : list Z :=
  a :: match vs with
       | [] => []
       | v :: vs' => running_products (fmul p a (mul_value v)) vs'
       end.

(** The coefficients of [c + (X - a) * g], for [g] in ascending degree:
    [c - g0*a, g0 - g1*a, ..., g(n-1) - gn*a, gn]. *)
Fixpoint mul_linear_carry (c a : Z) (g : list Z) : list Z :=
  match g with
  | [] => [c]
  | g0 :: g' => fsub p c (fmul p g0 a) :: mul_linear_carry g0 a g'
  end.

(** The coefficients of [(X - a) * g]. *)
Definition mul_linear (a : Z) (g : list Z) : list Z :=
  mul_linear_carry (felt p 0) a g.

(** The coefficients of the product of the [X - r], [r] in [roots]. *)
Definition roots_poly (roots : list Z) : list Z :=
  fold_left (fun g r => mul_linear r g) roots [felt p 1].

(** The product of the [t - r], [r] in [roots], as an integer. *)
Definition prod_diff (t : Z) (roots : list Z) : Z :=
  fold_right (fun r acc => (t - r) * acc) 1 roots.

(** What one round of the inner loop of [lagrange_interp] does to [b]. *)
Definition add_scaled (yi yslice : Z) (b num : list Z) : list Z :=
  zip_with (fun bj nj => if truthy nj && truthy yi
                         then fadd p bj (fmul p nj yslice) else bj) b num.

(** The numerator polynomial of [lagrange_interp] for the node at index
    [i]: the product of the [X - x] over the other nodes. *)
Definition lagrange_num (xs : list Z) (i : nat) : list Z :=
  roots_poly (delete i xs).

(** The denominator of [lagrange_interp] for the node at index [i]. *)
Definition lagrange_denom (xs : list Z) (i : nat) : Z :=
  poly_eval p (lagrange_num xs i) (default 0 (xs !! i)).

End Spec.

(** The states [w, next i w, next (i+1) (next i w), ...], [n + 1] of them:
    the trace of [n] steps from [w], the first step being step [i]. *)
Fixpoint orbit {A : Type} (next : nat -> A -> A) (i : nat) (w : A) (n : nat)
  : list A :=
  w :: match n with
       | O => []
       | S n' => orbit next (S i) (next i w) n'
       end.

(** The state after a step of [air.get_computational_trace]. *)
Definition air_next (step_polys : list Air.StepPoly) (w : list Z) : list Z :=
  map (fun poly : Air.StepPoly => poly w) step_polys.

(** The constants [stark.get_computational_trace] passes at step [i]. *)
Definition constants_at (constants : list (list Z)) (i : nat) : list Z :=
  map (fun cd => default 0 (cd !! i)) constants.

(** What [verify_proof_at_position] checks at a sampled position: the three
    branches [branches[i * 3]], [branches[i * 3 + 1]], [branches[i * 3 + 2]]
    are there and verify against the roots, the divisions and the step
    function give values, and the transition, boundary and
    linear-combination identities hold modulo [modulus]. *)
Definition position_check_holds {FriProof : Type} (E : Stark.Imports FriProof)
    (comp : Stark.Computation) (params : Stark.StarkParams)
    (proof : @Stark.Proof FriProof) (ks : Z * Z * Z * Z) (i : nat) (pos : Z)
    (constants_polynomials : list (list Z)) : Prop :=
  let '(k1, k2, k3, k4) := ks in
  let '(m_root, l_root, branches, fri_proof) := proof in
  exists branch1 branch2 branch3 mbranch1 mbranch2 pos' l_of_x zvalue step
         interpolant,
    let x := Stark.f_exp E (Stark.params_G2 params) pos in
    let x_to_the_steps := Stark.f_exp E x (Stark.comp_steps comp) in
    let p_of_x := int_from_bytes (take 32 mbranch1) in
    let p_of_g1x := int_from_bytes (take 32 mbranch2) in
    let d_of_x := int_from_bytes (take 32 (drop 32 mbranch1)) in
    let b_of_x := int_from_bytes (drop 64 mbranch1) in
    let k_of_xs :=
      map (fun c => Stark.f_eval_poly_at E c x) constants_polynomials in
    let zeropoly2 :=
      Stark.f_mul_polys E [-1; 1] [- Stark.params_last_step_position params; 1] in
    branches !! (i * 3)%nat = Some branch1
    /\ Stark.verify_branch E m_root pos branch1 = Ok mbranch1
    /\ pymod (pos + Stark.params_extension_factor params)
             (Stark.params_precision params) = Ok pos'
    /\ branches !! (i * 3 + 1)%nat = Some branch2
    /\ Stark.verify_branch E m_root pos' branch2 = Ok mbranch2
    /\ branches !! (i * 3 + 2)%nat = Some branch3
    /\ Stark.verify_branch_int E l_root pos branch3 = Ok l_of_x
    /\ Stark.f_div E (x_to_the_steps - 1)
                   (x - Stark.params_last_step_position params) = Ok zvalue
    /\ Stark.comp_step_fn comp (Stark.PInt p_of_x) k_of_xs = Stark.PInt step
    /\ Stark.f_lagrange_interp_2 E [1; Stark.params_last_step_position params]
         [Stark.comp_inp comp; Stark.comp_output comp] = Ok interpolant
    /\ (p_of_g1x - step - zvalue * d_of_x) mod Stark.modulus = 0
    /\ (p_of_x - b_of_x * Stark.f_eval_poly_at E zeropoly2 x
        - Stark.f_eval_poly_at E interpolant x) mod Stark.modulus = 0
    /\ (l_of_x - d_of_x - k1 * p_of_x - k2 * p_of_x * x_to_the_steps
        - k3 * b_of_x - k4 * b_of_x * x_to_the_steps) mod Stark.modulus = 0.




(** The state after step [i] of [stark.get_computational_trace]. *)
Definition stark_next (constants : list (list Z)) (step_fn : Stark.StepFn)
    (i : nat) (w : list Z) : list Z :=
  match step_fn (Stark.PList w) (constants_at constants i) with
  | Stark.PInt z => [z]
  | Stark.PList l => l
  end.

(** The transition constraints hold between two consecutive states. *)
Definition transition_holds (width : nat) (polys : list Air.StepPoly)
    (x y : list Z) : bool :=
  forallb (fun j => match polys !! j with
                    | Some poly => poly (x ++ y) =? 0
                    | None => false
                    end)
          (seq 0 width).

(** The shape of the fields of an [AIR] object: the trace has [T] states
    of [w] entries each, and [width] and [w] are the same. *)
Definition air_well_formed (self : Air.AIR) : Prop :=
  Z.of_nat (length (Air.air_computational_trace self)) = Air.air_T self
  /\ Forall (fun state => Z.of_nat (length state) = Air.air_w self)
            (Air.air_computational_trace self)
  /\ Air.air_width self = Air.air_w self.

(** The entry [j] of the state [i] of a trace, [0] when there is none. *)
Definition trace_entry (trace : list (list Z)) (i j : nat) : Z :=
  default 0 (trace !! i ≫= (.!! j)).

Section Batch.

Variable p : Z.

(** The entry of [data] that the first loop of [multi_interp_4] appends for
    a pair of a node set and a value set. *)
Definition interp_4_data (xy : list Z * list Z) : interp_data :=
  let xs := fst xy in
  let '(eq0, eq1, eq2, eq3, _) :=
    interp_4_eqs p (default 0 (xs !! 0%nat)) (default 0 (xs !! 1%nat))
                   (default 0 (xs !! 2%nat)) (default 0 (xs !! 3%nat)) in
  (snd xy, eq0, eq1, eq2, eq3).

(** The four values that the first loop of [multi_interp_4] appends to
    [invtargets] for a node set. *)
Definition interp_4_targets (xs : list Z) : list Z :=
  let '(_, (e0, e1, e2, e3)) :=
    interp_4_eqs p (default 0 (xs !! 0%nat)) (default 0 (xs !! 1%nat))
                   (default 0 (xs !! 2%nat)) (default 0 (xs !! 3%nat)) in
  [e0; e1; e2; e3].

End Batch.

End Spec.

Export Spec.

(** * Properties *)

(** ** The error monad *)

Lemma assert_Ok_inv (c : bool) (u : unit) : assert c = Ok u -> c = true.
Proof. destruct c; [reflexivity | discriminate]. Qed.

Lemma getitem_Ok_inv {A : Type} (l : list A) (i : nat) (a : A) :
  getitem l i = Ok a -> l !! i = Some a.
Proof. unfold getitem. destruct (l !! i); [now intros [= ->] | discriminate]. Qed.

Lemma getitem_Some {A : Type} (l : list A) (i : nat) (a : A) :
  l !! i = Some a -> getitem l i = Ok a.
Proof. unfold getitem. now intros ->. Qed.

Lemma getlast_snoc {A : Type} (l : list A) (a : A) : getlast (l ++ [a]) = Ok a.
Proof. unfold getlast. now rewrite last_snoc. Qed.

Lemma range_down_S (n : nat) : range_down (S n) = S n :: range_down n.
Proof. unfold range_down. rewrite seq_S, rev_app_distr. reflexivity. Qed.

(** ** Arithmetic modulo a prime *)

(** Congruence modulo [p] is compatible with the ring operations of [Z]. *)
#[global] Instance eqm_equivalence (p : Z) : Equivalence (eqm p) := eqm_setoid p.
#[global] Instance eqm_add_proper (p : Z) :
  Proper (eqm p ==> eqm p ==> eqm p) Z.add := Zplus_eqm p.
#[global] Instance eqm_sub_proper (p : Z) :
  Proper (eqm p ==> eqm p ==> eqm p) Z.sub := Zminus_eqm p.
#[global] Instance eqm_mul_proper (p : Z) :
  Proper (eqm p ==> eqm p ==> eqm p) Z.mul := Zmult_eqm p.
#[global] Instance eqm_opp_proper (p : Z) :
  Proper (eqm p ==> eqm p) Z.opp := Zopp_eqm p.

Lemma mod_eqm (p a : Z) : eqm p (a mod p) a.
Proof. apply Zmod_eqm. Qed.

(** Closes a congruence whose two sides are equal as integer polynomials. *)
Ltac eqm_ring := unfold eqm; f_equal; ring.

Section FieldFacts.

Variable p : Z.
Hypothesis p_prime : Z.prime p.

Local Notation "a == b" := (eqm p a b) (at level 70).

Lemma p_gt_1 : 1 < p.
Proof. destruct p_prime; assumption. Qed.

Lemma eqm_felts (a b : Z) : is_felt p a -> is_felt p b -> a == b -> a = b.
Proof.
  unfold is_felt, eqm. intros Ha Hb H.
  rewrite !Z.mod_small in H by lia. exact H.
Qed.

Lemma fadd_eqm (a b : Z) : fadd p a b == a + b.
Proof. apply Zmod_eqm. Qed.

Lemma fsub_eqm (a b : Z) : fsub p a b == a - b.
Proof. apply Zmod_eqm. Qed.

Lemma fmul_eqm (a b : Z) : fmul p a b == a * b.
Proof. apply Zmod_eqm. Qed.

Lemma fneg_eqm (a : Z) : fneg p a == - a.
Proof. apply Zmod_eqm. Qed.

Lemma felt_eqm (a : Z) : felt p a == a.
Proof. apply Zmod_eqm. Qed.

Lemma mod_is_felt (a : Z) : is_felt p (a mod p).
Proof. pose proof p_gt_1. apply Z.mod_pos_bound. lia. Qed.

Lemma felt_1 : felt p 1 = 1.
Proof. pose proof p_gt_1. apply Z.mod_small. lia. Qed.

Lemma eqm_1_mod (a : Z) : a == 1 -> a mod p = 1.
Proof. pose proof p_gt_1. unfold eqm. intros ->. apply Z.mod_small. lia. Qed.

(** A non-zero field element is a unit. *)
Lemma felt_coprime (a : Z) : is_felt p a -> a <> 0 -> Z.gcd a p = 1.
Proof.
  intros Ha Hnz. rewrite Z.gcd_comm.
  apply Z.coprime_prime_small; [exact p_prime | unfold is_felt in Ha; lia].
Qed.

Lemma fmul_coprime (a b : Z) :
  Z.gcd a p = 1 -> Z.gcd b p = 1 -> Z.gcd (fmul p a b) p = 1.
Proof.
  intros Ha Hb. unfold fmul. rewrite Z.gcd_mod_l.
  apply Z.coprime_mul_l; assumption.
Qed.

Lemma coprime_nonzero (a : Z) : Z.gcd a p = 1 -> ~ a == 0.
Proof.
  pose proof p_gt_1 as Hp. intros Hg H. unfold eqm in H.
  rewrite Z.mod_0_l in H by lia.
  apply Z.mod_divide in H; [| lia].
  assert (Hd : (p | Z.gcd a p)) by (apply Z.gcd_greatest; [assumption | reflexivity]).
  rewrite Hg in Hd. apply Z.divide_1_r_nonneg in Hd; lia.
Qed.

Lemma nonzero_coprime (a : Z) : ~ a == 0 -> Z.gcd a p = 1.
Proof.
  pose proof p_gt_1 as Hp. intros H.
  rewrite <- Z.gcd_mod_l. apply felt_coprime; [apply mod_is_felt |].
  intros H0. apply H. unfold eqm. rewrite H0. rewrite Z.mod_0_l by lia. reflexivity.
Qed.

(** The field has no zero divisors. *)
Lemma eqm_mul_nonzero (a b : Z) : ~ a == 0 -> ~ b == 0 -> ~ a * b == 0.
Proof.
  intros Ha Hb. apply coprime_nonzero.
  apply Z.coprime_mul_l; apply nonzero_coprime; assumption.
Qed.

(** The inverse of a unit is found, and it is an inverse. *)
Lemma finv_unit (a : Z) :
  Z.gcd a p = 1 ->
  exists i, finv p a = Ok i /\ is_felt p i /\ i * a == 1.
Proof.
  intros Hg. unfold finv.
  destruct (Z.extgcd a p) as [[u v] d] eqn:E.
  destruct (Z.extgcd_correct _ _ E) as [Hb Hd].
  assert (Hd1 : d = 1) by congruence. rewrite Hd1 in *. simpl.
  exists (u mod p). split; [reflexivity |]. split; [apply mod_is_felt |].
  rewrite (Zmod_eqm p u). replace (u * a) with (1 + (- v) * p) by lia.
  unfold eqm. apply Z.mod_add. pose proof p_gt_1. lia.
Qed.

(** Zero, and every other non-unit, is rejected. *)
Lemma finv_non_unit (a : Z) :
  Z.gcd a p <> 1 -> finv p a = Raise DivisionByZero.
Proof.
  intros Hg. unfold finv.
  destruct (Z.extgcd a p) as [[u v] d] eqn:E.
  destruct (Z.extgcd_correct _ _ E) as [_ Hd].
  destruct (Z.eqb_spec d 1); [congruence | reflexivity].
Qed.

Lemma finv_zero : finv p 0 = Raise DivisionByZero.
Proof.
  apply finv_non_unit. pose proof p_gt_1. rewrite Z.gcd_0_l, Z.abs_eq; lia.
Qed.

Lemma fdiv_unit (a b : Z) :
  Z.gcd b p = 1 ->
  exists q, fdiv p a b = Ok q /\ is_felt p q /\ q * b == a.
Proof.
  intros Hg. destruct (finv_unit b Hg) as (i & Hi & Hfi & Hinv).
  unfold fdiv. rewrite Hi. simpl. eexists. split; [reflexivity |].
  split; [apply mod_is_felt |].
  rewrite fmul_eqm. transitivity (a * (i * b)).
  - eqm_ring.
  - rewrite Hinv. eqm_ring.
Qed.

End FieldFacts.

(** ** [multi_inv] *)

Section MultiInvFacts.

Variable p : Z.
Hypothesis p_prime : Z.prime p.

Local Notation "a == b" := (eqm p a b) (at level 70).

Lemma running_products_length (a : Z) (vs : list Z) :
  length (running_products p a vs) = S (length vs).
Proof.
  revert a. induction vs as [|v vs IH]; intros a; simpl; [reflexivity |].
  now rewrite IH.
Qed.

Lemma running_products_lookup_S (vs : list Z) : forall (a : Z) (k : nat) (x v : Z),
  running_products p a vs !! k = Some x ->
  vs !! k = Some v ->
  running_products p a vs !! S k = Some (fmul p x (mul_value v)).
Proof.
  induction vs as [|v0 vs IH]; intros a k x v Hx Hv; [discriminate |].
  destruct k as [|k]; simpl in *.
  - injection Hx as <-. injection Hv as <-. now destruct vs.
  - exact (IH _ _ _ _ Hx Hv).
Qed.

Lemma mul_value_coprime (v : Z) : is_felt p v -> Z.gcd (mul_value v) p = 1.
Proof.
  intros Hv. unfold mul_value. destruct (Z.eqb_spec v 0) as [_|Hnz].
  - apply Z.gcd_1_l.
  - now apply felt_coprime.
Qed.

Lemma running_products_coprime (vs : list Z) : forall a : Z,
  Z.gcd a p = 1 ->
  Forall (is_felt p) vs ->
  Forall (fun x => Z.gcd x p = 1) (running_products p a vs).
Proof.
  induction vs as [|v vs IH]; intros a Ha Hvs; simpl.
  - constructor; [assumption | constructor].
  - inversion Hvs as [|? ? Hv Hvs']; subst.
    constructor; [assumption |].
    apply IH; [| assumption].
    apply fmul_coprime; [assumption | now apply mul_value_coprime].
Qed.

(** The first loop computes the running products. *)
Lemma multi_inv_partials_from (vs : list Z) : forall (pre : list Z) (a : Z),
  for_each vs
    (fun val partials =>
       let mul_value := if val =? 0 then 1 else val in
       let* lst := getlast partials in
       Ok (partials ++ [fmul p lst mul_value]))
    (pre ++ [a])
  = Ok (pre ++ running_products p a vs).
Proof.
  induction vs as [|v vs IH]; intros pre a; simpl; [reflexivity |].
  rewrite getlast_snoc. simpl.
  rewrite (IH (pre ++ [a])). now rewrite <- app_assoc.
Qed.

Lemma multi_inv_partials_eq (vs : list Z) :
  multi_inv_partials p vs = Ok (running_products p (felt p 1) vs).
Proof. exact (multi_inv_partials_from vs [] (felt p 1)). Qed.

(** The backward sweep, from index [k] down: entries below [k] are
    settled, the others are left as they were. *)
Lemma multi_inv_sweep_spec (vs partials : list Z) :
  partials = running_products p (felt p 1) vs ->
  Forall (is_felt p) vs ->
  forall (k : nat) (outputs : list Z) (inv x : Z),
    (k <= length vs)%nat ->
    length outputs = length vs ->
    partials !! k = Some x ->
    inv * x == 1 ->
    exists outs inv',
      for_each (range_down k) (multi_inv_sweep p vs partials) (outputs, inv)
      = Ok (outs, inv')
      /\ length outs = length vs
      /\ (forall j, (k <= j)%nat -> outs !! j = outputs !! j)
      /\ (forall j v, (j < k)%nat -> vs !! j = Some v ->
            exists o, outs !! j = Some o /\
              ((v = 0 /\ o = 0) \/ (v <> 0 /\ is_felt p o /\ fmul p o v = 1))).
Proof.
  intros Hpart Hvs. induction k as [|k IH]; intros outputs inv x Hk Hlen Hx Hinv.
  - exists outputs, inv. simpl. split; [reflexivity |]. split; [assumption |].
    split; [intros; reflexivity | intros; lia].
  - rewrite range_down_S. cbn [for_each].
    destruct (lookup_lt_is_Some_2 vs k ltac:(lia)) as [v Hv].
    destruct (lookup_lt_is_Some_2 partials k
                ltac:(rewrite Hpart, running_products_length; lia)) as [y Hy].
    assert (Hxy : x = fmul p y (mul_value v)).
    { rewrite Hpart in Hx, Hy.
      rewrite (running_products_lookup_S _ _ _ _ _ Hy Hv) in Hx. congruence. }
    assert (Hv_felt : is_felt p v).
    { exact (Forall_lookup_1 _ _ _ _ Hvs Hv). }
    unfold multi_inv_sweep at 1. replace (S k - 1)%nat with k by lia.
    rewrite (getitem_Some _ _ _ Hv). cbn [bind].
    rewrite (getitem_Some _ _ _ Hy).
    unfold setitem. rewrite length_insert || idtac.
    assert (Hlt : (k <? length outputs)%nat = true) by (apply Nat.ltb_lt; lia).
    unfold truthy.
    destruct (Z.eqb_spec v 0) as [Hv0|Hv0]; cbn [negb bind]; rewrite Hlt; cbn [bind negb].
    + (* a zero entry: output 0, the inverse is kept *)
      destruct (IH (<[k:=0]> outputs) inv y ltac:(lia)
                  ltac:(now rewrite length_insert) Hy)
        as (outs & inv' & Hrun & Hlen' & Hkeep & Hdone).
      { rewrite <- Hinv, Hxy. rewrite fmul_eqm. unfold mul_value.
        rewrite Hv0. simpl. eqm_ring. }
      exists outs, inv'. split; [exact Hrun |]. split; [exact Hlen' |]. split.
      * intros j Hj. rewrite Hkeep by lia. apply list_lookup_insert_ne. lia.
      * intros j w Hj Hw. destruct (decide (j = k)) as [->|Hne].
        -- exists 0. split.
           ++ rewrite Hkeep by lia. apply list_lookup_insert_eq. lia.
           ++ left. split; congruence.
        -- apply Hdone; [lia | assumption].
    + (* a unit: output partials[k] * inv, the inverse moves on *)
      assert (Hstep : fmul p inv v * y == 1).
      { rewrite <- Hinv, Hxy. rewrite !fmul_eqm. unfold mul_value.
        destruct (Z.eqb_spec v 0); [contradiction |]. eqm_ring. }
      destruct (IH (<[k:=fmul p y inv]> outputs) (fmul p inv v) y ltac:(lia)
                  ltac:(now rewrite length_insert) Hy Hstep)
        as (outs & inv' & Hrun & Hlen' & Hkeep & Hdone).
      exists outs, inv'. split; [exact Hrun |]. split; [exact Hlen' |]. split.
      * intros j Hj. rewrite Hkeep by lia. apply list_lookup_insert_ne. lia.
      * intros j w Hj Hw. destruct (decide (j = k)) as [->|Hne].
        -- exists (fmul p y inv). split.
           ++ rewrite Hkeep by lia. apply list_lookup_insert_eq. lia.
           ++ right. assert (w = v) by congruence. subst w.
              split; [assumption |]. split; [apply mod_is_felt; assumption |].
              unfold fmul at 1. apply eqm_1_mod; [assumption |].
              rewrite <- Hinv, Hxy. rewrite !fmul_eqm. unfold mul_value.
              destruct (Z.eqb_spec v 0); [contradiction |]. eqm_ring.
        -- apply Hdone; [lia | assumption].
Qed.

(** What [multi_inv] returns on a vector of field elements. *)
Lemma multi_inv_spec (vs : list Z) :
  Forall (is_felt p) vs ->
  exists outs,
    multi_inv p vs = Ok outs
    /\ length outs = length vs
    /\ (forall j v, vs !! j = Some v ->
          exists o, outs !! j = Some o /\
            ((v = 0 /\ o = 0) \/ (v <> 0 /\ is_felt p o /\ fmul p o v = 1))).
Proof.
  intros Hvs. unfold multi_inv. rewrite multi_inv_partials_eq. cbn [bind].
  set (partials := running_products p (felt p 1) vs).
  assert (Hplen : length partials = S (length vs)) by apply running_products_length.
  rewrite Hplen.
  replace (S (length vs) =? length vs + 1)%nat with true
    by (symmetry; apply Nat.eqb_eq; lia).
  cbn [assert bind].
  destruct (lookup_lt_is_Some_2 partials (length vs) ltac:(lia)) as [x Hx].
  assert (Hlast : getlast partials = Ok x).
  { unfold getlast. rewrite last_lookup, Hplen. simpl. now rewrite Hx. }
  rewrite Hlast. cbn [bind].
  assert (Hgx : Z.gcd x p = 1).
  { refine (Forall_lookup_1 _ _ _ _ (running_products_coprime vs (felt p 1) _ Hvs) Hx).
    rewrite felt_1 by assumption. apply Z.gcd_1_l. }
  destruct (fdiv_unit p p_prime (felt p 1) x Hgx) as (inv & Hdiv & _ & Hinv).
  rewrite Hdiv. cbn [bind].
  rewrite felt_1 in Hinv by assumption.
  destruct (multi_inv_sweep_spec vs partials eq_refl Hvs (length vs)
              (replicate (length vs) 0) inv x (le_n _)
              (length_replicate _ _) Hx Hinv)
    as (outs & inv' & Hrun & Hlen & _ & Hdone).
  rewrite Hrun. cbn [bind fst]. exists outs. split; [reflexivity |].
  split; [exact Hlen |].
  intros j v Hv. apply Hdone; [| assumption].
  now apply lookup_lt_Some in Hv.
Qed.

End MultiInvFacts.

(** A small prime, for concrete instances. *)
Lemma prime_7 : Z.prime 7.
Proof.
  split; [lia |]. intros n Hn [k Hk].
  assert (Hcases : n = 2 \/ n = 3 \/ n = 4 \/ n = 5 \/ n = 6) by lia.
  destruct Hcases as [-> | [-> | [-> | [-> | ->]]]]; lia.
Qed.

(** C6. Over a prime field, for every vector [v] of field elements with no
    zero entry, [multi_inv] returns a vector of the same length whose
    [i]-th entry times [v[i]] is [1]. *)
Theorem multi_inv_inverts (p : Z) (v : list Z) :
  Z.prime p ->
  Forall (is_felt p) v ->
  Forall (fun x => x <> 0) v ->
  exists out,
    multi_inv p v = Ok out
    /\ length out = length v
    /\ (forall i x, v !! i = Some x ->
          exists o, out !! i = Some o /\ fmul p o x = 1).
Proof.
  intros Hp Hv Hnz.
  destruct (multi_inv_spec p Hp v Hv) as (out & Hrun & Hlen & Hout).
  exists out. split; [exact Hrun |]. split; [exact Hlen |].
  intros i x Hx. destruct (Hout i x Hx) as (o & Ho & [[Hx0 _] | (_ & _ & Hinv)]).
  - exfalso. exact (Forall_lookup_1 _ _ _ _ Hnz Hx Hx0).
  - exists o. split; assumption.
Qed.

Lemma multi_inv_inverts_witness :
  exists out,
    multi_inv 7 [3; 5; 6] = Ok out
    /\ length out = length [3; 5; 6]
    /\ (forall i x, [3; 5; 6] !! i = Some x ->
          exists o, out !! i = Some o /\ fmul 7 o x = 1).
Proof.
  apply (multi_inv_inverts 7 [3; 5; 6] prime_7).
  - repeat constructor; unfold is_felt; lia.
  - repeat constructor; lia.
Defined.

(** C7, as the code has it. The claim asks for a [DivisionByZero]
    rejection of a vector with a zero entry; [multi_inv] instead guards
    the zero entries ([mul_value = 1] in the products, [0] in the output):
    over a prime field, a vector of field elements with a zero entry is
    accepted, the result has the length of the input and is [0] wherever
    the input is [0]. *)
Theorem multi_inv_accepts_zero_entries (p : Z) (v : list Z) :
  Z.prime p ->
  Forall (is_felt p) v ->
  0 ∈ v ->
  exists out,
    multi_inv p v = Ok out
    /\ length out = length v
    /\ (forall i, v !! i = Some 0 -> out !! i = Some 0).
Proof.
  intros Hp Hv _.
  destruct (multi_inv_spec p Hp v Hv) as (out & Hrun & Hlen & Hout).
  exists out. split; [exact Hrun |]. split; [exact Hlen |].
  intros i Hi. destruct (Hout i 0 Hi) as (o & Ho & [[_ ->] | (Hnz & _)]).
  - exact Ho.
  - contradiction.
Qed.

Lemma multi_inv_accepts_zero_entries_witness :
  exists out,
    multi_inv 7 [3; 0; 5] = Ok out
    /\ length out = length [3; 0; 5]
    /\ (forall i, [3; 0; 5] !! i = Some 0 -> out !! i = Some 0).
Proof.
  apply (multi_inv_accepts_zero_entries 7 [3; 0; 5] prime_7).
  - repeat constructor; unfold is_felt; lia.
  - apply list_elem_of_lookup. exists 1%nat. reflexivity.
Defined.

(** C7, as stated, fails: a vector with a zero entry is not rejected. *)
Lemma multi_inv_zero_not_rejected :
  0 ∈ [3; 0; 5]
  /\ multi_inv 7 [3; 0; 5] = Ok [5; 0; 3]
  /\ multi_inv 7 [3; 0; 5] <> Raise DivisionByZero.
Proof.
  split; [apply list_elem_of_lookup; exists 1%nat; reflexivity |].
  split; [vm_compute; reflexivity | vm_compute; discriminate].
Qed.

(** C10. Over a prime field, [multi_inv] is total on vectors of field
    elements, zeros included: it returns a vector of the same length, whose
    [i]-th entry is [0] exactly when the [i]-th input is [0], and is the
    inverse of the [i]-th input otherwise. *)
Theorem multi_inv_total (p : Z) (v : list Z) :
  Z.prime p ->
  Forall (is_felt p) v ->
  exists out,
    multi_inv p v = Ok out
    /\ length out = length v
    /\ (forall i x, v !! i = Some x ->
          exists o, out !! i = Some o
            /\ (o = 0 <-> x = 0)
            /\ (x <> 0 -> is_felt p o /\ fmul p o x = 1)).
Proof.
  intros Hp Hv.
  destruct (multi_inv_spec p Hp v Hv) as (out & Hrun & Hlen & Hout).
  exists out. split; [exact Hrun |]. split; [exact Hlen |].
  intros i x Hx.
  destruct (Hout i x Hx) as (o & Ho & [[-> ->] | (Hnz & Hfelt & Hinv)]).
  - exists 0. split; [exact Ho |]. split; [tauto | intros H; contradiction].
  - exists o. split; [exact Ho |]. split; [| intros _; split; assumption].
    split; [| intros; contradiction].
    intros ->. unfold fmul in Hinv. rewrite Z.mul_0_l in Hinv.
    pose proof (p_gt_1 p Hp). rewrite Z.mod_0_l in Hinv by lia. discriminate.
Qed.

Lemma multi_inv_total_witness :
  exists out,
    multi_inv 7 [1; 0; 2; 0; 6] = Ok out
    /\ length out = length [1; 0; 2; 0; 6]
    /\ (forall i x, [1; 0; 2; 0; 6] !! i = Some x ->
          exists o, out !! i = Some o
            /\ (o = 0 <-> x = 0)
            /\ (x <> 0 -> is_felt 7 o /\ fmul 7 o x = 1)).
Proof.
  apply (multi_inv_total 7 [1; 0; 2; 0; 6] prime_7).
  repeat constructor; unfold is_felt; lia.
Defined.

(** ** The two- and four-point interpolations *)

(** Rewrites the field operations into the ring operations of [Z], inside
    a congruence modulo [p]. *)
Ltac fnorm0 :=
  unfold fadd, fsub, fmul, fneg, felt;
  try rewrite_strat (topdown mod_eqm).

(** The same, polynomials on explicit coefficient lists evaluated first. *)
Ltac fnorm :=
  unfold poly_eval, polysOver; cbn [fold_right map]; fnorm0.

Section LagrangeSmallFacts.

Variable p : Z.
Hypothesis p_prime : Z.prime p.

Local Notation "a == b" := (eqm p a b) (at level 70).

Lemma felts_distinct (a b : Z) :
  is_felt p a -> is_felt p b -> a <> b -> ~ a - b == 0.
Proof.
  intros Ha Hb Hne H. apply Hne. apply (eqm_felts p); try assumption.
  transitivity ((a - b) + b); [eqm_ring |]. rewrite H. eqm_ring.
Qed.

Lemma lagrange_interp_2_nodes (x0 x1 y0 y1 : Z) :
  is_felt p x0 -> is_felt p x1 -> is_felt p y0 -> is_felt p y1 ->
  x0 <> x1 ->
  exists f,
    lagrange_interp_2 p [x0; x1] [y0; y1] = Ok f
    /\ poly_eval p f x0 = y0
    /\ poly_eval p f x1 = y1.
Proof.
  intros Hx0 Hx1 Hy0 Hy1 Hne.
  pose proof (felts_distinct x0 x1 Hx0 Hx1 Hne) as Hd01.
  pose proof (felts_distinct x1 x0 Hx1 Hx0 (not_eq_sym Hne)) as Hd10.
  unfold lagrange_interp_2. cbn [getitem lookup list_lookup bind].
  set (e0 := poly_eval p (polysOver p [fneg p x1; 1]) x0).
  set (e1 := poly_eval p (polysOver p [fneg p x0; 1]) x1).
  assert (He0 : e0 == x0 - x1) by (subst e0; cbn; fnorm; eqm_ring).
  assert (He1 : e1 == x1 - x0) by (subst e1; cbn; fnorm; eqm_ring).
  assert (Hunit : Z.gcd (fmul p e0 e1) p = 1).
  { apply fmul_coprime; apply nonzero_coprime; try assumption.
    - now rewrite He0.
    - now rewrite He1. }
  destruct (fdiv_unit p p_prime (felt p 1) _ Hunit) as (invall & Hdiv & _ & Hinv).
  rewrite Hdiv. cbn [bind]. clearbody e0 e1.
  assert (Hinv' : invall * ((x0 - x1) * (x1 - x0)) == 1).
  { rewrite <- He0, <- He1.
    transitivity (invall * fmul p e0 e1); [fnorm; reflexivity |].
    rewrite Hinv. fnorm. reflexivity. }
  cbn. eexists. split; [reflexivity |]. split.
  - apply (eqm_felts p); [apply mod_is_felt; assumption | assumption |].
    fnorm. rewrite He0, He1.
    transitivity (y0 * (invall * ((x0 - x1) * (x1 - x0)))); [eqm_ring |].
    rewrite Hinv'. eqm_ring.
  - apply (eqm_felts p); [apply mod_is_felt; assumption | assumption |].
    fnorm. rewrite He0, He1.
    transitivity (y1 * (invall * ((x0 - x1) * (x1 - x0)))); [eqm_ring |].
    rewrite Hinv'. eqm_ring.
Qed.

Lemma lagrange_interp_4_nodes (x0 x1 x2 x3 y0 y1 y2 y3 : Z) :
  Forall (is_felt p) [x0; x1; x2; x3] ->
  Forall (is_felt p) [y0; y1; y2; y3] ->
  NoDup [x0; x1; x2; x3] ->
  exists f,
    lagrange_interp_4 p [x0; x1; x2; x3] [y0; y1; y2; y3] = Ok f
    /\ poly_eval p f x0 = y0
    /\ poly_eval p f x1 = y1
    /\ poly_eval p f x2 = y2
    /\ poly_eval p f x3 = y3.
Proof.
  intros Hxs Hys Hnd.
  repeat match goal with
         | H : Forall _ (_ :: _) |- _ => apply Forall_cons in H; destruct H as [? H]
         end.
  clear Hxs Hys.
  assert (x0 <> x1 /\ x0 <> x2 /\ x0 <> x3 /\ x1 <> x2 /\ x1 <> x3 /\ x2 <> x3)
    as (N01 & N02 & N03 & N12 & N13 & N23).
  { repeat match goal with
           | H : NoDup (_ :: _) |- _ => apply NoDup_cons in H; destruct H as [? H]
           | H : _ ∉ _ :: _ |- _ => apply not_elem_of_cons in H; destruct H as [? H]
           end.
    tauto. }
  unfold lagrange_interp_4. cbn [getitem lookup list_lookup bind].
  match goal with
  | |- context [fdiv p _ (fmul p (fmul p ?a ?b) (fmul p ?c ?d))] =>
      set (e0 := a); set (e1 := b); set (e2 := c); set (e3 := d)
  end.
  assert (He0 : e0 == (x0 - x1) * (x0 - x2) * (x0 - x3)) by (subst e0; fnorm; eqm_ring).
  assert (He1 : e1 == (x1 - x0) * (x1 - x2) * (x1 - x3)) by (subst e1; fnorm; eqm_ring).
  assert (He2 : e2 == (x2 - x0) * (x2 - x1) * (x2 - x3)) by (subst e2; fnorm; eqm_ring).
  assert (He3 : e3 == (x3 - x0) * (x3 - x1) * (x3 - x2)) by (subst e3; fnorm; eqm_ring).
  assert (Hnz : forall a b c d, is_felt p a -> is_felt p b -> is_felt p c ->
                  is_felt p d -> a <> b -> a <> c -> a <> d ->
                  ~ (a - b) * (a - c) * (a - d) == 0).
  { intros. repeat apply (eqm_mul_nonzero p p_prime); now apply felts_distinct. }
  assert (Hunit : Z.gcd (fmul p (fmul p e0 e1) (fmul p e2 e3)) p = 1).
  { repeat apply fmul_coprime; apply nonzero_coprime; try assumption.
    - rewrite He0. now apply Hnz.
    - rewrite He1. now apply Hnz.
    - rewrite He2. now apply Hnz.
    - rewrite He3. now apply Hnz. }
  destruct (fdiv_unit p p_prime (felt p 1) _ Hunit) as (invall & Hdiv & _ & Hinv).
  rewrite Hdiv. cbn [bind]. clearbody e0 e1 e2 e3.
  assert (Hinv' : invall * (((x0 - x1) * (x0 - x2) * (x0 - x3))
                            * ((x1 - x0) * (x1 - x2) * (x1 - x3))
                            * (((x2 - x0) * (x2 - x1) * (x2 - x3))
                               * ((x3 - x0) * (x3 - x1) * (x3 - x2)))) == 1).
  { rewrite <- He0, <- He1, <- He2, <- He3.
    transitivity (invall * fmul p (fmul p e0 e1) (fmul p e2 e3)); [fnorm; reflexivity |].
    rewrite Hinv. fnorm. reflexivity. }
  unfold polysOver.
  cbn [list_comp range seq map getitem lookup list_lookup bind].
  eexists. split; [reflexivity |].
  repeat split;
    (apply (eqm_felts p); [apply mod_is_felt; assumption | assumption |]);
    fnorm; rewrite He0, He1, He2, He3;
    match goal with
    | |- _ == ?y =>
        transitivity
          (y * (invall * (((x0 - x1) * (x0 - x2) * (x0 - x3))
                          * ((x1 - x0) * (x1 - x2) * (x1 - x3))
                          * (((x2 - x0) * (x2 - x1) * (x2 - x3))
                             * ((x3 - x0) * (x3 - x1) * (x3 - x2))))));
        [eqm_ring | rewrite Hinv'; eqm_ring]
    end.
Qed.

End LagrangeSmallFacts.

(** ** [zpoly] *)

Section ZpolyFacts.

Variable p : Z.
Hypothesis p_prime : Z.prime p.

Local Notation "a == b" := (eqm p a b) (at level 70).

Lemma felt_0 : felt p 0 = 0.
Proof. apply Zmod_0_l. Qed.

Lemma setitem_Ok {A : Type} (l : list A) (i : nat) (v : A) :
  (i < length l)%nat -> setitem l i v = Ok (<[i := v]> l).
Proof.
  intros H. unfold setitem.
  destruct (Nat.ltb_spec i (length l)); [reflexivity | lia].
Qed.

(** The inner loop, started at index [k] on [pre ++ c :: g]. *)
Lemma zpoly_inner_loop (x : Z) (g : list Z) : forall (pre : list Z) (c : Z),
  for_each (seq (length pre) (length g)) (zpoly_inner p x) (pre ++ c :: g)
  = Ok (pre ++ mul_linear_carry p c x g).
Proof.
  induction g as [|g0 g IH]; intros pre c; [reflexivity |].
  cbn [length seq for_each mul_linear_carry].
  unfold zpoly_inner at 1.
  rewrite (getitem_Some _ _ c) by (now apply list_lookup_middle).
  cbn [bind].
  rewrite (getitem_Some _ _ g0).
  2:{ replace (pre ++ c :: g0 :: g) with ((pre ++ [c]) ++ g0 :: g)
        by (now rewrite <- app_assoc).
      apply list_lookup_middle. rewrite length_app. simpl. lia. }
  cbn [bind].
  rewrite setitem_Ok by (rewrite length_app; simpl; lia).
  cbn [bind].
  rewrite insert_app_r_alt by lia. rewrite Nat.sub_diag. cbn [insert list_insert].
  specialize (IH (pre ++ [fsub p c (fmul p g0 x)]) g0).
  rewrite length_app in IH. cbn [length] in IH.
  rewrite Nat.add_1_r in IH. rewrite <- !app_assoc in IH. exact IH.
Qed.

Lemma zpoly_outer_eq (x : Z) (root : list Z) :
  zpoly_outer p x root = Ok (mul_linear p x root).
Proof.
  unfold zpoly_outer. cbn [length]. rewrite Nat.sub_1_r. cbn [Nat.pred].
  exact (zpoly_inner_loop x root [] (felt p 0)).
Qed.

Lemma zpoly_outer_loop (roots : list Z) : forall init : list Z,
  for_each roots (zpoly_outer p) init
  = Ok (fold_left (fun g r => mul_linear p r g) roots init).
Proof.
  induction roots as [|r roots IH]; intros init; [reflexivity |].
  cbn [for_each fold_left]. rewrite zpoly_outer_eq. cbn [bind]. apply IH.
Qed.

Lemma mul_linear_carry_felts (a : Z) (g : list Z) : forall c : Z,
  is_felt p c -> Forall (is_felt p) g ->
  Forall (is_felt p) (mul_linear_carry p c a g).
Proof.
  induction g as [|g0 g IH]; intros c Hc Hg; cbn [mul_linear_carry].
  - now constructor.
  - inversion Hg; subst. constructor; [apply mod_is_felt; assumption | now apply IH].
Qed.

Lemma roots_poly_snoc (roots : list Z) (r : Z) :
  roots_poly p (roots ++ [r]) = mul_linear p r (roots_poly p roots).
Proof. unfold roots_poly. now rewrite fold_left_app. Qed.

Lemma roots_poly_felts (roots : list Z) : Forall (is_felt p) (roots_poly p roots).
Proof.
  induction roots as [|r roots IH] using rev_ind.
  - constructor; [apply mod_is_felt; assumption | constructor].
  - rewrite roots_poly_snoc. apply mul_linear_carry_felts; [| assumption].
    rewrite felt_0. pose proof (p_gt_1 p p_prime). unfold is_felt. lia.
Qed.

Lemma polysOver_felts (cs : list Z) : Forall (is_felt p) cs -> polysOver p cs = cs.
Proof.
  induction 1 as [|c cs Hc _ IH]; [reflexivity |].
  unfold polysOver in *. cbn [map]. rewrite IH. f_equal.
  unfold felt. apply Z.mod_small. exact Hc.
Qed.

(** [zpoly] builds the product of the linear factors. *)
Lemma zpoly_eq (roots : list Z) : zpoly p roots = Ok (roots_poly p roots).
Proof.
  unfold zpoly. rewrite zpoly_outer_loop. cbn [bind].
  fold (roots_poly p roots). now rewrite polysOver_felts by apply roots_poly_felts.
Qed.

Lemma roots_poly_length (roots : list Z) :
  length (roots_poly p roots) = S (length roots).
Proof.
  assert (Hlen : forall a g c, length (mul_linear_carry p c a g) = S (length g)).
  { intros a g. induction g as [|g0 g IH]; intros c; [reflexivity |].
    cbn [mul_linear_carry length]. now rewrite IH. }
  induction roots as [|r roots IH] using rev_ind; [reflexivity |].
  rewrite roots_poly_snoc. unfold mul_linear. rewrite Hlen, IH, length_app.
  simpl. lia.
Qed.

(** Multiplying by two linear factors, in either order. *)
Lemma mul_linear_carry_comm (a b : Z) (g : list Z) : forall c d : Z,
  mul_linear_carry p (fsub p c (fmul p d b)) a (mul_linear_carry p d b g)
  = mul_linear_carry p (fsub p c (fmul p d a)) b (mul_linear_carry p d a g).
Proof.
  induction g as [|g0 g IH]; intros c d; cbn [mul_linear_carry].
  - f_equal. change (fsub p c (fmul p d b) - fmul p d a
                     == fsub p c (fmul p d a) - fmul p d b).
    fnorm0. eqm_ring.
  - f_equal; [| apply IH].
    change (fsub p c (fmul p d b) - fmul p (fsub p d (fmul p g0 b)) a
            == fsub p c (fmul p d a) - fmul p (fsub p d (fmul p g0 a)) b).
    fnorm0. eqm_ring.
Qed.

Lemma mul_linear_comm (a b : Z) (g : list Z) :
  mul_linear p a (mul_linear p b g) = mul_linear p b (mul_linear p a g).
Proof.
  unfold mul_linear.
  assert (H0 : forall x, felt p 0 = fsub p 0 (fmul p (felt p 0) x)).
  { intros x. rewrite felt_0. unfold fsub, fmul. rewrite Z.mul_0_l.
    now rewrite !Zmod_0_l. }
  rewrite (H0 b) at 1. rewrite (H0 a) at 3.
  apply mul_linear_carry_comm.
Qed.

(** A root anywhere in the list can be taken as the last factor. *)
Lemma roots_poly_middle (l1 l2 : list Z) (a : Z) :
  roots_poly p (l1 ++ a :: l2) = mul_linear p a (roots_poly p (l1 ++ l2)).
Proof.
  induction l2 as [|b l2 IH] using rev_ind.
  - rewrite app_nil_r. apply roots_poly_snoc.
  - replace (l1 ++ a :: l2 ++ [b]) with ((l1 ++ a :: l2) ++ [b])
      by (now rewrite <- app_assoc).
    rewrite roots_poly_snoc, IH, mul_linear_comm.
    now rewrite app_assoc, roots_poly_snoc.
Qed.

End ZpolyFacts.

(** ** Polynomial evaluation and division *)

Section PolyFacts.

Variable p : Z.
Hypothesis p_prime : Z.prime p.

Local Notation "a == b" := (eqm p a b) (at level 70).

Lemma poly_eval_cons (c : Z) (cs : list Z) (x : Z) :
  poly_eval p (c :: cs) x = fadd p c (fmul p (poly_eval p cs x) x).
Proof. reflexivity. Qed.

Lemma poly_eval_is_felt (cs : list Z) (x : Z) : is_felt p (poly_eval p cs x).
Proof.
  destruct cs; [| rewrite poly_eval_cons; apply mod_is_felt; assumption].
  pose proof (p_gt_1 p p_prime). unfold is_felt. simpl. lia.
Qed.

Lemma poly_eval_polysOver (cs : list Z) (x : Z) :
  poly_eval p (polysOver p cs) x == poly_eval p cs x.
Proof.
  induction cs as [|c cs IH]; [reflexivity |].
  change (polysOver p (c :: cs)) with (felt p c :: polysOver p cs).
  rewrite !poly_eval_cons.
  set (u := poly_eval p (polysOver p cs) x) in *.
  fnorm0. now rewrite IH.
Qed.

Lemma poly_eval_zeros {A : Type} (l : list A) (x : Z) :
  poly_eval p (map (fun _ => 0) l) x = 0.
Proof.
  induction l as [|a l IH]; [reflexivity |].
  cbn [map]. rewrite poly_eval_cons, IH. unfold fadd, fmul.
  rewrite Z.mul_0_l, (Zmod_0_l p). apply Zmod_0_l.
Qed.

Lemma poly_eval_mul_linear_carry (a t : Z) (g : list Z) : forall c : Z,
  poly_eval p (mul_linear_carry p c a g) t == c + (t - a) * poly_eval p g t.
Proof.
  induction g as [|g0 g IH]; intros c; cbn [mul_linear_carry].
  - rewrite poly_eval_cons. simpl. fnorm0. eqm_ring.
  - rewrite !poly_eval_cons. fnorm0. rewrite IH. eqm_ring.
Qed.

Lemma prod_diff_snoc (t r : Z) (roots : list Z) :
  prod_diff t (roots ++ [r]) = prod_diff t roots * (t - r).
Proof.
  unfold prod_diff. induction roots as [|a roots IH]; simpl; [ring |].
  rewrite IH. ring.
Qed.

(** The value of the product of the linear factors. *)
Lemma poly_eval_roots_poly (roots : list Z) (t : Z) :
  poly_eval p (roots_poly p roots) t == prod_diff t roots.
Proof.
  induction roots as [|r roots IH] using rev_ind.
  - unfold roots_poly. cbn [fold_left]. rewrite poly_eval_cons. simpl. fnorm0. eqm_ring.
  - rewrite roots_poly_snoc, prod_diff_snoc. unfold mul_linear.
    rewrite poly_eval_mul_linear_carry, IH. fnorm0. eqm_ring.
Qed.

Lemma prod_diff_root (t : Z) (roots : list Z) : t ∈ roots -> prod_diff t roots = 0.
Proof.
  unfold prod_diff. induction roots as [|r roots IH]; intros H.
  - now apply elem_of_nil in H.
  - simpl. apply elem_of_cons in H as [-> | H].
    + rewrite Z.sub_diag. apply Z.mul_0_l.
    + rewrite (IH H). apply Z.mul_0_r.
Qed.

Lemma prod_diff_nonzero (t : Z) (roots : list Z) :
  is_felt p t -> Forall (is_felt p) roots -> t ∉ roots ->
  ~ prod_diff t roots == 0.
Proof.
  intros Ht. unfold prod_diff. induction 1 as [|r roots Hr _ IH]; intros Hnotin; simpl.
  - intros H. apply (coprime_nonzero p p_prime 1); [apply Z.gcd_1_l | exact H].
  - apply not_elem_of_cons in Hnotin as [Hne Hnotin].
    apply (eqm_mul_nonzero p p_prime); [now apply felts_distinct | now apply IH].
Qed.

Lemma fdiv_one (t : Z) : is_felt p t -> fdiv p t 1 = Ok t.
Proof.
  intros Ht.
  destruct (fdiv_unit p p_prime t 1 (Z.gcd_1_l p)) as (q & Hq & Hfq & Hq1).
  rewrite Hq. f_equal. apply (eqm_felts p); try assumption.
  rewrite <- Hq1. eqm_ring.
Qed.

(** Long division by [X - a] undoes the multiplication by [X - a]. *)
Lemma poly_divmod_mul_linear_carry (a : Z) (g : list Z) : forall c : Z,
  is_felt p c -> Forall (is_felt p) g ->
  poly_divmod p (mul_linear_carry p c a g) [fneg p a; 1] = Ok (g, [c]).
Proof.
  induction g as [|g0 g IH]; intros c Hc Hg; cbn [mul_linear_carry poly_divmod].
  - reflexivity.
  - inversion Hg as [|? ? Hg0 Hg']; subst.
    rewrite (IH g0 Hg0 Hg'). cbn [bind fst snd length Nat.ltb Nat.leb].
    unfold getlast. cbn [last bind].
    rewrite (fdiv_one g0 Hg0). cbn [bind zip_with removelast].
    do 3 f_equal. apply (eqm_felts p); [apply mod_is_felt; assumption | assumption |].
    fnorm0. eqm_ring.
Qed.

Lemma poly_div_roots_poly (l1 l2 : list Z) (a : Z) :
  is_felt p a ->
  poly_div p (roots_poly p (l1 ++ a :: l2)) (polysOver p [fneg p a; 1])
  = Ok (roots_poly p (l1 ++ l2)).
Proof.
  intros Ha. unfold poly_div.
  rewrite roots_poly_middle by assumption. unfold mul_linear.
  assert (Hd : polysOver p [fneg p a; 1] = [fneg p a; 1]).
  { apply polysOver_felts. pose proof (p_gt_1 p p_prime).
    constructor; [apply mod_is_felt; assumption |].
    constructor; [unfold is_felt; lia | constructor]. }
  rewrite Hd, poly_divmod_mul_linear_carry; [reflexivity | | ].
  - rewrite felt_0. pose proof (p_gt_1 p p_prime). unfold is_felt. lia.
  - now apply roots_poly_felts.
Qed.

(** The inner loop of [lagrange_interp] adds a multiple of [num] to [b]. *)
Lemma poly_eval_add_scaled (yi yslice t : Z) (b : list Z) : forall num : list Z,
  length b = length num ->
  (yi = 0 -> yslice == 0) ->
  poly_eval p (add_scaled p yi yslice b num) t
  == poly_eval p b t + yslice * poly_eval p num t.
Proof.
  induction b as [|b0 b IH]; intros [|n0 num] Hlen Hy; try discriminate.
  - simpl. eqm_ring.
  - change (add_scaled p yi yslice (b0 :: b) (n0 :: num))
      with ((if truthy n0 && truthy yi then fadd p b0 (fmul p n0 yslice) else b0)
            :: add_scaled p yi yslice b num).
    rewrite !poly_eval_cons.
    injection Hlen as Hlen. specialize (IH num Hlen Hy).
    unfold truthy.
    destruct (Z.eqb_spec n0 0) as [-> | Hn0]; cbn [negb andb].
    + fnorm0. rewrite IH. eqm_ring.
    + destruct (Z.eqb_spec yi 0) as [Hyi | Hyi]; cbn [negb].
      * fnorm0. rewrite IH. rewrite (Hy Hyi). eqm_ring.
      * fnorm0. rewrite IH. eqm_ring.
Qed.

Lemma lagrange_interp_inner_loop (yi yslice : Z) (b2 : list Z) :
  forall (n2 pre npre : list Z),
    length pre = length npre ->
    length b2 = length n2 ->
    for_each (seq (length pre) (length b2))
      (lagrange_interp_inner p (npre ++ n2) yi yslice) (pre ++ b2)
    = Ok (pre ++ add_scaled p yi yslice b2 n2).
Proof.
  unfold add_scaled.
  induction b2 as [|b0 b2 IH]; intros [|n0 n2] pre npre Hpre Hlen; try discriminate.
  - reflexivity.
  - cbn [length seq for_each zip_with]. injection Hlen as Hlen.
    unfold lagrange_interp_inner at 1.
    rewrite (getitem_Some _ _ n0) by (rewrite Hpre; now apply list_lookup_middle).
    cbn [bind].
    specialize (IH n2 (pre ++ [if truthy n0 && truthy yi
                               then fadd p b0 (fmul p n0 yslice) else b0])
                  (npre ++ [n0])).
    rewrite !length_app in IH. cbn [length] in IH.
    rewrite Nat.add_1_r in IH. rewrite <- !app_assoc in IH. cbn [app] in IH.
    destruct (truthy n0 && truthy yi).
    + rewrite (getitem_Some _ _ b0) by (now apply list_lookup_middle).
      cbn [bind]. rewrite setitem_Ok by (rewrite length_app; simpl; lia).
      cbn [bind]. rewrite insert_app_r_alt by lia.
      rewrite Nat.sub_diag. cbn [insert list_insert].
      apply IH; [lia | assumption].
    + cbn [bind]. apply IH; [lia | assumption].
Qed.

End PolyFacts.

(** ** The general interpolation *)

Lemma list_comp_map {A B : Type} (f : A -> result B) (xs : list A) :
  forall g : nat -> B,
    (forall i x, xs !! i = Some x -> f x = Ok (g i)) ->
    list_comp f xs = Ok (map g (seq 0 (length xs))).
Proof.
  induction xs as [|x xs IH]; intros g Hg; [reflexivity |].
  cbn [list_comp length seq map].
  rewrite (Hg 0%nat x eq_refl). cbn [bind].
  rewrite (IH (fun i => g (S i))) by (intros i y Hy; exact (Hg (S i) y Hy)).
  cbn [bind]. now rewrite <- seq_shift, map_map.
Qed.

Lemma lookup_map_seq {B : Type} (g : nat -> B) (n i : nat) :
  (i < n)%nat -> map g (seq 0 n) !! i = Some (g i).
Proof.
  intros Hi. change (map g (seq 0 n)) with (g <$> seq 0 n).
  rewrite list_lookup_fmap, lookup_seq_lt by assumption. reflexivity.
Qed.

Section LagrangeFacts.

Variable p : Z.
Hypothesis p_prime : Z.prime p.

Local Notation "a == b" := (eqm p a b) (at level 70).

Variables xs ys : list Z.
Hypothesis xs_felts : Forall (is_felt p) xs.
Hypothesis ys_felts : Forall (is_felt p) ys.
Hypothesis xs_distinct : NoDup xs.
Hypothesis same_length : length xs = length ys.

Local Notation "'num'" := (lagrange_num p xs).
Local Notation "'denom'" := (lagrange_denom p xs).

Lemma lagrange_nums :
  list_comp (fun x => poly_div p (roots_poly p xs) (polysOver p [fneg p x; 1])) xs
  = Ok (map num (seq 0 (length xs))).
Proof.
  apply list_comp_map. intros i x Hx. unfold lagrange_num.
  rewrite delete_take_drop.
  rewrite <- (take_drop_middle xs i x Hx) at 1.
  apply poly_div_roots_poly; [assumption |].
  exact (Forall_lookup_1 _ _ _ _ xs_felts Hx).
Qed.

Lemma lagrange_denoms :
  list_comp (fun i => let* n := getitem (map num (seq 0 (length xs))) i in
                      let* x := getitem xs i in
                      Ok (poly_eval p n x))
            (range (length xs))
  = Ok (map denom (seq 0 (length xs))).
Proof.
  unfold range.
  rewrite (list_comp_map _ (seq 0 (length xs)) denom).
  - now rewrite length_seq.
  - intros i j Hj. apply lookup_seq in Hj as [-> Hlt]. simpl in *.
    rewrite (getitem_Some _ _ _ (lookup_map_seq num _ _ Hlt)). cbn [bind].
    destruct (lookup_lt_is_Some_2 xs i Hlt) as [x Hx].
    rewrite (getitem_Some _ _ _ Hx). cbn [bind]. unfold lagrange_denom. now rewrite Hx.
Qed.

Lemma num_length (i : nat) : (i < length xs)%nat -> length (num i) = length xs.
Proof.
  intros Hi. unfold lagrange_num. rewrite roots_poly_length by assumption.
  rewrite length_delete by (now apply lookup_lt_is_Some_2). lia.
Qed.

Lemma not_elem_of_delete (i : nat) (x : Z) : xs !! i = Some x -> x ∉ delete i xs.
Proof.
  intros Hx. pose proof xs_distinct as Hnd.
  rewrite <- (take_drop_middle xs i x Hx) in Hnd.
  apply NoDup_app in Hnd as (_ & Hl & Hr). apply NoDup_cons in Hr as [Hr _].
  rewrite delete_take_drop. intros [Hin | Hin]%elem_of_app.
  - apply (Hl x Hin). left.
  - exact (Hr Hin).
Qed.

Lemma elem_of_delete_other (i k : nat) (x : Z) :
  xs !! k = Some x -> k <> i -> x ∈ delete i xs.
Proof.
  intros Hx Hne. apply list_elem_of_lookup.
  destruct (Nat.lt_ge_cases k i) as [Hlt | Hge].
  - exists k. now rewrite list_lookup_delete_lt by lia.
  - exists (k - 1)%nat. rewrite list_lookup_delete_ge by lia.
    now replace (S (k - 1)) with k by lia.
Qed.

Lemma denom_nonzero (i : nat) (x : Z) : xs !! i = Some x -> ~ denom i == 0.
Proof.
  intros Hx. unfold lagrange_denom, lagrange_num. rewrite Hx. cbn [default].
  rewrite poly_eval_roots_poly by assumption.
  apply prod_diff_nonzero; try assumption.
  - exact (Forall_lookup_1 _ _ _ _ xs_felts Hx).
  - apply Forall_delete. assumption.
  - now apply not_elem_of_delete.
Qed.

Lemma num_vanishes (i k : nat) (x : Z) :
  xs !! k = Some x -> k <> i -> poly_eval p (num i) x == 0.
Proof.
  intros Hx Hne. unfold lagrange_num. rewrite poly_eval_roots_poly by assumption.
  rewrite (prod_diff_root x) by (now apply (elem_of_delete_other i k)).
  reflexivity.
Qed.

(** The outer loop, over the indices [s .. s + m - 1]. *)
Lemma lagrange_interp_outer_loop (invdenoms : list Z) :
  (forall i x, xs !! i = Some x ->
     exists o, invdenoms !! i = Some o /\ o * denom i == 1) ->
  forall (m s : nat) (b : list Z),
    (s + m <= length xs)%nat ->
    length b = length xs ->
    exists b',
      for_each (seq s m)
        (lagrange_interp_outer p ys invdenoms (map num (seq 0 (length xs)))) b
      = Ok b'
      /\ length b' = length xs
      /\ (forall k x y, xs !! k = Some x -> ys !! k = Some y ->
            poly_eval p b' x
            == poly_eval p b x + (if decide (s <= k < s + m)%nat then y else 0)).
Proof.
  intros Hinv. induction m as [|m IH]; intros s b Hs Hb.
  - exists b. split; [reflexivity |]. split; [assumption |].
    intros k x y _ _. destruct (decide (s <= k < s + 0)%nat); [lia | eqm_ring].
  - cbn [seq for_each].
    destruct (lookup_lt_is_Some_2 xs s ltac:(lia)) as [xi Hxi].
    destruct (lookup_lt_is_Some_2 ys s ltac:(lia)) as [yi Hyi].
    destruct (Hinv s xi Hxi) as (di & Hdi & Hdinv).
    unfold lagrange_interp_outer at 1.
    rewrite (getitem_Some _ _ _ Hyi), (getitem_Some _ _ _ Hdi). cbn [bind].
    rewrite (getitem_Some _ _ _ (lookup_map_seq num (length xs) s ltac:(lia))).
    cbn [bind].
    assert (Hbn : length b = length (num s)) by (rewrite num_length; lia).
    pose proof (lagrange_interp_inner_loop p yi (fmul p yi di) b (num s) [] []
                  eq_refl Hbn) as Hinner.
    cbn [length app] in Hinner.
    replace (range (length ys)) with (seq 0 (length b))
      by (unfold range; f_equal; lia).
    rewrite Hinner. cbn [bind].
    set (b1 := add_scaled p yi (fmul p yi di) b (num s)).
    assert (Hb1 : length b1 = length xs).
    { unfold b1, add_scaled. rewrite length_zip_with, num_length by lia. lia. }
    destruct (IH (S s) b1 ltac:(lia) Hb1) as (b' & Hrun & Hlen & Hev).
    exists b'. split; [exact Hrun |]. split; [exact Hlen |].
    intros k x y Hx Hy. rewrite (Hev k x y Hx Hy).
    unfold b1. rewrite poly_eval_add_scaled.
    2:{ rewrite num_length; lia. }
    2:{ intros ->. unfold fmul. rewrite Z.mul_0_l. rewrite Zmod_0_l. reflexivity. }
    destruct (decide (k = s)) as [-> | Hne].
    + assert (x = xi) by congruence. assert (y = yi) by congruence. subst x y.
      assert (Hd : poly_eval p (num s) xi = denom s)
        by (unfold lagrange_denom; now rewrite Hxi).
      rewrite Hd.
      destruct (decide (S s <= s < S s + m)%nat); [lia |].
      destruct (decide (s <= s < s + S m)%nat); [| lia].
      fnorm0. transitivity (poly_eval p b xi + yi * (di * denom s)); [eqm_ring |].
      rewrite Hdinv. eqm_ring.
    + rewrite (num_vanishes s k x Hx Hne).
      destruct (decide (S s <= k < S s + m)%nat);
        destruct (decide (s <= k < s + S m)%nat); try lia; eqm_ring.
Qed.

(** [lagrange_interp] on distinct nodes goes through the given points. *)
Lemma lagrange_interp_nodes :
  exists f,
    lagrange_interp p xs ys = Ok f
    /\ (forall i x y, xs !! i = Some x -> ys !! i = Some y -> poly_eval p f x = y).
Proof.
  unfold lagrange_interp. rewrite zpoly_eq by assumption. cbn [bind].
  rewrite roots_poly_length by assumption. rewrite same_length.
  replace (S (length ys) =? length ys + 1)%nat with true
    by (symmetry; apply Nat.eqb_eq; lia).
  cbn [assert bind]. rewrite <- same_length.
  rewrite lagrange_nums. cbn [bind].
  rewrite lagrange_denoms. cbn [bind].
  destruct (multi_inv_spec p p_prime (map denom (seq 0 (length xs))))
    as (invdenoms & Hmi & Hmilen & Hmispec).
  { apply Forall_forall. intros d Hd. apply list_elem_of_In, in_map_iff in Hd.
    destruct Hd as (i & <- & _). apply poly_eval_is_felt. assumption. }
  rewrite Hmi. cbn [bind].
  assert (Hinv : forall i x, xs !! i = Some x ->
                   exists o, invdenoms !! i = Some o /\ o * denom i == 1).
  { intros i x Hx. pose proof (lookup_lt_Some _ _ _ Hx) as Hlt.
    destruct (Hmispec i (denom i) (lookup_map_seq denom _ i Hlt))
      as (o & Ho & [[Hz _] | (_ & _ & Ho1)]).
    - exfalso. apply (denom_nonzero i x Hx). now rewrite Hz.
    - exists o. split; [exact Ho |]. unfold fmul in Ho1.
      unfold eqm. rewrite Ho1. pose proof (p_gt_1 p p_prime).
      symmetry. apply Z.mod_small. lia. }
  destruct (lagrange_interp_outer_loop invdenoms Hinv (length xs) 0
              (map (fun _ => 0) ys) (le_n _)
              ltac:(rewrite length_map; now symmetry))
    as (b & Hrun & Hlen & Hev).
  unfold range. rewrite Hrun. cbn [bind].
  eexists. split; [reflexivity |].
  intros i x y Hx Hy.
  apply (eqm_felts p); [apply poly_eval_is_felt; assumption | |].
  - exact (Forall_lookup_1 _ _ _ _ ys_felts Hy).
  - rewrite poly_eval_polysOver by assumption. rewrite (Hev i x y Hx Hy).
    rewrite poly_eval_zeros.
    pose proof (lookup_lt_Some _ _ _ Hx).
    destruct (decide (0 <= i < 0 + length xs)%nat); [eqm_ring | lia].
Qed.

End LagrangeFacts.

(** Distinctness of the entries of an explicit list of integers. *)
Ltac solve_NoDup :=
  repeat first
    [ apply NoDup_nil_2
    | apply NoDup_cons_2;
      [ rewrite ?not_elem_of_cons; repeat split; try lia; apply not_elem_of_nil | ] ].

(** C8. Over a prime field, for pairwise distinct nodes [xs] and values
    [ys] of the same length, the polynomial returned by Lagrange
    interpolation takes the value [y_i] at [x_i], for every [i]: for the
    general [lagrange_interp], for [lagrange_interp_2] on two points and for
    [lagrange_interp_4] on four points. *)
Theorem lagrange_interp_through_points (p : Z) :
  Z.prime p ->
  (forall xs ys : list Z,
     Forall (is_felt p) xs -> Forall (is_felt p) ys -> NoDup xs ->
     length xs = length ys ->
     exists f, lagrange_interp p xs ys = Ok f
       /\ forall i x y, xs !! i = Some x -> ys !! i = Some y -> poly_eval p f x = y)
  /\ (forall xs ys : list Z,
        Forall (is_felt p) xs -> Forall (is_felt p) ys -> NoDup xs ->
        length xs = 2%nat -> length ys = 2%nat ->
        exists f, lagrange_interp_2 p xs ys = Ok f
          /\ forall i x y, xs !! i = Some x -> ys !! i = Some y -> poly_eval p f x = y)
  /\ (forall xs ys : list Z,
        Forall (is_felt p) xs -> Forall (is_felt p) ys -> NoDup xs ->
        length xs = 4%nat -> length ys = 4%nat ->
        exists f, lagrange_interp_4 p xs ys = Ok f
          /\ forall i x y, xs !! i = Some x -> ys !! i = Some y -> poly_eval p f x = y).
Proof.
  intros Hp. split; [| split].
  - intros xs ys Hxs Hys Hnd Hlen. now apply lagrange_interp_nodes.
  - intros [|x0 [|x1 [|]]] [|y0 [|y1 [|]]] Hxs Hys Hnd Hlx Hly; try discriminate.
    apply NoDup_cons in Hnd as [Hne _]. apply not_elem_of_cons in Hne as [Hne _].
    inversion Hxs as [|? ? Hx0 Hxs']; subst. inversion Hxs' as [|? ? Hx1 _]; subst.
    inversion Hys as [|? ? Hy0 Hys']; subst. inversion Hys' as [|? ? Hy1 _]; subst.
    destruct (lagrange_interp_2_nodes p Hp x0 x1 y0 y1 Hx0 Hx1 Hy0 Hy1 Hne)
      as (f & Hf & H0 & H1).
    exists f. split; [exact Hf |].
    intros [|[|i]] x y Hx Hy; simpl in Hx, Hy; try discriminate; congruence.
  - intros [|x0 [|x1 [|x2 [|x3 [|]]]]] [|y0 [|y1 [|y2 [|y3 [|]]]]]
      Hxs Hys Hnd Hlx Hly; try discriminate.
    destruct (lagrange_interp_4_nodes p Hp x0 x1 x2 x3 y0 y1 y2 y3 Hxs Hys Hnd)
      as (f & Hf & H0 & H1 & H2 & H3).
    exists f. split; [exact Hf |].
    intros [|[|[|[|i]]]] x y Hx Hy; simpl in Hx, Hy; try discriminate; congruence.
Qed.

Lemma lagrange_interp_through_points_witness :
  (exists f, lagrange_interp 7 [1; 2; 3] [2; 5; 3] = Ok f
     /\ forall i x y, [1; 2; 3] !! i = Some x -> [2; 5; 3] !! i = Some y ->
          poly_eval 7 f x = y)
  /\ (exists f, lagrange_interp_2 7 [1; 6] [4; 0] = Ok f
        /\ forall i x y, [1; 6] !! i = Some x -> [4; 0] !! i = Some y ->
             poly_eval 7 f x = y)
  /\ (exists f, lagrange_interp_4 7 [0; 1; 2; 3] [2; 5; 3; 6] = Ok f
        /\ forall i x y, [0; 1; 2; 3] !! i = Some x -> [2; 5; 3; 6] !! i = Some y ->
             poly_eval 7 f x = y).
Proof.
  destruct (lagrange_interp_through_points 7 prime_7) as (Hgen & H2 & H4).
  split; [| split].
  - apply Hgen; [| | | reflexivity].
    + repeat constructor; unfold is_felt; lia.
    + repeat constructor; unfold is_felt; lia.
    + solve_NoDup.
  - apply H2; [| | | reflexivity | reflexivity].
    + repeat constructor; unfold is_felt; lia.
    + repeat constructor; unfold is_felt; lia.
    + solve_NoDup.
  - apply H4; [| | | reflexivity | reflexivity].
    + repeat constructor; unfold is_felt; lia.
    + repeat constructor; unfold is_felt; lia.
    + solve_NoDup.
Defined.

(** ** [get_computational_trace] *)

Lemma orbit_length {A : Type} (f : nat -> A -> A) (n : nat) : forall (s : nat) (w : A),
  length (orbit f s w n) = S n.
Proof. induction n as [|n IH]; intros s w; simpl; [reflexivity | now rewrite IH]. Qed.

Lemma orbit_lookup_S {A : Type} (f : nat -> A -> A) (n : nat) :
  forall (s : nat) (w : A) (i : nat) (x : A),
    (i < n)%nat ->
    orbit f s w n !! i = Some x ->
    orbit f s w n !! S i = Some (f (s + i)%nat x).
Proof.
  induction n as [|n IH]; intros s w i x Hi Hx; [lia |].
  destruct i as [|i]; simpl in *.
  - injection Hx as <-. rewrite Nat.add_0_r. now destruct n.
  - replace (s + S i)%nat with (S s + i)%nat by lia. apply IH; [lia | exact Hx].
Qed.

Lemma orbit_last {A : Type} (f : nat -> A -> A) (n s : nat) (w : A) :
  exists out, orbit f s w n !! n = Some out /\ getlast (orbit f s w n) = Ok out.
Proof.
  destruct (lookup_lt_is_Some_2 (orbit f s w n) n
              ltac:(rewrite orbit_length; lia)) as [out Hout].
  exists out. split; [exact Hout |].
  unfold getlast. rewrite last_lookup, orbit_length. cbn [Nat.pred]. now rewrite Hout.
Qed.

Section AirFacts.

Variable width : Z.
Variable step_polys : list Air.StepPoly.
Hypothesis width_polys : Z.of_nat (length step_polys) = width.

Lemma next_state_comp (w : list Z) (trace : list (list Z)) :
  getlast trace = Ok w ->
  forall polys pre : list Air.StepPoly,
    list_comp (fun i => let* poly := getitem (pre ++ polys) i in
                        let* state := getlast trace in
                        Ok (poly state))
              (seq (length pre) (length polys))
    = Ok (air_next polys w).
Proof.
  intros Hw. induction polys as [|poly polys IH]; intros pre; [reflexivity |].
  cbn [length seq list_comp].
  rewrite (getitem_Some _ _ poly) by (now apply list_lookup_middle).
  cbn [bind].
  specialize (IH (pre ++ [poly])).
  rewrite length_app in IH. cbn [length] in IH. rewrite Nat.add_1_r in IH.
  rewrite <- app_assoc in IH. cbn [app] in IH. rewrite IH.
  rewrite Hw. reflexivity.
Qed.

Lemma air_trace_round_snoc (pre : list (list Z)) (w : list Z) :
  Air.trace_round width step_polys (pre ++ [w])
  = Ok ((pre ++ [w]) ++ [air_next step_polys w]).
Proof.
  unfold Air.trace_round, range. rewrite <- width_polys, Nat2Z.id.
  pose proof (next_state_comp w (pre ++ [w]) (getlast_snoc pre w) step_polys [])
    as Hcomp.
  cbn [app length] in Hcomp. rewrite Hcomp. reflexivity.
Qed.

Lemma air_trace_loop (n : nat) : forall (s : nat) (pre : list (list Z)) (w : list Z),
  for_each (seq s n) (fun _ => Air.trace_round width step_polys) (pre ++ [w])
  = Ok (pre ++ orbit (fun _ => air_next step_polys) s w n).
Proof.
  induction n as [|n IH]; intros s pre w; [reflexivity |].
  cbn [seq for_each orbit]. rewrite air_trace_round_snoc. cbn [bind].
  rewrite IH. now rewrite <- app_assoc.
Qed.

End AirFacts.

Section StarkTraceFacts.

Variable constants : list (list Z).
Variable step_fn : Stark.StepFn.

Lemma poly_constants_comp (i : nat) :
  Forall (fun cd => (i < length cd)%nat) constants ->
  list_comp (fun d => let* cd := getitem constants d in getitem cd i)
            (range (length constants))
  = Ok (constants_at constants i).
Proof.
  intros Hlen. unfold range.
  rewrite (list_comp_map _ _ (fun d => default 0 (constants !! d ≫= (.!! i)))).
  - rewrite length_seq. f_equal. unfold constants_at.
    apply list_eq. intros d.
    change (map ?f ?l) with (f <$> l). rewrite !list_lookup_fmap.
    destruct (decide (d < length constants)%nat) as [Hd | Hd].
    + rewrite lookup_seq_lt by assumption.
      destruct (lookup_lt_is_Some_2 constants d Hd) as [cd Hcd].
      rewrite Hcd. simpl. now rewrite Hcd.
    + rewrite lookup_seq_ge by lia. now rewrite lookup_ge_None_2 by lia.
  - intros k d Hd. apply lookup_seq in Hd as [-> Hlt]. simpl in *.
    destruct (lookup_lt_is_Some_2 constants k Hlt) as [cd Hcd].
    rewrite (getitem_Some _ _ _ Hcd). cbn [bind].
    pose proof (Forall_lookup_1 _ _ _ _ Hlen Hcd) as Hi. simpl in Hi.
    destruct (lookup_lt_is_Some_2 cd i Hi) as [c Hc].
    rewrite (getitem_Some _ _ _ Hc), Hcd. simpl. now rewrite Hc.
Qed.

Lemma stark_trace_loop (n : nat) : forall (s : nat) (pre : list (list Z)) (w : list Z),
  Forall (fun cd => (s + n <= length cd)%nat) constants ->
  for_each (seq s n) (Stark.trace_round constants step_fn) (pre ++ [w])
  = Ok (pre ++ orbit (stark_next constants step_fn) s w n).
Proof.
  induction n as [|n IH]; intros s pre w Hlen; [reflexivity |].
  cbn [seq for_each orbit]. unfold Stark.trace_round at 1.
  rewrite poly_constants_comp by (eapply Forall_impl; [exact Hlen | simpl; lia]).
  cbn [bind]. rewrite getlast_snoc. cbn [bind].
  fold (stark_next constants step_fn s w).
  rewrite IH by (eapply Forall_impl; [exact Hlen | simpl; lia]).
  now rewrite <- app_assoc.
Qed.

End StarkTraceFacts.

(** [stark.get_computational_trace], when every list of constants covers
    the [steps - 1] transitions: the trace starts at the input, each state
    is the step function applied to the one before and to the constants of
    the step, and the output is the last state. *)
Lemma stark_get_computational_trace_correct
    (inp : list Z) (steps : Z) (constants : list (list Z)) (step_fn : Stark.StepFn) :
  1 <= steps ->
  Forall (fun cd => steps - 1 <= Z.of_nat (length cd)) constants ->
  exists W output,
    Stark.get_computational_trace inp steps constants step_fn = Ok (W, output)
    /\ Z.of_nat (length W) = steps
    /\ W !! 0%nat = Some inp
    /\ (forall (i : nat) (state : list Z), Z.of_nat i < steps - 1 ->
          W !! i = Some state ->
          W !! S i = Some (stark_next constants step_fn i state))
    /\ W !! Z.to_nat (steps - 1) = Some output.
Proof.
  intros Hsteps Hlen. unfold Stark.get_computational_trace, range.
  rewrite (stark_trace_loop constants step_fn _ 0 [] inp)
    by (eapply Forall_impl; [exact Hlen | simpl; lia]).
  cbn [bind app].
  destruct (orbit_last (stark_next constants step_fn) (Z.to_nat (steps - 1)) 0 inp)
    as (out & Hout & Hlast).
  rewrite Hlast. cbn [bind]. eexists _, _. split; [reflexivity |].
  split; [rewrite orbit_length; lia |].
  split; [now destruct (Z.to_nat (steps - 1)) |].
  split; [| exact Hout].
  intros i state Hi Hstate.
  apply (orbit_lookup_S _ _ 0 inp i state); [lia | exact Hstate].
Qed.

(** With fewer constants than transitions (64 round constants for 512
    steps in the MiMC test), the lookup [constants[d][i]] runs off the list. *)
Example stark_get_computational_trace_short_constants :
  Stark.get_computational_trace [5] 4 [[1; 2]] Sample.cube = Raise IndexError.
Proof. reflexivity. Qed.



(** Scenario A of the specification: the Fibonacci trace. *)
Example fibonacci_trace :
  Air.get_computational_trace [0; 1] 8 2 Sample.fibonacci
  = Ok ([[0; 1]; [1; 1]; [1; 2]; [2; 3]; [3; 5]; [5; 8]; [8; 13]; [13; 21]],
        [13; 21]).
Proof. reflexivity. Qed.

(** ** [stark.py]: the openings *)

Lemma lookup_triples {A B : Type} (f1 f2 f3 : A -> B) (l : list A) :
  forall (i : nat) (x : A),
    l !! i = Some x ->
    flat_map (fun a => [f1 a; f2 a; f3 a]) l !! (i * 3)%nat = Some (f1 x)
    /\ flat_map (fun a => [f1 a; f2 a; f3 a]) l !! (i * 3 + 1)%nat = Some (f2 x)
    /\ flat_map (fun a => [f1 a; f2 a; f3 a]) l !! (i * 3 + 2)%nat = Some (f3 x).
Proof.
  induction l as [|a l IH]; intros i x Hx; [discriminate |].
  destruct i as [|i]; cbn [flat_map].
  - injection Hx as <-. repeat split.
  - destruct (IH i x Hx) as (H1 & H2 & H3).
    replace (S i * 3)%nat with (3 + i * 3)%nat by lia.
    repeat split; [exact H1 | exact H2 | exact H3].
Qed.

Lemma length_triples {A B : Type} (f1 f2 f3 : A -> B) (l : list A) :
  length (flat_map (fun a => [f1 a; f2 a; f3 a]) l) = (3 * length l)%nat.
Proof. induction l as [|a l IH]; simpl; [reflexivity | rewrite IH; lia]. Qed.

Lemma pymod_nonzero (a b : Z) : b <> 0 -> pymod a b = Ok (a mod b).
Proof. intros Hb. unfold pymod. now destruct (Z.eqb_spec b 0). Qed.

Lemma floordiv_nonzero (a b : Z) : b <> 0 -> floordiv a b = Ok (a / b).
Proof. intros Hb. unfold floordiv. now destruct (Z.eqb_spec b 0). Qed.




Section StarkFacts.

Import Stark.

Context {FriProof : Type} (E : Imports FriProof).

(** The loop of [compute_merkle_spot_checks] appends three branches per
    position. *)
Lemma spot_checks_loop (tree l_mtree : mtree) (params : StarkParams)
    (positions : list Z) :
  params_precision params <> 0 ->
  forall acc : list branch,
    for_each positions
      (fun pos branches =>
         let branches := branches ++ [mk_branch E tree pos] in
         let* pos' := pymod (pos + params_extension_factor params)
                            (params_precision params) in
         let branches := branches ++ [mk_branch E tree pos'] in
         let branches := branches ++ [mk_branch E l_mtree pos] in
         Ok branches)
      acc
    = Ok (acc ++ flat_map
                   (fun pos =>
                      [mk_branch E tree pos;
                       mk_branch E tree ((pos + params_extension_factor params)
                                         mod params_precision params);
                       mk_branch E l_mtree pos])
                   positions).
Proof.
  intros Hprec. induction positions as [|pos positions IH]; intros acc.
  - simpl. now rewrite app_nil_r.
  - cbn [for_each flat_map]. rewrite pymod_nonzero by assumption.
    cbn [bind]. rewrite IH. f_equal. rewrite <- !app_assoc. reflexivity.
Qed.

Lemma int_from_bytes_bound (bs : list byte) : forall acc : Z,
  0 <= acc ->
  0 <= fold_left (fun a b => a * 256 + Z.of_N (Byte.to_N b)) bs acc
    < (acc + 1) * 256 ^ Z.of_nat (length bs).
Proof.
  induction bs as [|b bs IH]; intros acc Hacc.
  - simpl. lia.
  - cbn [fold_left length]. rewrite Nat2Z.inj_succ, Z.pow_succ_r by lia.
    pose proof (Byte.to_N_bounded b) as Hb.
    specialize (IH (acc * 256 + Z.of_N (Byte.to_N b)) ltac:(lia)).
    assert (0 < 256 ^ Z.of_nat (length bs)) by (apply Z.pow_pos_nonneg; lia).
    nia.
Qed.

(** A challenge is the integer a digest encodes. *)
Lemma challenge_range (root : bytes) (tag : byte) :
  length (blake E (root ++ [tag])) = 32%nat ->
  0 <= challenge E root tag < 2 ^ 256.
Proof.
  intros Hlen. unfold challenge, int_from_bytes.
  pose proof (int_from_bytes_bound (blake E (root ++ [tag])) 0 ltac:(lia)) as H.
  rewrite Hlen in H. change (Z.of_nat 32) with 32 in H.
  change (256 ^ 32) with (2 ^ 256) in H. lia.
Qed.

End StarkFacts.

(** ** [stark.py]: the claims *)

Section StarkClaims.

Import Stark.

Context {FriProof : Type} (E : Imports FriProof).

(** C9. When the index sampler returns [spot_check_security_factor]
    positions, the openings [compute_merkle_spot_checks] returns have length
    [3 * spot_check_security_factor], and for the [i]-th sampled position
    [pos] the entries [3i], [3i+1] and [3i+2] (the ones
    [verify_proof_at_position] reads as [branches[i * 3]],
    [branches[i * 3 + 1]], [branches[i * 3 + 2]]) are the main-tree branch at
    [pos], the main-tree branch at [(pos + extension_factor) % precision] and
    the L-tree branch at [pos]. *)
Theorem spot_checks_layout (tree l_mtree : mtree) (comp : Computation)
    (params : StarkParams) (l_root : bytes) :
  l_mtree !! 1%nat = Some l_root ->
  params_precision params <> 0 ->
  Z.of_nat (length (get_pseudorandom_indices E l_root (params_precision params)
                      spot_check_security_factor (params_extension_factor params)))
  = spot_check_security_factor ->
  exists branches,
    compute_merkle_spot_checks E tree l_mtree comp params = Ok branches
    /\ Z.of_nat (length branches) = 3 * spot_check_security_factor
    /\ forall (i : nat) (pos : Z),
         get_pseudorandom_indices E l_root (params_precision params)
           spot_check_security_factor (params_extension_factor params) !! i
         = Some pos ->
         getitem branches (i * 3) = Ok (mk_branch E tree pos)
         /\ getitem branches (i * 3 + 1)
            = Ok (mk_branch E tree ((pos + params_extension_factor params)
                                    mod params_precision params))
         /\ getitem branches (i * 3 + 2) = Ok (mk_branch E l_mtree pos).
Proof.
  intros Hroot Hprec Hcount. unfold compute_merkle_spot_checks.
  rewrite (getitem_Some _ _ _ Hroot). cbn [bind].
  rewrite (spot_checks_loop E tree l_mtree params _ Hprec []). cbn [app].
  eexists. split; [reflexivity |]. split.
  - rewrite length_triples, Nat2Z.inj_mul, Hcount. reflexivity.
  - intros i pos Hpos.
    destruct (lookup_triples
                (mk_branch E tree)
                (fun pos => mk_branch E tree ((pos + params_extension_factor params)
                                              mod params_precision params))
                (mk_branch E l_mtree) _ i pos Hpos) as (H1 & H2 & H3).
    repeat split; apply getitem_Some; assumption.
Qed.


(** C1, on the code: [mk_proof] never returns a proof. The call
    [Computation(inp, steps, constants, step_fn)] gives four arguments to a
    constructor of five parameters, so the run ends in an exception
    whatever the arguments and whatever follows the call. *)
Theorem mk_proof_raises (pipeline : Computation -> StarkParams -> result Proof)
    (inp : pyobj) (steps : Z) (constants : list (list Z)) (step_fn : StepFn)
    (constraint_degree dims extension_factor : Z) :
  exists e,
    mk_proof E pipeline inp steps constants step_fn constraint_degree dims
             extension_factor = Raise e.
Proof.
  unfold mk_proof.
  destruct (floordiv (2 ^ 32) extension_factor) as [q|e]; [| now exists e].
  cbn [bind].
  destruct (assert (steps <=? q)) as [[]|e]; [| now exists e]. cbn [bind].
  destruct (assert (is_a_power_of_2 E steps)) as [[]|e]; [| now exists e]. cbn [bind].
  destruct (for_each constants _ tt) as [[]|e]; [| now exists e]. cbn [bind].
  exists TypeError. reflexivity.
Qed.

(** C2, as the code has it: [verify_proof] never returns [False]; it
    returns [True] or raises. A failed check is an exception for the caller:
    a step count above [2**32 // extension_factor] raises [AssertionError],
    and [verify_proof_at_position] returns (the value [None]) only when the
    three Merkle openings verify and the transition, boundary and
    linear-combination identities hold at the sampled position; in every
    other case it raises. *)
Theorem verify_proof_true_or_raises (inp : pyobj) (steps : Z)
    (constants : list (list Z)) (output : pyobj) (proof : Proof)
    (step_fn : StepFn) (constraint_degree extension_factor : Z) :
  ((exists e, verify_proof E inp steps constants output proof step_fn
                constraint_degree extension_factor = Raise e)
   \/ verify_proof E inp steps constants output proof step_fn
        constraint_degree extension_factor = Ok true)
  /\ (extension_factor <> 0 -> 2 ^ 32 / extension_factor < steps ->
      verify_proof E inp steps constants output proof step_fn
        constraint_degree extension_factor = Raise AssertionError)
  /\ (forall comp params proof' ks i pos constants_polynomials,
        verify_proof_at_position E comp params proof' ks i pos constants_polynomials
        = Ok tt ->
        position_check_holds E comp params proof' ks i pos constants_polynomials).
Proof.
  split; [| split].
  - unfold verify_proof.
    repeat match goal with
           | |- context [bind ?m _] =>
               lazymatch m with
               | bind _ _ => fail
               | _ => destruct m as [?|?]; cbn [bind]; [| left; eexists; reflexivity]
               end
           | |- context [let '(_, _) := ?x in _] => destruct x
           end.
    right. reflexivity.
  - intros Hef Hsteps. unfold verify_proof.
    rewrite floordiv_nonzero by assumption. cbn [bind].
    destruct (Z.leb_spec steps (2 ^ 32 / extension_factor)); [lia |].
    reflexivity.
  - intros comp params [[[m_root l_root] branches] fri_proof] [[[k1 k2] k3] k4]
      i pos cps H.
    unfold verify_proof_at_position in H. unfold position_check_holds.
    destruct (getitem branches (i * 3)) as [branch1|] eqn:E1;
      [cbn [bind] in H | discriminate H].
    destruct (verify_branch E m_root pos branch1) as [mbranch1|] eqn:E2;
      [cbn [bind] in H | discriminate H].
    destruct (pymod _ _) as [pos'|] eqn:E3; [cbn [bind] in H | discriminate H].
    destruct (getitem branches (i * 3 + 1)) as [branch2|] eqn:E4;
      [cbn [bind] in H | discriminate H].
    destruct (verify_branch E m_root pos' branch2) as [mbranch2|] eqn:E5;
      [cbn [bind] in H | discriminate H].
    destruct (getitem branches (i * 3 + 2)) as [branch3|] eqn:E6;
      [cbn [bind] in H | discriminate H].
    destruct (verify_branch_int E l_root pos branch3) as [l_of_x|] eqn:E7;
      [cbn [bind] in H | discriminate H].
    destruct (f_div E _ _) as [zvalue|] eqn:E8; [cbn [bind] in H | discriminate H].
    destruct (comp_step_fn comp _ _) as [step|] eqn:E9;
      [cbn [bind] in H | discriminate H].
    destruct (assert _) as [[]|] eqn:A1 in H; [cbn [bind] in H | discriminate H].
    destruct (f_lagrange_interp_2 E _ _) as [interpolant|] eqn:E10;
      [cbn [bind] in H | discriminate H].
    destruct (assert _) as [[]|] eqn:A2 in H; [cbn [bind] in H | discriminate H].
    apply assert_Ok_inv, Z.eqb_eq in A1, A2, H.
    apply getitem_Ok_inv in E1, E4, E6.
    exists branch1, branch2, branch3, mbranch1, mbranch2, pos', l_of_x, zvalue, step,
      interpolant.
    cbv zeta. repeat split; assumption.
Qed.

End StarkClaims.

(** ** [stark.py]: closed instances *)

Import Stark.

(** The sample computation and parameters are what the constructors build. *)
Example sample_comp_built :
  Computation_new (Args5 1 (PInt 2) 2 [] Sample.cube)
  = Ok Sample.comp.
Proof. reflexivity. Qed.

Example sample_params_built :
  StarkParams_new Sample.imports Sample.comp modulus 2 = Ok Sample.params.
Proof. vm_compute. reflexivity. Qed.

Lemma spot_checks_layout_witness :
  exists branches,
    compute_merkle_spot_checks Sample.imports Sample.tree Sample.tree
                               Sample.comp Sample.params = Ok branches
    /\ Z.of_nat (length branches) = 3 * spot_check_security_factor
    /\ forall (i : nat) (pos : Z),
         get_pseudorandom_indices Sample.imports [x02]
           (params_precision Sample.params) spot_check_security_factor
           (params_extension_factor Sample.params) !! i
         = Some pos ->
         getitem branches (i * 3) = Ok (mk_branch Sample.imports Sample.tree pos)
         /\ getitem branches (i * 3 + 1)
            = Ok (mk_branch Sample.imports Sample.tree
                    ((pos + params_extension_factor Sample.params)
                     mod params_precision Sample.params))
         /\ getitem branches (i * 3 + 2)
            = Ok (mk_branch Sample.imports Sample.tree pos).
Proof.
  apply (spot_checks_layout Sample.imports Sample.tree Sample.tree
           Sample.comp Sample.params [x02]).
  - reflexivity.
  - discriminate.
  - reflexivity.
Defined.

(** C3, on the code: in [p_next[dim] - step_p[dim] % params.modulus] the
    reduction applies to the subtrahend only. On the low-degree extension
    of the trace [[2], [8]] of [x -> x**3] the entry at position 2 is
    [2 - 512 = -510], which is not in [[0, p)]. *)
Theorem construct_constraint_polynomial_negative_entry
    (FriProof : Type) (E : Imports FriProof) :
  exists c_of_p_evals,
    construct_constraint_polynomial E Sample.comp Sample.params Sample.p_evaluations
    = Ok c_of_p_evals
    /\ c_of_p_evals !! 2%nat = Some [-510]
    /\ ~ (0 <= -510 < modulus).
Proof.
  eexists. split; [vm_compute; reflexivity |].
  split; [reflexivity | lia].
Qed.

(** C1, at an input: two steps of [x -> x**3] from [2]. *)
Example mk_proof_raises_TypeError
    (pipeline : Computation -> StarkParams -> result Proof) :
  mk_proof Sample.imports pipeline (ObjInt 2) 2 [] Sample.cube 2 1 2 = Raise TypeError.
Proof. reflexivity. Qed.

(** The openings of an honest prover at position 1 pass the check. *)
Example good_opening_accepted :
  verify_proof_at_position Sample.imports Sample.comp Sample.params Sample.good_proof
    (challenges Sample.imports Sample.digest_ff) 0 1 [] = Ok tt.
Proof. vm_compute. reflexivity. Qed.

Lemma verify_proof_true_or_raises_witness :
  verify_proof Sample.imports (ObjInt 2) (2 ^ 32) [] (ObjInt 8) Sample.bad_proof
               Sample.cube 2 8 = Raise AssertionError
  /\ position_check_holds Sample.imports Sample.comp Sample.params Sample.good_proof
       (challenges Sample.imports Sample.digest_ff) 0 1 [].
Proof.
  destruct (verify_proof_true_or_raises Sample.imports (ObjInt 2) (2 ^ 32) []
              (ObjInt 8) Sample.bad_proof Sample.cube 2 8) as (_ & Hsteps & Hpos).
  split.
  - apply Hsteps; [discriminate | reflexivity].
  - apply Hpos. vm_compute. reflexivity.
Defined.

(** C2, as stated, fails: a failed check is not turned into [False]. A step
    count above the bound makes [verify_proof] raise [AssertionError], and an
    opening that breaks the transition identity makes
    [verify_proof_at_position] raise [AssertionError]. *)
Lemma verify_proof_failure_is_exception :
  verify_proof Sample.imports (ObjInt 2) (2 ^ 32 + 1) [] (ObjInt 8) Sample.bad_proof
               Sample.cube 2 8 = Raise AssertionError
  /\ verify_proof_at_position Sample.imports Sample.comp Sample.params Sample.bad_proof
       (challenges Sample.imports Sample.digest_ff) 0 1 [] = Raise AssertionError.
Proof. split; vm_compute; reflexivity. Qed.

(** * Further properties *)

(** ** More on [multi_inv] *)

Section MultiInvMore.

Variable p : Z.
Hypothesis p_prime : Z.prime p.

Local Notation "a == b" := (eqm p a b) (at level 70).

(** The output of [multi_inv] is a vector of field elements. *)
Lemma multi_inv_felts (vs outs : list Z) :
  Forall (is_felt p) vs ->
  multi_inv p vs = Ok outs ->
  Forall (is_felt p) outs.
Proof.
  intros Hvs Hrun.
  destruct (multi_inv_spec p p_prime vs Hvs) as (outs' & Hrun' & Hlen & Hspec).
  assert (outs' = outs) by congruence. subst outs'.
  apply Forall_lookup. intros j o Ho.
  destruct (lookup_lt_is_Some_2 vs j) as [v Hv].
  { rewrite <- Hlen. now apply lookup_lt_Some in Ho. }
  destruct (Hspec j v Hv) as (o' & Ho' & [[_ ->] | (_ & Hfelt & _)]).
  - assert (o = 0) by congruence. subst o.
    pose proof (p_gt_1 p p_prime). unfold is_felt. lia.
  - congruence.
Qed.

(** An inverse is unique. *)
Lemma inverse_unique (a b v : Z) :
  is_felt p a -> is_felt p b -> fmul p a v = 1 -> fmul p v b = 1 -> a = b.
Proof.
  intros Ha Hb Hav Hvb. apply (eqm_felts p); try assumption.
  assert (H1 : a * v == 1) by (rewrite <- fmul_eqm, Hav; reflexivity).
  assert (H2 : v * b == 1) by (rewrite <- fmul_eqm, Hvb; reflexivity).
  transitivity (a * (v * b)); [rewrite H2; eqm_ring |].
  transitivity ((a * v) * b); [eqm_ring |]. rewrite H1. eqm_ring.
Qed.

Lemma fmul_one_nonzero (a b : Z) : fmul p a b = 1 -> a <> 0.
Proof.
  intros H ->. unfold fmul in H. rewrite Z.mul_0_l, Zmod_0_l in H. discriminate.
Qed.

End MultiInvMore.

(** Inverting twice gives the vector back: over a prime field, on a vector
    of field elements, [multi_inv] is its own inverse, the zero entries
    staying where they are. *)
Theorem multi_inv_involutive (p : Z) (v : list Z) :
  Z.prime p ->
  Forall (is_felt p) v ->
  exists w, multi_inv p v = Ok w /\ multi_inv p w = Ok v.
Proof.
  intros Hp Hv.
  destruct (multi_inv_spec p Hp v Hv) as (w & Hw & Hlen & Hspec).
  exists w. split; [exact Hw |].
  pose proof (multi_inv_felts p Hp v w Hv Hw) as Hwf.
  destruct (multi_inv_spec p Hp w Hwf) as (v' & Hv' & Hlen' & Hspec').
  rewrite Hv'. f_equal. apply list_eq. intros j.
  destruct (v !! j) as [x|] eqn:Hx.
  - destruct (Hspec j x Hx) as (o & Ho & Hcase).
    destruct (Hspec' j o Ho) as (x' & Hx' & Hcase').
    rewrite Hx'. f_equal.
    destruct Hcase as [[-> ->] | (Hnz & Hof & Hinv)].
    + destruct Hcase' as [[_ ->] | (Hnz' & _)]; [reflexivity | contradiction].
    + destruct Hcase' as [[Ho0 _] | (_ & Hxf' & Hinv')].
      * exfalso. exact (fmul_one_nonzero p o x Hinv Ho0).
      * apply (inverse_unique p x' x o); try assumption.
        exact (Forall_lookup_1 _ _ _ _ Hv Hx).
  - apply lookup_ge_None. apply lookup_ge_None in Hx. lia.
Qed.

Lemma multi_inv_involutive_witness :
  exists w, multi_inv 7 [3; 0; 5] = Ok w /\ multi_inv 7 w = Ok [3; 0; 5].
Proof.
  apply (multi_inv_involutive 7 [3; 0; 5] prime_7).
  repeat constructor; unfold is_felt; lia.
Defined.

(** ** More on [zpoly] *)

Section ZpolyMore.

Variable p : Z.
Hypothesis p_prime : Z.prime p.

Local Notation "a == b" := (eqm p a b) (at level 70).

Lemma mul_linear_carry_last (a : Z) (g : list Z) : forall c : Z,
  last (mul_linear_carry p c a g) = Some (default c (last g)).
Proof.
  induction g as [|g0 g IH]; intros c; cbn [mul_linear_carry]; [reflexivity |].
  rewrite !last_cons, IH. now destruct (last g).
Qed.

(** The product of the linear factors is monic. *)
Lemma roots_poly_last (roots : list Z) :
  last (roots_poly p roots) = Some (felt p 1).
Proof.
  induction roots as [|r roots IH] using rev_ind; [reflexivity |].
  rewrite roots_poly_snoc. unfold mul_linear.
  now rewrite mul_linear_carry_last, IH.
Qed.

Lemma poly_eval_roots_poly_zero (roots : list Z) (t : Z) :
  is_felt p t -> Forall (is_felt p) roots ->
  poly_eval p (roots_poly p roots) t = 0 <-> t ∈ roots.
Proof.
  intros Ht Hroots. pose proof (p_gt_1 p p_prime) as Hp. split.
  - intros H0. destruct (decide (t ∈ roots)) as [Hin | Hnotin]; [exact Hin |].
    exfalso. apply (prod_diff_nonzero p p_prime t roots Ht Hroots Hnotin).
    rewrite <- poly_eval_roots_poly, H0. reflexivity.
  - intros Hin. apply (eqm_felts p).
    + now apply poly_eval_is_felt.
    + unfold is_felt. lia.
    + rewrite poly_eval_roots_poly, (prod_diff_root t roots Hin). reflexivity.
Qed.

End ZpolyMore.

(** Over a prime field, [zpoly] on a list of [n] field elements returns
    [n + 1] coefficients with leading coefficient [1], and the polynomial
    vanishes at a field element exactly when it is one of the roots. *)
Theorem zpoly_vanishes_exactly_at_roots (p : Z) (roots : list Z) :
  Z.prime p ->
  Forall (is_felt p) roots ->
  exists f,
    zpoly p roots = Ok f
    /\ length f = S (length roots)
    /\ last f = Some 1
    /\ forall t, is_felt p t -> (poly_eval p f t = 0 <-> t ∈ roots).
Proof.
  intros Hp Hroots. exists (roots_poly p roots).
  split; [now apply zpoly_eq |].
  split; [apply roots_poly_length |].
  split; [rewrite roots_poly_last; f_equal; now apply felt_1 |].
  intros t Ht. now apply poly_eval_roots_poly_zero.
Qed.

Lemma zpoly_vanishes_exactly_at_roots_witness :
  exists f,
    zpoly 7 [2; 5; 2] = Ok f
    /\ length f = S (length [2; 5; 2])
    /\ last f = Some 1
    /\ forall t, is_felt 7 t -> (poly_eval 7 f t = 0 <-> t ∈ [2; 5; 2]).
Proof.
  apply (zpoly_vanishes_exactly_at_roots 7 [2; 5; 2] prime_7).
  repeat constructor; unfold is_felt; lia.
Defined.

(** [is_monic] accepts what [zpoly] builds, whatever the roots; on an
    empty coefficient list it raises [IndexError]. *)
Theorem is_monic_zpoly (p : Z) (roots : list Z) :
  Z.prime p ->
  (exists f, zpoly p roots = Ok f /\ is_monic p f = Ok true)
  /\ is_monic p [] = Raise IndexError.
Proof.
  intros Hp. split; [| reflexivity].
  exists (roots_poly p roots). split; [now apply zpoly_eq |].
  unfold is_monic, getlast. rewrite roots_poly_last. cbn [bind].
  now rewrite Z.eqb_refl.
Qed.

Lemma is_monic_zpoly_witness :
  (exists f, zpoly 7 [3; 4] = Ok f /\ is_monic 7 f = Ok true)
  /\ is_monic 7 [] = Raise IndexError.
Proof. apply (is_monic_zpoly 7 [3; 4] prime_7). Defined.

(** [construct_affine_vanishing_polynomial] returns a polynomial that
    vanishes at (the field element of) every element of the space. *)
Theorem construct_affine_vanishing_polynomial_vanishes (p : Z) (aff : list Z) :
  Z.prime p ->
  exists f,
    construct_affine_vanishing_polynomial p aff = Ok f
    /\ length f = S (length aff)
    /\ forall elt, elt ∈ aff -> poly_eval p f (felt p elt) = 0.
Proof.
  intros Hp. unfold construct_affine_vanishing_polynomial.
  assert (Hfelts : Forall (is_felt p) (map (felt p) aff)).
  { apply Forall_forall. intros x Hx. apply list_elem_of_In, in_map_iff in Hx.
    destruct Hx as (a & <- & _). now apply mod_is_felt. }
  exists (roots_poly p (map (felt p) aff)).
  split; [now apply zpoly_eq |].
  split; [now rewrite roots_poly_length, length_map |].
  intros elt Helt. apply (poly_eval_roots_poly_zero p Hp); [now apply mod_is_felt | exact Hfelts |].
  apply list_elem_of_In, in_map, list_elem_of_In. exact Helt.
Qed.

Lemma construct_affine_vanishing_polynomial_vanishes_witness :
  exists f,
    construct_affine_vanishing_polynomial 7 [0; 9; 11] = Ok f
    /\ length f = S (length [0; 9; 11])
    /\ forall elt, elt ∈ [0; 9; 11] -> poly_eval 7 f (felt 7 elt) = 0.
Proof. apply (construct_affine_vanishing_polynomial_vanishes 7 [0; 9; 11] prime_7). Defined.

(** ** More on the interpolations *)

(** [lagrange_interp] checks the lengths: with as many nodes as values it
    goes on, otherwise the assertion [len(root) == len(ys) + 1] fails. *)
Theorem lagrange_interp_length_mismatch (p : Z) (xs ys : list Z) :
  Z.prime p ->
  length xs <> length ys ->
  lagrange_interp p xs ys = Raise AssertionError.
Proof.
  intros Hp Hlen. unfold lagrange_interp. rewrite zpoly_eq by assumption.
  cbn [bind]. rewrite roots_poly_length.
  destruct (Nat.eqb_spec (S (length xs)) (length ys + 1)) as [Heq | _]; [lia |].
  reflexivity.
Qed.

Lemma lagrange_interp_length_mismatch_witness :
  lagrange_interp 7 [1; 2; 3] [4; 5] = Raise AssertionError.
Proof.
  apply (lagrange_interp_length_mismatch 7 [1; 2; 3] [4; 5] prime_7).
  simpl. lia.
Defined.

Section LagrangeRepeated.

Variable p : Z.
Hypothesis p_prime : Z.prime p.

Local Notation "a == b" := (eqm p a b) (at level 70).

Variables xs ys : list Z.
Hypothesis xs_felts : Forall (is_felt p) xs.
Hypothesis ys_felts : Forall (is_felt p) ys.
Hypothesis same_length : length xs = length ys.

Local Notation "'num'" := (lagrange_num p xs).
Local Notation "'denom'" := (lagrange_denom p xs).

(** The denominator of a node vanishes exactly when the node occurs at
    another index as well. *)
Lemma denom_zero_iff (i : nat) (x : Z) :
  xs !! i = Some x -> (denom i = 0 <-> x ∈ delete i xs).
Proof.
  intros Hx. unfold lagrange_denom, lagrange_num. rewrite Hx. cbn [default].
  apply poly_eval_roots_poly_zero; [assumption | |].
  - exact (Forall_lookup_1 _ _ _ _ xs_felts Hx).
  - now apply Forall_delete.
Qed.

(** The outer loop, over the indices [s .. s + m - 1], when repeated nodes
    are allowed: the inverse of a vanishing denominator is [0]. *)
Lemma lagrange_interp_outer_loop_repeated (invdenoms : list Z) :
  (forall i x, xs !! i = Some x ->
     exists o, invdenoms !! i = Some o
       /\ ((denom i = 0 /\ o = 0) \/ (denom i <> 0 /\ o * denom i == 1))) ->
  forall (m s : nat) (b : list Z),
    (s + m <= length xs)%nat ->
    length b = length xs ->
    exists b',
      for_each (seq s m)
        (lagrange_interp_outer p ys invdenoms (map num (seq 0 (length xs)))) b
      = Ok b'
      /\ length b' = length xs
      /\ (forall k x y, xs !! k = Some x -> ys !! k = Some y ->
            poly_eval p b' x
            == poly_eval p b x
               + (if decide (s <= k < s + m)%nat
                  then (if decide (x ∈ delete k xs) then 0 else y)
                  else 0)).
Proof.
  intros Hinv. induction m as [|m IH]; intros s b Hs Hb.
  - exists b. split; [reflexivity |]. split; [assumption |].
    intros k x y _ _. destruct (decide (s <= k < s + 0)%nat); [lia | eqm_ring].
  - cbn [seq for_each].
    destruct (lookup_lt_is_Some_2 xs s ltac:(lia)) as [xi Hxi].
    destruct (lookup_lt_is_Some_2 ys s ltac:(lia)) as [yi Hyi].
    destruct (Hinv s xi Hxi) as (di & Hdi & Hdcase).
    unfold lagrange_interp_outer at 1.
    rewrite (getitem_Some _ _ _ Hyi), (getitem_Some _ _ _ Hdi). cbn [bind].
    rewrite (getitem_Some _ _ _ (lookup_map_seq num (length xs) s ltac:(lia))).
    cbn [bind].
    assert (Hnl : forall i, (i < length xs)%nat -> length (num i) = length xs)
      by (intros i Hi; exact (num_length p xs ys same_length i Hi)).
    assert (Hbn : length b = length (num s)) by (rewrite Hnl; lia).
    pose proof (lagrange_interp_inner_loop p yi (fmul p yi di) b (num s) [] []
                  eq_refl Hbn) as Hinner.
    cbn [length app] in Hinner.
    replace (range (length ys)) with (seq 0 (length b))
      by (unfold range; f_equal; lia).
    rewrite Hinner. cbn [bind].
    set (b1 := add_scaled p yi (fmul p yi di) b (num s)).
    assert (Hb1 : length b1 = length xs).
    { unfold b1, add_scaled. rewrite length_zip_with, Hnl by lia. lia. }
    destruct (IH (S s) b1 ltac:(lia) Hb1) as (b' & Hrun & Hlen & Hev).
    exists b'. split; [exact Hrun |]. split; [exact Hlen |].
    intros k x y Hx Hy. rewrite (Hev k x y Hx Hy).
    unfold b1. rewrite poly_eval_add_scaled.
    2:{ rewrite Hnl; lia. }
    2:{ intros ->. unfold fmul. rewrite Z.mul_0_l. rewrite Zmod_0_l. reflexivity. }
    destruct (decide (k = s)) as [-> | Hne].
    + assert (x = xi) by congruence. assert (y = yi) by congruence. subst x y.
      assert (Hd : poly_eval p (num s) xi = denom s)
        by (unfold lagrange_denom; now rewrite Hxi).
      rewrite Hd.
      destruct (decide (S s <= s < S s + m)%nat); [lia |].
      destruct (decide (s <= s < s + S m)%nat); [| lia].
      destruct Hdcase as [[Hd0 ->] | [Hdnz Hdinv]].
      * destruct (decide (xi ∈ delete s xs)) as [_ | Hnotin].
        -- rewrite Hd0. fnorm0. eqm_ring.
        -- exfalso. apply Hnotin. now apply (denom_zero_iff s xi Hxi).
      * destruct (decide (xi ∈ delete s xs)) as [Hin | _].
        -- exfalso. apply Hdnz. now apply (denom_zero_iff s xi Hxi).
        -- fnorm0. transitivity (poly_eval p b xi + yi * (di * denom s)); [eqm_ring |].
           rewrite Hdinv. eqm_ring.
    + rewrite (num_vanishes p xs ys same_length s k x Hx Hne).
      destruct (decide (S s <= k < S s + m)%nat);
        destruct (decide (s <= k < s + S m)%nat); try lia; eqm_ring.
Qed.

Lemma lagrange_interp_repeated :
  exists f,
    lagrange_interp p xs ys = Ok f
    /\ (forall i x y, xs !! i = Some x -> ys !! i = Some y ->
          poly_eval p f x = if decide (x ∈ delete i xs) then 0 else y).
Proof.
  pose proof (p_gt_1 p p_prime) as Hp1.
  unfold lagrange_interp. rewrite zpoly_eq by assumption. cbn [bind].
  rewrite roots_poly_length. rewrite same_length.
  replace (S (length ys) =? length ys + 1)%nat with true
    by (symmetry; apply Nat.eqb_eq; lia).
  cbn [assert bind]. rewrite <- same_length.
  rewrite lagrange_nums by assumption. cbn [bind].
  rewrite lagrange_denoms. cbn [bind].
  destruct (multi_inv_spec p p_prime (map denom (seq 0 (length xs))))
    as (invdenoms & Hmi & Hmilen & Hmispec).
  { apply Forall_forall. intros d Hd. apply list_elem_of_In, in_map_iff in Hd.
    destruct Hd as (i & <- & _). apply poly_eval_is_felt. assumption. }
  rewrite Hmi. cbn [bind].
  assert (Hinv : forall i x, xs !! i = Some x ->
            exists o, invdenoms !! i = Some o
              /\ ((denom i = 0 /\ o = 0) \/ (denom i <> 0 /\ o * denom i == 1))).
  { intros i x Hx. pose proof (lookup_lt_Some _ _ _ Hx) as Hlt.
    destruct (Hmispec i (denom i) (lookup_map_seq denom _ i Hlt))
      as (o & Ho & [[Hz Ho0] | (Hnz & _ & Ho1)]).
    - exists o. split; [exact Ho |]. left. split; assumption.
    - exists o. split; [exact Ho |]. right. split; [exact Hnz |].
      unfold fmul in Ho1. unfold eqm. rewrite Ho1.
      symmetry. apply Z.mod_small. lia. }
  destruct (lagrange_interp_outer_loop_repeated invdenoms Hinv (length xs) 0
              (map (fun _ => 0) ys) (le_n _)
              ltac:(rewrite length_map; now symmetry))
    as (b & Hrun & Hlen & Hev).
  unfold range. rewrite Hrun. cbn [bind].
  eexists. split; [reflexivity |].
  intros i x y Hx Hy.
  apply (eqm_felts p); [apply poly_eval_is_felt; assumption | |].
  - destruct (decide (x ∈ delete i xs)); [unfold is_felt; lia |].
    exact (Forall_lookup_1 _ _ _ _ ys_felts Hy).
  - rewrite poly_eval_polysOver. rewrite (Hev i x y Hx Hy).
    rewrite poly_eval_zeros.
    pose proof (lookup_lt_Some _ _ _ Hx).
    destruct (decide (0 <= i < 0 + length xs)%nat); [eqm_ring | lia].
Qed.

End LagrangeRepeated.

(** [lagrange_interp] does not reject repeated nodes. Over a prime field,
    on as many nodes as values, it returns a polynomial whose value at a
    node that occurs once is the value given for it, and whose value at a
    node that occurs more than once is [0]. *)
Theorem lagrange_interp_repeated_nodes (p : Z) (xs ys : list Z) :
  Z.prime p ->
  Forall (is_felt p) xs ->
  Forall (is_felt p) ys ->
  length xs = length ys ->
  exists f,
    lagrange_interp p xs ys = Ok f
    /\ (forall i x y, xs !! i = Some x -> ys !! i = Some y ->
          poly_eval p f x = if decide (x ∈ delete i xs) then 0 else y).
Proof. intros Hp Hxs Hys Hlen. now apply lagrange_interp_repeated. Qed.

Lemma lagrange_interp_repeated_nodes_witness :
  exists f,
    lagrange_interp 7 [1; 2; 1] [3; 4; 5] = Ok f
    /\ (forall i x y, [1; 2; 1] !! i = Some x -> [3; 4; 5] !! i = Some y ->
          poly_eval 7 f x = if decide (x ∈ delete i [1; 2; 1]) then 0 else y).
Proof.
  apply (lagrange_interp_repeated_nodes 7 [1; 2; 1] [3; 4; 5] prime_7).
  - repeat constructor; unfold is_felt; lia.
  - repeat constructor; unfold is_felt; lia.
  - reflexivity.
Defined.

Section SmallRepeated.

Variable p : Z.
Hypothesis p_prime : Z.prime p.

Local Notation "a == b" := (eqm p a b) (at level 70).

(** The quotient by a field element that is congruent to zero. *)
Lemma fdiv_zero (a b : Z) : b == 0 -> fdiv p a (b mod p) = Raise DivisionByZero.
Proof.
  intros Hb. unfold fdiv. unfold eqm in Hb. rewrite Hb, Zmod_0_l.
  now rewrite finv_zero.
Qed.

End SmallRepeated.

(** [lagrange_interp_2] reads two nodes and divides by the product of their
    differences: with fewer than two nodes it raises [IndexError], and over
    a prime field, when the two nodes are the same, it raises the error of
    the inverse of zero. *)
Theorem lagrange_interp_2_errors (p : Z) :
  Z.prime p ->
  (forall xs ys : list Z,
     (length xs < 2)%nat -> lagrange_interp_2 p xs ys = Raise IndexError)
  /\ (forall (x : Z) (rest ys : list Z),
        lagrange_interp_2 p (x :: x :: rest) ys = Raise DivisionByZero).
Proof.
  intros Hp. split.
  - intros xs ys Hlen. unfold lagrange_interp_2.
    destruct xs as [|x0 [|x1 xs']]; simpl in Hlen; try lia; reflexivity.
  - intros x rest ys. unfold lagrange_interp_2.
    cbn [getitem lookup list_lookup bind].
    unfold fmul at 1. rewrite (fdiv_zero p Hp); [reflexivity |].
    fnorm. eqm_ring.
Qed.

Lemma lagrange_interp_2_errors_witness :
  lagrange_interp_2 7 [3] [1; 2] = Raise IndexError
  /\ lagrange_interp_2 7 [3; 3] [1; 2] = Raise DivisionByZero.
Proof.
  destruct (lagrange_interp_2_errors 7 prime_7) as [Hshort Hsame].
  split; [apply Hshort; simpl; lia | apply Hsame].
Defined.

(** [lagrange_interp_4] reads four nodes and divides by the product of the
    values of the four numerators: with fewer than four nodes it raises
    [IndexError], and over a prime field, when two of the four nodes are the
    same, it raises the error of the inverse of zero. *)
Theorem lagrange_interp_4_errors (p : Z) :
  Z.prime p ->
  (forall xs ys : list Z,
     (length xs < 4)%nat -> lagrange_interp_4 p xs ys = Raise IndexError)
  /\ (forall (x0 x1 x2 x3 : Z) (rest ys : list Z),
        ~ NoDup [x0; x1; x2; x3] ->
        lagrange_interp_4 p (x0 :: x1 :: x2 :: x3 :: rest) ys
        = Raise DivisionByZero).
Proof.
  intros Hp. split.
  - intros xs ys Hlen. unfold lagrange_interp_4.
    destruct xs as [|x0 [|x1 [|x2 [|x3 xs']]]]; simpl in Hlen; try lia; reflexivity.
  - intros x0 x1 x2 x3 rest ys Hdup. unfold lagrange_interp_4.
    cbn [getitem lookup list_lookup bind].
    unfold fmul at 1. rewrite (fdiv_zero p Hp); [reflexivity |].
    assert (Heq : x0 = x1 \/ x0 = x2 \/ x0 = x3 \/ x1 = x2 \/ x1 = x3 \/ x2 = x3).
    { destruct (decide (x0 = x1)); [tauto |]. destruct (decide (x0 = x2)); [tauto |].
      destruct (decide (x0 = x3)); [tauto |]. destruct (decide (x1 = x2)); [tauto |].
      destruct (decide (x1 = x3)); [tauto |]. destruct (decide (x2 = x3)); [tauto |].
      exfalso. apply Hdup. solve_NoDup. }
    fnorm.
    destruct Heq as [-> | [-> | [-> | [-> | [-> | ->]]]]]; eqm_ring.
Qed.

Lemma lagrange_interp_4_errors_witness :
  lagrange_interp_4 7 [1; 2; 3] [1; 2; 3; 4] = Raise IndexError
  /\ lagrange_interp_4 7 [1; 2; 1; 3] [1; 2; 3; 4] = Raise DivisionByZero.
Proof.
  destruct (lagrange_interp_4_errors 7 prime_7) as [Hshort Hsame].
  split; [apply Hshort; simpl; lia | apply Hsame].
  intros Hnd. apply NoDup_cons in Hnd as [Hnotin _].
  apply Hnotin. apply list_elem_of_lookup. exists 1%nat. reflexivity.
Defined.

(** ** [multi_interp_4] *)

(** A loop that appends one computed value per round is a comprehension. *)
Lemma for_each_append {A B : Type} (f : A -> result B) (xs : list A) :
  forall acc : list B,
    for_each xs (fun x o => let* y := f x in Ok (o ++ [y])) acc
    = let* ys := list_comp f xs in Ok (acc ++ ys).
Proof.
  induction xs as [|x xs IH]; intros acc; cbn [for_each list_comp bind].
  - now rewrite app_nil_r.
  - destruct (f x) as [y|e]; cbn [bind]; [| reflexivity].
    rewrite IH. destruct (list_comp f xs) as [ys|e]; cbn [bind]; [| reflexivity].
    now rewrite <- app_assoc.
Qed.

(** The entries of a concatenation of blocks of the same length. *)
Lemma lookup_flat_map_blocks {A B : Type} (f : A -> list B) (n : nat) (l : list A) :
  (forall a, length (f a) = n) ->
  forall (i k : nat) (x : A),
    l !! i = Some x -> (k < n)%nat ->
    flat_map f l !! (i * n + k)%nat = f x !! k.
Proof.
  intros Hn. induction l as [|a l IH]; intros i k x Hx Hk; [discriminate |].
  cbn [flat_map]. destruct i as [|i].
  - injection Hx as <-. cbn [Nat.mul Nat.add].
    apply lookup_app_l. rewrite Hn. exact Hk.
  - rewrite lookup_app_r by (rewrite Hn; lia).
    rewrite Hn. replace (S i * n + k - n)%nat with (i * n + k)%nat by lia.
    now apply IH.
Qed.

Section MultiInterpFacts.

Variable p : Z.
Hypothesis p_prime : Z.prime p.

Local Notation "a == b" := (eqm p a b) (at level 70).

(** What the first loop of [multi_interp_4] computes for four nodes. *)
Lemma interp_4_eqs_values (x0 x1 x2 x3 : Z) (eq0 eq1 eq2 eq3 : list Z)
    (e0 e1 e2 e3 : Z) :
  interp_4_eqs p x0 x1 x2 x3 = (eq0, eq1, eq2, eq3, (e0, e1, e2, e3)) ->
  (length eq0 = 4 /\ length eq1 = 4 /\ length eq2 = 4 /\ length eq3 = 4)%nat
  /\ Forall (is_felt p) [e0; e1; e2; e3]
  /\ e0 == (x0 - x1) * (x0 - x2) * (x0 - x3)
  /\ e1 == (x1 - x0) * (x1 - x2) * (x1 - x3)
  /\ e2 == (x2 - x0) * (x2 - x1) * (x2 - x3)
  /\ e3 == (x3 - x0) * (x3 - x1) * (x3 - x2).
Proof.
  unfold interp_4_eqs. intros H. injection H as <- <- <- <- <- <- <- <-.
  split; [repeat split |].
  split.
  { repeat apply Forall_cons_2; try apply Forall_nil_2;
      apply (mod_is_felt p p_prime). }
  repeat split; fnorm; eqm_ring.
Qed.

(** The combination of four polynomials of four coefficients is built. *)
Lemma interp_4_combination_Ok (eq0 eq1 eq2 eq3 : list Z) (a0 a1 a2 a3 : Z) :
  length eq0 = 4%nat -> length eq1 = 4%nat -> length eq2 = 4%nat ->
  length eq3 = 4%nat ->
  exists f, interp_4_combination p eq0 eq1 eq2 eq3 a0 a1 a2 a3 = Ok f.
Proof.
  intros H0 H1 H2 H3.
  destruct eq0 as [|? [|? [|? [|? [|]]]]]; try discriminate.
  destruct eq1 as [|? [|? [|? [|? [|]]]]]; try discriminate.
  destruct eq2 as [|? [|? [|? [|? [|]]]]]; try discriminate.
  destruct eq3 as [|? [|? [|? [|? [|]]]]]; try discriminate.
  eexists. reflexivity.
Qed.

(** The first loop of [multi_interp_4], on node sets of four nodes or
    more. *)
Lemma multi_interp_4_collect_loop (zs : list (list Z * list Z)) :
  Forall (fun xy => (4 <= length (fst xy))%nat) zs ->
  forall (data : list interp_data) (invtargets : list Z),
    for_each zs (multi_interp_4_collect p) (data, invtargets)
    = Ok (data ++ map (interp_4_data p) zs,
          invtargets ++ flat_map (fun xy => interp_4_targets p (fst xy)) zs).
Proof.
  induction 1 as [|[xs ys] zs Hxs _ IH]; intros data invtargets.
  - cbn [for_each map flat_map]. now rewrite !app_nil_r.
  - cbn [for_each map flat_map]. cbn [fst] in Hxs.
    destruct xs as [|x0 [|x1 [|x2 [|x3 rest]]]]; simpl in Hxs; try lia.
    unfold multi_interp_4_collect at 1, interp_4_data at 1, interp_4_targets at 1.
    cbn [getitem lookup list_lookup bind fst snd default from_option id].
    destruct (interp_4_eqs p x0 x1 x2 x3)
      as [[[[eq0 eq1] eq2] eq3] [[[e0 e1] e2] e3]].
    cbn [bind]. rewrite IH. now rewrite <- !app_assoc.
Qed.

Lemma interp_4_targets_length (xs : list Z) : length (interp_4_targets p xs) = 4%nat.
Proof.
  unfold interp_4_targets.
  now destruct (interp_4_eqs p _ _ _ _) as [[[[eq0 eq1] eq2] eq3] [[[e0 e1] e2] e3]].
Qed.

Lemma interp_4_targets_felts (xs : list Z) : Forall (is_felt p) (interp_4_targets p xs).
Proof.
  unfold interp_4_targets.
  destruct (interp_4_eqs p _ _ _ _) as [[[[eq0 eq1] eq2] eq3] [[[e0 e1] e2] e3]] eqn:E.
  now apply interp_4_eqs_values in E as (_ & Hf & _).
Qed.

(** [lagrange_interp_4], in terms of the same numerators and values. *)
Lemma lagrange_interp_4_unfold (x0 x1 x2 x3 : Z) (rest ys : list Z) :
  lagrange_interp_4 p (x0 :: x1 :: x2 :: x3 :: rest) ys =
  let '(eq0, eq1, eq2, eq3, (e0, e1, e2, e3)) := interp_4_eqs p x0 x1 x2 x3 in
  let* invall := fdiv p (felt p 1) (fmul p (fmul p e0 e1) (fmul p e2 e3)) in
  let* ys0 := getitem ys 0 in
  let* ys1 := getitem ys 1 in
  let* ys2 := getitem ys 2 in
  let* ys3 := getitem ys 3 in
  interp_4_combination p eq0 eq1 eq2 eq3
    (fmul p (fmul p (fmul p ys0 invall) e1) (fmul p e2 e3))
    (fmul p (fmul p (fmul p ys1 invall) e0) (fmul p e2 e3))
    (fmul p (fmul p (fmul p ys2 invall) (fmul p e0 e1)) e3)
    (fmul p (fmul p (fmul p ys3 invall) (fmul p e0 e1)) e2).
Proof. reflexivity. Qed.

(** One inverse per value against one inverse of the product. *)
Lemma scaled_inverse_eq (y invall o e rest : Z) :
  invall * (e * rest) == 1 ->
  o * e == 1 ->
  y * invall * rest == y * o.
Proof.
  intros Hall Ho.
  transitivity (y * invall * rest * (o * e)); [rewrite Ho; eqm_ring |].
  transitivity (y * o * (invall * (e * rest))); [eqm_ring |].
  rewrite Hall. eqm_ring.
Qed.

End MultiInterpFacts.

(** A comprehension whose every round returns returns, entry by entry. *)
Lemma list_comp_exists {A B : Type} (f : A -> result B) (xs : list A) :
  forall P : nat -> B -> Prop,
    (forall i x, xs !! i = Some x -> exists y, f x = Ok y /\ P i y) ->
    exists ys,
      list_comp f xs = Ok ys
      /\ length ys = length xs
      /\ forall i y, ys !! i = Some y -> P i y.
Proof.
  induction xs as [|x xs IH]; intros P HP.
  - exists []. repeat split. intros i y Hy. discriminate.
  - destruct (HP 0%nat x eq_refl) as (y & Hy & HPy).
    destruct (IH (fun i => P (S i)) (fun i x' Hx' => HP (S i) x' Hx'))
      as (ys & Hys & Hlen & HPys).
    exists (y :: ys). cbn [list_comp]. rewrite Hy. cbn [bind]. rewrite Hys.
    cbn [bind]. split; [reflexivity |]. split; [simpl; now rewrite Hlen |].
    intros [|i] z Hz; simpl in Hz.
    + now injection Hz as <-.
    + now apply HPys.
Qed.

Section MultiInterpMain.

Variable p : Z.
Hypothesis p_prime : Z.prime p.

Local Notation "a == b" := (eqm p a b) (at level 70).

(** One round of the second loop, for the [i]-th pair of a node set and a
    value set, given the inverses [multi_inv] returned for its block. *)
Lemma multi_interp_4_poly_spec (invalls : list Z) (i : nat) (xs ys : list Z) :
  length xs = 4%nat -> Forall (is_felt p) xs -> length ys = 4%nat ->
  (forall k e, interp_4_targets p xs !! k = Some e ->
     exists o, invalls !! (i * 4 + k)%nat = Some o
       /\ ((e = 0 /\ o = 0) \/ (e <> 0 /\ is_felt p o /\ fmul p o e = 1))) ->
  exists f,
    multi_interp_4_poly p invalls (i, interp_4_data p (xs, ys)) = Ok f
    /\ (NoDup xs -> lagrange_interp_4 p xs ys = Ok f).
Proof.
  intros Hlx Hxs Hly Hinv.
  destruct xs as [|x0 [|x1 [|x2 [|x3 [|]]]]]; try discriminate.
  destruct ys as [|y0 [|y1 [|y2 [|y3 [|]]]]]; try discriminate.
  unfold interp_4_targets in Hinv. unfold interp_4_data.
  cbn [fst snd lookup list_lookup default from_option id] in *.
  destruct (interp_4_eqs p x0 x1 x2 x3)
    as [[[[eq0 eq1] eq2] eq3] [[[e0 e1] e2] e3]] eqn:E.
  destruct (interp_4_eqs_values p p_prime _ _ _ _ _ _ _ _ _ _ _ _ E)
    as ((L0 & L1 & L2 & L3) & Hes & He0 & He1 & He2 & He3).
  destruct (Hinv 0%nat e0 eq_refl) as (o0 & Ho0 & C0).
  destruct (Hinv 1%nat e1 eq_refl) as (o1 & Ho1 & C1).
  destruct (Hinv 2%nat e2 eq_refl) as (o2 & Ho2 & C2).
  destruct (Hinv 3%nat e3 eq_refl) as (o3 & Ho3 & C3).
  assert (Hz : forall k o, (k < 4)%nat -> invalls !! (i * 4 + k)%nat = Some o ->
                 getitem (take 4 (drop (i * 4) invalls)) k = Ok o).
  { intros k o Hk Ho. apply getitem_Some.
    now rewrite lookup_take_lt, lookup_drop by lia. }
  unfold multi_interp_4_poly.
  cbn [getitem lookup list_lookup bind].
  change (match take 4 (drop (i * 4) invalls) !! ?k with
          | Some a => Ok a | None => Raise IndexError end)
    with (getitem (take 4 (drop (i * 4) invalls)) k).
  rewrite (Hz 0%nat o0), (Hz 1%nat o1), (Hz 2%nat o2), (Hz 3%nat o3)
    by (assumption || lia).
  cbn [bind].
  destruct (interp_4_combination_Ok p eq0 eq1 eq2 eq3
              (fmul p y0 o0) (fmul p y1 o1) (fmul p y2 o2) (fmul p y3 o3)
              L0 L1 L2 L3) as [f Hf].
  exists f. split; [exact Hf |].
  intros Hnd.
  repeat match goal with
         | H : Forall _ (_ :: _) |- _ => apply Forall_cons in H; destruct H as [? H]
         end.
  assert (x0 <> x1 /\ x0 <> x2 /\ x0 <> x3 /\ x1 <> x2 /\ x1 <> x3 /\ x2 <> x3)
    as (N01 & N02 & N03 & N12 & N13 & N23).
  { repeat match goal with
           | H : NoDup (_ :: _) |- _ => apply NoDup_cons in H; destruct H as [? H]
           | H : _ ∉ _ :: _ |- _ => apply not_elem_of_cons in H; destruct H as [? H]
           end.
    tauto. }
  assert (Hnz : forall a b c d, is_felt p a -> is_felt p b -> is_felt p c ->
                  is_felt p d -> a <> b -> a <> c -> a <> d ->
                  ~ (a - b) * (a - c) * (a - d) == 0).
  { intros. repeat apply (eqm_mul_nonzero p p_prime); now apply felts_distinct. }
  assert (Z0 : ~ e0 == 0) by (rewrite He0; now apply Hnz).
  assert (Z1 : ~ e1 == 0) by (rewrite He1; now apply Hnz).
  assert (Z2 : ~ e2 == 0) by (rewrite He2; now apply Hnz).
  assert (Z3 : ~ e3 == 0) by (rewrite He3; now apply Hnz).
  assert (Hone : forall e o, ~ e == 0 ->
                   (e = 0 /\ o = 0) \/ (e <> 0 /\ is_felt p o /\ fmul p o e = 1) ->
                   o * e == 1).
  { intros e o Hez [[-> _] | (_ & _ & Hoe)]; [exfalso; now apply Hez |].
    rewrite <- fmul_eqm, Hoe. reflexivity. }
  pose proof (Hone e0 o0 Z0 C0) as I0. pose proof (Hone e1 o1 Z1 C1) as I1.
  pose proof (Hone e2 o2 Z2 C2) as I2. pose proof (Hone e3 o3 Z3 C3) as I3.
  rewrite lagrange_interp_4_unfold, E.
  assert (Hunit : Z.gcd (fmul p (fmul p e0 e1) (fmul p e2 e3)) p = 1).
  { repeat apply fmul_coprime; apply nonzero_coprime; assumption. }
  destruct (fdiv_unit p p_prime (felt p 1) _ Hunit) as (invall & Hdiv & _ & Hall).
  rewrite Hdiv. cbn [getitem lookup list_lookup bind].
  assert (Hall' : invall * (e0 * e1 * (e2 * e3)) == 1).
  { transitivity (invall * fmul p (fmul p e0 e1) (fmul p e2 e3)); [fnorm0; reflexivity |].
    rewrite Hall. fnorm0. reflexivity. }
  assert (Q0 : fmul p (fmul p (fmul p y0 invall) e1) (fmul p e2 e3) = fmul p y0 o0).
  { change (fmul p (fmul p y0 invall) e1 * fmul p e2 e3 == y0 * o0). fnorm0.
    transitivity (y0 * invall * (e1 * (e2 * e3))); [eqm_ring |].
    apply (scaled_inverse_eq p y0 invall o0 e0); [| exact I0].
    rewrite <- Hall'. eqm_ring. }
  assert (Q1 : fmul p (fmul p (fmul p y1 invall) e0) (fmul p e2 e3) = fmul p y1 o1).
  { change (fmul p (fmul p y1 invall) e0 * fmul p e2 e3 == y1 * o1). fnorm0.
    transitivity (y1 * invall * (e0 * (e2 * e3))); [eqm_ring |].
    apply (scaled_inverse_eq p y1 invall o1 e1); [| exact I1].
    rewrite <- Hall'. eqm_ring. }
  assert (Q2 : fmul p (fmul p (fmul p y2 invall) (fmul p e0 e1)) e3 = fmul p y2 o2).
  { change (fmul p (fmul p y2 invall) (fmul p e0 e1) * e3 == y2 * o2). fnorm0.
    transitivity (y2 * invall * (e0 * e1 * e3)); [eqm_ring |].
    apply (scaled_inverse_eq p y2 invall o2 e2); [| exact I2].
    rewrite <- Hall'. eqm_ring. }
  assert (Q3 : fmul p (fmul p (fmul p y3 invall) (fmul p e0 e1)) e2 = fmul p y3 o3).
  { change (fmul p (fmul p y3 invall) (fmul p e0 e1) * e2 == y3 * o3). fnorm0.
    transitivity (y3 * invall * (e0 * e1 * e2)); [eqm_ring |].
    apply (scaled_inverse_eq p y3 invall o3 e3); [| exact I3].
    rewrite <- Hall'. eqm_ring. }
  rewrite Q0, Q1, Q2, Q3. exact Hf.
Qed.

End MultiInterpMain.

(** [multi_interp_4] interpolates a batch with one call of [multi_inv].
    Over a prime field, on node sets of four field elements and value sets
    of four values, it returns one polynomial per pair and never raises,
    repeated nodes included; for a node set of four distinct nodes the
    polynomial is the one [lagrange_interp_4] returns for the pair. *)
Theorem multi_interp_4_batches (p : Z) (xsets ysets : list (list Z)) :
  Z.prime p ->
  Forall (fun xs => length xs = 4%nat /\ Forall (is_felt p) xs) xsets ->
  Forall (fun ys => length ys = 4%nat) ysets ->
  exists o,
    multi_interp_4 p xsets ysets = Ok o
    /\ length o = Nat.min (length xsets) (length ysets)
    /\ forall i xs ys, xsets !! i = Some xs -> ysets !! i = Some ys ->
         exists f, o !! i = Some f
           /\ (NoDup xs -> lagrange_interp_4 p xs ys = Ok f).
Proof.
  intros Hp Hxsets Hysets. unfold multi_interp_4.
  set (zs := zip xsets ysets).
  assert (Hzs : forall i xs ys, zs !! i = Some (xs, ys) ->
                  xsets !! i = Some xs /\ ysets !! i = Some ys)
    by (intros i xs ys; apply lookup_zip_Some).
  rewrite multi_interp_4_collect_loop.
  2:{ apply Forall_lookup. intros i [xs ys] Hi. apply Hzs in Hi as [Hx _].
      destruct (Forall_lookup_1 _ _ _ _ Hxsets Hx) as [Hl _]. simpl. lia. }
  cbn [bind app].
  set (targets := flat_map (fun xy => interp_4_targets p (fst xy)) zs).
  destruct (multi_inv_spec p Hp targets) as (invalls & Hmi & _ & Hspec).
  { apply Forall_flat_map, Forall_forall. intros xy _.
    now apply interp_4_targets_felts. }
  rewrite Hmi. cbn [bind]. rewrite for_each_append. rewrite length_map.
  destruct (list_comp_exists (multi_interp_4_poly p invalls)
              (zip (seq 0 (length zs)) (map (interp_4_data p) zs))
              (fun i f => forall xs ys, xsets !! i = Some xs -> ysets !! i = Some ys ->
                            NoDup xs -> lagrange_interp_4 p xs ys = Ok f))
    as (o & Ho & Hlen & HP).
  { intros i [i' d] Hid. apply lookup_zip_Some in Hid as [Hi' Hd].
    apply lookup_seq in Hi' as [-> _]. cbn [Nat.add].
    change (map ?f ?l) with (f <$> l) in Hd. rewrite list_lookup_fmap in Hd.
    destruct (zs !! i) as [[xs ys]|] eqn:Hz; [| discriminate].
    injection Hd as <-.
    destruct (Hzs i xs ys Hz) as [Hx Hy].
    destruct (Forall_lookup_1 _ _ _ _ Hxsets Hx) as [Hlx Hfx].
    pose proof (Forall_lookup_1 _ _ _ _ Hysets Hy) as Hly. simpl in Hly.
    destruct (multi_interp_4_poly_spec p Hp invalls i xs ys Hlx Hfx Hly)
      as (f & Hf & Hagree).
    - intros k e Hk. apply Hspec. unfold targets.
      rewrite (lookup_flat_map_blocks _ 4 zs
                 (fun xy => interp_4_targets_length p (fst xy)) i k (xs, ys) Hz).
      + exact Hk.
      + apply lookup_lt_Some in Hk. now rewrite interp_4_targets_length in Hk.
    - exists f. split; [exact Hf |].
      intros xs' ys' Hx' Hy' Hnd.
      assert (xs' = xs) by congruence. assert (ys' = ys) by congruence. subst.
      now apply Hagree. }
  rewrite Ho. cbn [bind app]. exists o. split; [reflexivity |].
  assert (Hlen' : length o = Nat.min (length xsets) (length ysets)).
  { rewrite Hlen, length_zip, length_seq, length_map. unfold zs.
    rewrite length_zip. lia. }
  split; [exact Hlen' |].
  intros i xs ys Hx Hy.
  destruct (lookup_lt_is_Some_2 o i) as [f Hf].
  { rewrite Hlen'. apply lookup_lt_Some in Hx, Hy. lia. }
  exists f. split; [exact Hf |]. now apply (HP i f Hf).
Qed.

Lemma multi_interp_4_batches_witness :
  exists o,
    multi_interp_4 7 [[0; 1; 2; 3]; [1; 2; 1; 4]] [[2; 5; 3; 6]; [1; 1; 1; 1]] = Ok o
    /\ length o = Nat.min (length [[0; 1; 2; 3]; [1; 2; 1; 4]])
                          (length [[2; 5; 3; 6]; [1; 1; 1; 1]])
    /\ forall i xs ys, [[0; 1; 2; 3]; [1; 2; 1; 4]] !! i = Some xs ->
         [[2; 5; 3; 6]; [1; 1; 1; 1]] !! i = Some ys ->
         exists f, o !! i = Some f
           /\ (NoDup xs -> lagrange_interp_4 7 xs ys = Ok f).
Proof.
  apply (multi_interp_4_batches 7 [[0; 1; 2; 3]; [1; 2; 1; 4]]
           [[2; 5; 3; 6]; [1; 1; 1; 1]] prime_7).
  - repeat constructor; unfold is_felt; lia.
  - repeat constructor.
Defined.

Section AirClass.

Import Air.

(** ** The class [AIR] *)

Lemma map_lookup_seq {A : Type} (d : A) (l : list A) :
  map (fun j => default d (l !! j)) (seq 0 (length l)) = l.
Proof.
  apply list_eq. intros i.
  change (map ?f ?k) with (f <$> k). rewrite list_lookup_fmap.
  destruct (decide (i < length l)%nat) as [Hi | Hi].
  - rewrite lookup_seq_lt by assumption. simpl.
    destruct (lookup_lt_is_Some_2 l i Hi) as [x Hx]. now rewrite Hx.
  - rewrite lookup_seq_ge by lia. simpl. symmetry. apply lookup_ge_None. lia.
Qed.

(** Every state of a trace after the first has one entry per step
    polynomial. *)
Lemma orbit_air_next_lengths (step_polys : list Air.StepPoly) (n : nat) :
  forall (s : nat) (w : list Z),
    length w = length step_polys ->
    Forall (fun state => length state = length step_polys)
           (orbit (fun _ => air_next step_polys) s w n).
Proof.
  induction n as [|n IH]; intros s w Hw; cbn [orbit].
  - now repeat constructor.
  - constructor; [exact Hw |]. apply IH. unfold air_next. apply length_map.
Qed.

(** The fields [computational_trace] and [output] as the constructor
    assigns them, from [get_computational_trace(inp, self.T, width,
    step_polys)]: the states of the computation, [T] of them, of [width]
    entries each. *)
Lemma computed_trace_shape (self : AIR) :
  1 <= air_T self ->
  air_w self = air_width self ->
  Z.of_nat (length (air_step_polys self)) = air_width self ->
  Z.of_nat (length (air_inp self)) = air_width self ->
  Air.get_computational_trace (air_inp self) (air_T self) (air_width self)
                              (air_step_polys self)
  = Ok (air_computational_trace self, air_output self) ->
  air_computational_trace self
  = orbit (fun _ => air_next (air_step_polys self)) 0 (air_inp self)
          (Z.to_nat (air_T self - 1))
  /\ air_well_formed self.
Proof.
  intros HT Hw Hsteps Hinp Htrace.
  unfold Air.get_computational_trace, range in Htrace.
  rewrite (air_trace_loop (air_width self) (air_step_polys self) Hsteps _ 0 []
             (air_inp self)) in Htrace.
  cbn [bind app] in Htrace.
  destruct (getlast _) as [out|] in Htrace; [| discriminate].
  cbn [bind] in Htrace. injection Htrace as Htr _.
  split; [now symmetry |].
  unfold air_well_formed. rewrite <- Htr, orbit_length.
  split; [lia |]. split; [| now symmetry].
  eapply Forall_impl.
  - apply orbit_air_next_lengths. lia.
  - simpl. intros state Hs. lia.
Qed.

Lemma for_each_ext {A St : Type} (body1 body2 : A -> St -> result St) (xs : list A) :
  (forall x st, body1 x st = body2 x st) ->
  forall st, for_each xs body1 st = for_each xs body2 st.
Proof.
  intros Hext. induction xs as [|x xs IH]; intros st; cbn [for_each]; [reflexivity |].
  rewrite Hext. destruct (body2 x st); cbn [bind]; [apply IH | reflexivity].
Qed.

Section AIRMethods.

Variable self : AIR.
Hypothesis wf : air_well_formed self.

Local Notation "'trace'" := (air_computational_trace self).
Local Notation "'nT'" := (Z.to_nat (air_T self)).
Local Notation "'nw'" := (Z.to_nat (air_w self)).

Lemma wf_length : length trace = nT.
Proof. destruct wf as (H & _). lia. Qed.

Lemma wf_state_length (i : nat) (state : list Z) :
  trace !! i = Some state -> length state = nw.
Proof.
  intros Hi. destruct wf as (_ & H & _).
  pose proof (Forall_lookup_1 _ _ _ _ H Hi) as Hl. simpl in Hl. lia.
Qed.

Lemma wf_width : Z.to_nat (air_width self) = nw.
Proof. destruct wf as (_ & _ & H). now rewrite H. Qed.

Lemma trace_entry_Some (i j : nat) :
  (i < nT)%nat -> (j < nw)%nat ->
  exists state, trace !! i = Some state /\ state !! j = Some (trace_entry trace i j).
Proof.
  intros Hi Hj.
  destruct (lookup_lt_is_Some_2 trace i) as [state Hs]; [rewrite wf_length; lia |].
  destruct (lookup_lt_is_Some_2 state j) as [v Hv].
  { rewrite (wf_state_length i state Hs). lia. }
  exists state. split; [exact Hs |]. unfold trace_entry. rewrite Hs. simpl.
  now rewrite Hv.
Qed.

(** The witness is the transpose of the trace. *)
Lemma generate_witness_eq :
  generate_witness self
  = Ok (map (fun j => map (fun i => trace_entry trace i j) (seq 0 nT)) (seq 0 nw)).
Proof.
  unfold generate_witness, range.
  rewrite (list_comp_map _ (seq 0 nw)
             (fun j => map (fun i => trace_entry trace i j) (seq 0 nT))).
  - now rewrite length_seq.
  - intros k j Hj. apply lookup_seq in Hj as [-> Hk]. cbn [Nat.add].
    rewrite (list_comp_map _ (seq 0 nT) (fun i => trace_entry trace i k)).
    + now rewrite length_seq.
    + intros m i Hi. apply lookup_seq in Hi as [-> Hm]. cbn [Nat.add].
      destruct (trace_entry_Some m k Hm Hk) as (state & Hs & Hv).
      rewrite (getitem_Some _ _ _ Hs). cbn [bind]. now apply getitem_Some.
Qed.

(** The column [Xs] the first loop of [generate_monotone_circuit] reads
    for step [i] is the state [i] of the trace. *)
Lemma witness_column (i : nat) (state : list Z) :
  trace !! i = Some state ->
  list_comp (fun j => let* Wj := getitem (map (fun j => map (fun i => trace_entry trace i j)
                                                         (seq 0 nT)) (seq 0 nw)) j in
                      getitem Wj i)
            (range (Z.to_nat (air_width self)))
  = Ok state.
Proof.
  intros Hs. rewrite wf_width. unfold range.
  pose proof (lookup_lt_Some _ _ _ Hs) as Hi. rewrite wf_length in Hi.
  rewrite (list_comp_map _ (seq 0 nw) (fun j => default 0 (state !! j))).
  - rewrite length_seq. rewrite <- (wf_state_length i state Hs).
    now rewrite map_lookup_seq.
  - intros k j Hj. apply lookup_seq in Hj as [-> Hk]. cbn [Nat.add].
    rewrite (getitem_Some _ _ _ (lookup_map_seq _ nw k Hk)). cbn [bind].
    rewrite (getitem_Some _ _ _ (lookup_map_seq _ nT i Hi)).
    unfold trace_entry. rewrite Hs. reflexivity.
Qed.

Variable polys : list Air.StepPoly.
Hypothesis polys_width : (nw <= length polys)%nat.

Lemma step_consistencies_eq (i : nat) (x y : list Z) :
  trace !! i = Some x -> trace !! S i = Some y ->
  step_consistencies self
    (map (fun j => map (fun i => trace_entry trace i j) (seq 0 nT)) (seq 0 nw))
    polys i
  = Ok (map (fun j => match polys !! j with
                      | Some poly => poly (x ++ y) =? 0
                      | None => false
                      end) (seq 0 nw)).
Proof.
  intros Hx Hy. unfold step_consistencies.
  rewrite (witness_column i x Hx). cbn [bind].
  replace (i + 1)%nat with (S i) by lia.
  rewrite (witness_column (S i) y Hy). cbn [bind].
  rewrite (for_each_ext _
             (fun j o => let* c := (let* poly := getitem polys j in
                                    Ok (poly (x ++ y) =? 0)) in
                         Ok (o ++ [c])))
    by (intros j o; now destruct (getitem polys j)).
  rewrite for_each_append.
  rewrite wf_width. unfold range.
  rewrite (list_comp_map _ (seq 0 nw)
             (fun j => match polys !! j with
                       | Some poly => poly (x ++ y) =? 0
                       | None => false
                       end)).
  - cbn [bind app]. now rewrite length_seq.
  - intros k j Hj. apply lookup_seq in Hj as [-> Hk]. cbn [Nat.add].
    destruct (lookup_lt_is_Some_2 polys k ltac:(lia)) as [c Hc].
    rewrite (getitem_Some _ _ _ Hc). cbn [bind]. unfold Air.StepPoly in *.
    now rewrite Hc.
Qed.

End AIRMethods.

(** The conjunction loop of [generate_monotone_circuit] over one row. *)
Lemma step_conjunction_loop (self : AIR) (output_eval : list (list bool)) (i : nat)
    (row : list bool) :
  output_eval !! i = Some row ->
  forall (m s : nat) (tb : bool),
    (s + m <= length row)%nat ->
    for_each (seq s m)
      (fun j temp_bool =>
         if temp_bool : bool
         then let* row := getitem output_eval i in getitem row j
         else Ok temp_bool)
      tb
    = Ok (tb && forallb (fun j => default false (row !! j)) (seq s m)).
Proof.
  intros Hrow. induction m as [|m IH]; intros s tb Hs; cbn [seq for_each forallb].
  - now rewrite andb_true_r.
  - destruct tb; cbn [andb bind].
    + rewrite (getitem_Some _ _ _ Hrow) at 1. cbn [bind].
      destruct (lookup_lt_is_Some_2 row s ltac:(lia)) as [b Hb].
      rewrite (getitem_Some _ _ _ Hb), Hb. cbn [bind default from_option id].
      rewrite IH by lia. reflexivity.
    + rewrite IH by lia. reflexivity.
Qed.

Lemma all_steps_hold_eq (output : list bool) (r : nat -> bool) (steps : list nat) :
  (forall i, i ∈ steps -> output !! i = Some (r i)) ->
  all_steps_hold output steps = Ok (forallb r steps).
Proof.
  induction steps as [|i steps IH]; intros Hout; cbn [all_steps_hold forallb].
  - reflexivity.
  - rewrite (getitem_Some _ _ _ (Hout i ltac:(left))). cbn [bind].
    destruct (r i); cbn [negb andb]; [| reflexivity].
    apply IH. intros k Hk. apply Hout. now right.
Qed.

Lemma forallb_ext_in {A : Type} (f g : A -> bool) (l : list A) :
  (forall x, In x l -> f x = g x) -> forallb f l = forallb g l.
Proof.
  induction l as [|a l IH]; intros H; cbn [forallb]; [reflexivity |].
  rewrite (H a (or_introl eq_refl)). f_equal.
  apply IH. intros x Hx. apply H. now right.
Qed.

Lemma forallb_seq_last (h : nat -> bool) (n : nat) :
  (h n && forallb h (seq 0 n))%bool = forallb h (seq 0 (S n)).
Proof.
  rewrite seq_S, forallb_app. cbn [Nat.add forallb].
  rewrite andb_true_r. apply andb_comm.
Qed.

Section AIRCircuit.

Variable self : AIR.
Hypothesis wf : air_well_formed self.
Variable polys : list Air.StepPoly.
Hypothesis polys_width : (Z.to_nat (air_w self) <= length polys)%nat.
Hypothesis width_pos : 1 <= air_w self.

Local Notation "'trace'" := (air_computational_trace self).
Local Notation "'nT'" := (Z.to_nat (air_T self)).
Local Notation "'nw'" := (Z.to_nat (air_w self)).
Local Notation "'state' i" := (default [] (air_computational_trace self !! i))
  (at level 10, i at level 9).

Lemma state_lookup (i : nat) : (i < nT)%nat -> trace !! i = Some (state i).
Proof.
  intros Hi. destruct (lookup_lt_is_Some_2 trace i) as [x Hx].
  - rewrite (wf_length self wf). exact Hi.
  - now rewrite Hx.
Qed.

Lemma transition_row_eq (x y : list Z) :
  forallb (fun j => default false
                      (map (fun j => match polys !! j with
                                     | Some poly => poly (x ++ y) =? 0
                                     | None => false
                                     end) (seq 0 nw) !! j))
          (seq 0 nw)
  = transition_holds nw polys x y.
Proof.
  unfold transition_holds. apply forallb_ext_in.
  intros j Hj. apply in_seq in Hj.
  now rewrite lookup_map_seq by lia.
Qed.

Lemma generate_monotone_circuit_eq :
  generate_monotone_circuit self polys
  = Ok (forallb (fun i => transition_holds nw polys (state i) (state (S i)))
                (seq 0 (Z.to_nat (air_T self - 1)))).
Proof.
  unfold generate_monotone_circuit.
  rewrite (generate_witness_eq self wf). cbn [bind].
  set (W := map _ (seq 0 nw)).
  set (n1 := Z.to_nat (air_T self - 1)).
  assert (Hn1 : forall i, (i < n1)%nat -> (S i < nT)%nat) by (intros i; unfold n1; lia).
  set (row := fun i : nat =>
                map (fun j => match polys !! j with
                              | Some poly => poly (state i ++ state (S i)) =? 0
                              | None => false
                              end) (seq 0 nw)).
  (* the first loop *)
  rewrite for_each_append. unfold range.
  rewrite (list_comp_map _ (seq 0 n1) row).
  2:{ intros k i Hi. apply lookup_seq in Hi as [-> Hk]. cbn [Nat.add].
      apply (step_consistencies_eq self wf polys polys_width).
      - apply state_lookup. specialize (Hn1 k Hk). lia.
      - apply state_lookup. now apply Hn1. }
  cbn [bind app]. rewrite length_seq.
  set (output_eval := map row (seq 0 n1)).
  (* the second loop *)
  rewrite for_each_append.
  rewrite (list_comp_map _ (seq 0 n1)
             (fun i => transition_holds nw polys (state i) (state (S i)))).
  2:{ intros k i Hi. apply lookup_seq in Hi as [-> Hk]. cbn [Nat.add].
      unfold step_conjunction.
      assert (Hrow : output_eval !! k = Some (row k)) by now apply lookup_map_seq.
      rewrite (getitem_Some _ _ _ Hrow) at 1. cbn [bind].
      assert (Hlen : length (row k) = nw) by (unfold row; now rewrite length_map, length_seq).
      destruct (lookup_lt_is_Some_2 (row k) (nw - 1)) as [b Hb]; [lia |].
      assert (Hlast : getlast (row k) = Ok b).
      { unfold getlast. rewrite last_lookup, Hlen.
        replace (Nat.pred nw) with (nw - 1)%nat by lia. now rewrite Hb. }
      rewrite Hlast. cbn [bind].
      destruct wf as (_ & _ & Hww). rewrite Hww. unfold range.
      rewrite (step_conjunction_loop self output_eval k (row k) Hrow) by lia.
      f_equal. rewrite <- transition_row_eq. fold (row k).
      replace (Z.to_nat (air_w self - 1)) with (nw - 1)%nat by lia.
      transitivity (forallb (fun j => default false (row k !! j))
                            (seq 0 (S (nw - 1)))).
      - rewrite <- forallb_seq_last. now rewrite Hb.
      - do 2 f_equal. lia. }
  cbn [bind app]. rewrite length_seq.
  (* the third loop *)
  apply (all_steps_hold_eq _
           (fun i => transition_holds nw polys (state i) (state (S i)))).
  intros i Hi. apply elem_of_seq in Hi.
  apply (lookup_map_seq
           (fun i => transition_holds nw polys (state i) (state (S i)))). lia.
Qed.

End AIRCircuit.

(** [generate_witness] transposes the trace: on a well-formed object it
    returns [w] columns of [T] entries, and the entry [i] of the column [j]
    is the entry [j] of the state [i]. *)
Theorem generate_witness_transposes (self : AIR) :
  air_well_formed self ->
  exists W,
    generate_witness self = Ok W
    /\ length W = Z.to_nat (air_w self)
    /\ Forall (fun column => length column = Z.to_nat (air_T self)) W
    /\ forall i j state v,
         air_computational_trace self !! i = Some state -> state !! j = Some v ->
         exists column, W !! j = Some column /\ column !! i = Some v.
Proof.
  intros wf. eexists. split; [apply (generate_witness_eq self wf) |].
  split; [now rewrite length_map, length_seq |]. split.
  - apply Forall_forall. intros column Hc.
    apply list_elem_of_In, in_map_iff in Hc. destruct Hc as (j & <- & _).
    now rewrite length_map, length_seq.
  - intros i j state v Hs Hv.
    pose proof (lookup_lt_Some _ _ _ Hs) as Hi. rewrite (wf_length self wf) in Hi.
    pose proof (lookup_lt_Some _ _ _ Hv) as Hj.
    rewrite (wf_state_length self wf i state Hs) in Hj.
    eexists. split; [apply (lookup_map_seq _ _ j Hj) |].
    rewrite (lookup_map_seq _ _ i Hi). unfold trace_entry. rewrite Hs. simpl.
    now rewrite Hv.
Qed.

(** [generate_boundary_constraints] pins the first state: on a well-formed
    object whose trace starts at the input it returns [w] constraints, the
    one at index [j] being [(0, j, alpha)] with [alpha] the entry [j] of the
    state [0] of the trace. *)
Theorem generate_boundary_constraints_pin_input (self : AIR) :
  air_well_formed self ->
  air_computational_trace self !! 0%nat = Some (air_inp self) ->
  exists B,
    generate_boundary_constraints self = Ok B
    /\ length B = Z.to_nat (air_w self)
    /\ forall k i j alpha, B !! k = Some (i, j, alpha) ->
         i = 0%nat /\ j = k
         /\ exists state, air_computational_trace self !! i = Some state
                          /\ state !! j = Some alpha.
Proof.
  intros wf Hinp. unfold generate_boundary_constraints.
  rewrite (for_each_ext _
             (fun ind o => let* c := (let* alpha := getitem (air_inp self) ind in
                                      Ok (0%nat, ind, alpha)) in
                           Ok (o ++ [c])))
    by (intros ind o; now destruct (getitem (air_inp self) ind)).
  rewrite for_each_append. unfold range.
  pose proof (wf_state_length self wf 0 _ Hinp) as Hlen.
  rewrite (list_comp_map _ (seq 0 (Z.to_nat (air_w self)))
             (fun ind => (0%nat, ind, default 0 (air_inp self !! ind)))).
  2:{ intros k ind Hind. apply lookup_seq in Hind as [-> Hk]. cbn [Nat.add].
      destruct (lookup_lt_is_Some_2 (air_inp self) k ltac:(lia)) as [alpha Ha].
      rewrite (getitem_Some _ _ _ Ha), Ha. reflexivity. }
  cbn [bind app]. rewrite length_seq. eexists. split; [reflexivity |].
  split; [now rewrite length_map, length_seq |].
  intros k i j alpha Hk.
  pose proof (lookup_lt_Some _ _ _ Hk) as Hlt. rewrite length_map, length_seq in Hlt.
  rewrite (lookup_map_seq _ _ k Hlt) in Hk. injection Hk as <- <- <-.
  split; [reflexivity |]. split; [reflexivity |].
  exists (air_inp self). split; [exact Hinp |].
  destruct (lookup_lt_is_Some_2 (air_inp self) k ltac:(lia)) as [alpha Ha].
  now rewrite Ha.
Qed.

(** [generate_monotone_circuit] is the conjunction of the constraints over
    the transitions: on a well-formed object of width at least 1, with a
    constraint for every dimension, it returns a boolean, which is [True]
    exactly when every constraint polynomial [polys[j]], [j < width],
    vanishes at every pair of consecutive states of the trace. *)
Theorem generate_monotone_circuit_checks_transitions (self : AIR)
    (polys : list Air.StepPoly) :
  air_well_formed self ->
  1 <= air_w self ->
  (Z.to_nat (air_w self) <= length polys)%nat ->
  exists b,
    generate_monotone_circuit self polys = Ok b
    /\ (b = true <->
        forall i j x y poly,
          air_computational_trace self !! i = Some x ->
          air_computational_trace self !! S i = Some y ->
          (j < Z.to_nat (air_w self))%nat ->
          polys !! j = Some poly ->
          poly (x ++ y) = 0).
Proof.
  intros wf Hw Hpolys. eexists.
  split; [apply (generate_monotone_circuit_eq self wf polys Hpolys Hw) |].
  rewrite forallb_forall. split.
  - intros Hall i j x y poly Hx Hy Hj Hpoly.
    pose proof (lookup_lt_Some _ _ _ Hy) as Hi. rewrite (wf_length self wf) in Hi.
    specialize (Hall i ltac:(apply in_seq; lia)).
    rewrite Hx, Hy in Hall. cbn [default from_option id] in Hall.
    unfold transition_holds in Hall. rewrite forallb_forall in Hall.
    specialize (Hall j ltac:(apply in_seq; lia)). unfold Air.StepPoly in *.
    rewrite Hpoly in Hall. now apply Z.eqb_eq.
  - intros Hall i Hi. apply in_seq in Hi.
    destruct (lookup_lt_is_Some_2 (air_computational_trace self) i) as [x Hx];
      [rewrite (wf_length self wf); lia |].
    destruct (lookup_lt_is_Some_2 (air_computational_trace self) (S i)) as [y Hy];
      [rewrite (wf_length self wf); lia |].
    rewrite Hx, Hy. cbn [default from_option id].
    unfold transition_holds. apply forallb_forall. intros j Hj. apply in_seq in Hj.
    destruct (lookup_lt_is_Some_2 polys j ltac:(lia)) as [poly Hpoly].
    unfold Air.StepPoly in *. rewrite Hpoly. apply Z.eqb_eq.
    apply (Hall i j x y poly); try assumption. lia.
Qed.

Lemma fibonacci_air_well_formed : air_well_formed Sample.fibonacci_air.
Proof.
  unfold air_well_formed. split; [reflexivity |]. split; [| reflexivity].
  repeat constructor.
Qed.

Lemma generate_witness_transposes_witness :
  exists W,
    generate_witness Sample.fibonacci_air = Ok W
    /\ length W = Z.to_nat (air_w Sample.fibonacci_air)
    /\ Forall (fun column => length column = Z.to_nat (air_T Sample.fibonacci_air)) W
    /\ forall i j state v,
         air_computational_trace Sample.fibonacci_air !! i = Some state ->
         state !! j = Some v ->
         exists column, W !! j = Some column /\ column !! i = Some v.
Proof.
  apply (generate_witness_transposes Sample.fibonacci_air).
  repeat split; repeat constructor.
Defined.

Lemma generate_boundary_constraints_pin_input_witness :
  exists B,
    generate_boundary_constraints Sample.fibonacci_air = Ok B
    /\ length B = Z.to_nat (air_w Sample.fibonacci_air)
    /\ forall k i j alpha, B !! k = Some (i, j, alpha) ->
         i = 0%nat /\ j = k
         /\ exists state,
              air_computational_trace Sample.fibonacci_air !! i = Some state
              /\ state !! j = Some alpha.
Proof.
  apply (generate_boundary_constraints_pin_input Sample.fibonacci_air).
  - repeat split; repeat constructor.
  - reflexivity.
Defined.

Lemma generate_monotone_circuit_checks_transitions_witness :
  exists b,
    generate_monotone_circuit Sample.fibonacci_air Sample.fibonacci_constraints
    = Ok b
    /\ (b = true <->
        forall i j x y poly,
          air_computational_trace Sample.fibonacci_air !! i = Some x ->
          air_computational_trace Sample.fibonacci_air !! S i = Some y ->
          (j < Z.to_nat (air_w Sample.fibonacci_air))%nat ->
          Sample.fibonacci_constraints !! j = Some poly ->
          poly (x ++ y) = 0).
Proof.
  apply (generate_monotone_circuit_checks_transitions Sample.fibonacci_air
           Sample.fibonacci_constraints).
  - repeat split; repeat constructor.
  - simpl. lia.
  - simpl. lia.
Defined.

(** A broken transition is found: with the second constraint replaced by
    [Y_2 - X_1] the circuit is [False]. *)
Example fibonacci_circuit_fails :
  generate_monotone_circuit Sample.fibonacci_air
    [fun inputs => nth 2 inputs 0 - nth 1 inputs 0;
     fun inputs => nth 3 inputs 0 - nth 0 inputs 0]
  = Ok false.
Proof. reflexivity. Qed.

(** A computed trace satisfies the transition constraints. On an object
    whose [computational_trace] and [output] are what
    [get_computational_trace(inp, T, width, step_polys)] returns, with
    [T >= 1], [width >= 1] step polynomials and an input of [width]
    entries, [generate_monotone_circuit] returns [True] when the constraint
    [polys[j]] vanishes at every pair of states of [width] entries whose
    second has [step_polys[j]] of the first as entry [j] (as
    [Y_j - step_polys[j](X)] does). *)
Theorem generate_monotone_circuit_on_computed_trace (self : AIR)
    (polys : list Air.StepPoly) :
  1 <= air_T self ->
  1 <= air_width self ->
  air_w self = air_width self ->
  Z.of_nat (length (air_step_polys self)) = air_width self ->
  Z.of_nat (length (air_inp self)) = air_width self ->
  Z.of_nat (length polys) = air_width self ->
  Air.get_computational_trace (air_inp self) (air_T self) (air_width self)
                              (air_step_polys self)
  = Ok (air_computational_trace self, air_output self) ->
  (forall j poly step x y,
     polys !! j = Some poly -> air_step_polys self !! j = Some step ->
     Z.of_nat (length x) = air_width self -> y !! j = Some (step x) ->
     poly (x ++ y) = 0) ->
  generate_monotone_circuit self polys = Ok true.
Proof.
  intros HT Hw Hww Hsteps Hinp Hpolys Htrace Hconstr.
  destruct (computed_trace_shape self HT Hww Hsteps Hinp Htrace) as [Htr Hwf].
  rewrite (generate_monotone_circuit_eq self Hwf polys) by (rewrite ?Hww; lia).
  f_equal. apply forallb_forall. intros i Hi. apply in_seq in Hi.
  destruct (lookup_lt_is_Some_2 (air_computational_trace self) i) as [x Hx];
    [rewrite (wf_length self Hwf); lia |].
  assert (Hy : air_computational_trace self !! S i
               = Some (air_next (air_step_polys self) x)).
  { rewrite Htr in Hx |- *.
    apply (orbit_lookup_S (fun _ => air_next (air_step_polys self)) _ 0 _ i x);
      [lia | exact Hx]. }
  rewrite Hx, Hy. cbn [default from_option id].
  unfold transition_holds. apply forallb_forall. intros j Hj. apply in_seq in Hj.
  destruct (lookup_lt_is_Some_2 polys j ltac:(lia)) as [poly Hpoly].
  destruct (lookup_lt_is_Some_2 (air_step_polys self) j ltac:(lia)) as [step Hstep].
  unfold Air.StepPoly in *. rewrite Hpoly. apply Z.eqb_eq.
  apply (Hconstr j poly step x _ Hpoly Hstep).
  { rewrite (wf_state_length self Hwf i x Hx). lia. }
  unfold air_next. change (map ?f ?l) with (f <$> l).
  rewrite list_lookup_fmap. unfold Air.StepPoly in *. now rewrite Hstep.
Qed.

Lemma generate_monotone_circuit_on_computed_trace_witness :
  generate_monotone_circuit Sample.fibonacci_air Sample.fibonacci_constraints
  = Ok true.
Proof.
  apply (generate_monotone_circuit_on_computed_trace Sample.fibonacci_air
           Sample.fibonacci_constraints).
  - simpl. lia.
  - simpl. lia.
  - reflexivity.
  - reflexivity.
  - reflexivity.
  - reflexivity.
  - reflexivity.
  - intros [|[|j]] poly step x y Hp Hs Hx Hy; simpl in Hp, Hs; try discriminate.
    + injection Hp as <-. injection Hs as <-.
      destruct x as [|x0 [|x1 [|]]]; simpl in Hx; try lia.
      destruct y as [|y0 y]; simpl in *; try discriminate.
      injection Hy as ->. lia.
    + injection Hp as <-. injection Hs as <-.
      destruct x as [|x0 [|x1 [|]]]; simpl in Hx; try lia.
      destruct y as [|y0 [|y1 y]]; simpl in *; try discriminate.
      injection Hy as ->. lia.
Defined.

End AirClass.
